(** * tweakable-constructs: the construct tree, its properties and its renderer

    A shallow embedding of [src/cdkv3/construct.ts] and [src/cdkv3/core.ts]
    (and of the [Bucket] resource that is built on top of them), followed by
    the properties of the construct tree, the observable property model, the
    linkable protocol, the tweaks and the renderer.  The token registry and the
    link handlers of [src/cdkv3/tokens.ts] and the lenses of
    [src/cdkv3/lens.ts] are embedded in modules of their own, each with its
    own state.

    The program is object-oriented and mutates shared objects, so the
    embedding is a store of objects addressed by location, threaded through
    every operation by a small state-and-exception monad.  A [throw] keeps the
    store as it was at the point of the throw: nothing is rolled back.  The
    loops and recursions that need not end on every store (climbing the
    scopes, walking the children, firing observers, rendering) take fuel, and
    [Diverge] is the outcome when it runs out. *)

From Stdlib Require Import ZArith Lia Ascii.
From Stdlib Require DecimalString DecimalN DecimalPos.
From stdpp Require Import base option strings list gmap sorting.

(** ** JavaScript data *)

Module JS.

(** [T | undefined], with the [null] a caller can still pass at run time. *)
Inductive nullable (A : Type) : Type :=
| Undefined
| Null
| Just (a : A).
Global Arguments Undefined {A}.
Global Arguments Null {A}.
Global Arguments Just {A} a.

(** [x === null] *)
Definition is_null {A} (x : nullable A) : bool :=
  match x with Null => true | _ => false end.

(** Truthiness of a string: only the empty string is falsy. *)
Definition truthy_string (s : string) : bool :=
  match s with EmptyString => false | String _ _ => true end.

(** *** Objects used as dictionaries

    [Record<string, V>]: the own properties in insertion order.  Every key
    occurs once in a JavaScript object; [set] keeps it so.  [get] and [has]
    read the own properties, as [Object.entries] and a computed key in an
    object literal do.  A lookup [o[k]] also finds what the object inherits
    from [Object.prototype]: see [inherited] below. *)
Abbreviation obj V := (list (string * V)) (only parsing).

Section Obj.
Context {V : Type}.

(** [o[k]] *)
Fixpoint get (o : obj V) (k : string) : option V :=
  match o with
  | [] => None
  | (k', v) :: o' => if String.eqb k' k then Some v else get o' k
  end.

(** [o[k] = v]: overwrite in place, or add at the end. *)
Fixpoint set (o : obj V) (k : string) (v : V) : obj V :=
  match o with
  | [] => [(k, v)]
  | (k', v') :: o' =>
      if String.eqb k' k then (k', v) :: o' else (k', v') :: set o' k v
  end.

Definition has (o : obj V) (k : string) : bool :=
  match get o k with Some _ => true | None => false end.

Definition keys (o : obj V) : list string := map fst o.
End Obj.

(** *** Enumeration order

    [Object.keys], [Object.values] and [Object.entries] list the keys that
    are array indices first, in ascending numeric order, and then the other
    keys in insertion order. *)

Definition digit_of (c : ascii) : option N :=
  let n := N_of_ascii c in
  if ((48 <=? n) && (n <=? 57))%N then Some (n - 48)%N else None.

Fixpoint parse_digits (acc : N) (s : string) : option N :=
  match s with
  | EmptyString => Some acc
  | String c r =>
      match digit_of c with
      | Some d => parse_digits (10 * acc + d)%N r
      | None => None
      end
  end.

(** A canonical numeric string below [2^32 - 1]. *)
Definition array_index (s : string) : option N :=
  match s with
  | EmptyString => None
  | String "0"%char EmptyString => Some 0%N
  | String "0"%char _ => None
  | _ =>
      match parse_digits 0 s with
      | Some n => if (n <=? 4294967294)%N then Some n else None
      | None => None
      end
  end.

(** A stable insertion sort: [x] goes before the first element it does not
    exceed, so elements that compare equal keep their order.  This is what
    [Array.prototype.sort] returns for a consistent comparator. *)
Section Sort.
Context {A : Type} (le : A → A → bool).

Fixpoint insert_sorted (x : A) (l : list A) : list A :=
  match l with
  | [] => [x]
  | y :: l' => if le x y then x :: y :: l' else y :: insert_sorted x l'
  end.

Definition stable_sort (l : list A) : list A := foldr insert_sorted [] l.
End Sort.

Section Enumerate.
Context {V : Type}.

Definition index_entries (o : obj V) : list (N * (string * V)) :=
  omap (λ e, match array_index (fst e) with
             | Some n => Some (n, e)
             | None => None
             end) o.

Definition named_entries (o : obj V) : obj V :=
  filter (λ e, array_index (fst e) = None) o.

(** [Object.entries(o)] *)
Definition entries (o : obj V) : list (string * V) :=
  map snd (stable_sort (λ a b, (fst a <=? fst b)%N) (index_entries o))
    ++ named_entries o.

(** [Object.values(o)] *)
Definition values (o : obj V) : list V := map snd (entries o).
End Enumerate.

(** [xs.join(sep)] on an array of strings *)
Fixpoint join (sep : string) (xs : list string) : string :=
  match xs with
  | [] => ""
  | [x] => x
  | x :: xs' => x +:+ sep +:+ join sep xs'
  end.

(** [xs.includes(t)] *)
Definition includes (xs : list string) (t : string) : bool :=
  existsb (String.eqb t) xs.

(** *** Inherited members

    The objects that the program uses as dictionaries are created by [{}],
    so they inherit the members of [Object.prototype], and [o[k]] finds a
    member under its name when [o] has no own property [k].  Every member is
    truthy: eleven functions, and under [__proto__] the prototype itself.
    An assignment [o[k] = v] adds an own property under each of these names
    but [__proto__], which is an accessor: its setter changes the prototype
    of [o] and adds no property. *)
Definition Object_prototype : list string :=
  ["constructor"; "__defineGetter__"; "__defineSetter__"; "hasOwnProperty";
   "__lookupGetter__"; "__lookupSetter__"; "isPrototypeOf";
   "propertyIsEnumerable"; "toString"; "valueOf"; "__proto__";
   "toLocaleString"].

(** [k] names a member of [Object.prototype]. *)
Definition inherited (k : string) : bool := includes Object_prototype k.

End JS.

Import JS.

(** ** Values, objects and the store *)

(** Objects live in the store; a location is the identity that [===]
    compares. *)
Abbreviation loc := nat (only parsing).

(** The values a property holds and an observer receives ([any]). *)
#[local] Unset Elimination Schemes.
Inductive value : Type :=
| VUndefined
| VNull
| VBool (b : bool)
| VNum (n : Z)                          (* an integral number *)
| VStr (s : string)
| VArr (items : list value)
| VObj (fields : list (string * value)) (* a plain object literal *)
| VConstruct (l : loc)                  (* a reference to a construct *)
| VRenderable (r : value).              (* an [IRenderable] whose [render()] returns [r] *)
#[local] Set Elimination Schemes.

(** [x !== undefined] *)
Definition defined (x : value) : bool :=
  match x with VUndefined => false | _ => true end.

(** Truthiness of a value. *)
Definition truthy (x : value) : bool :=
  match x with
  | VUndefined | VNull => false
  | VBool b => b
  | VNum n => negb (n =? 0)%Z
  | VStr s => truthy_string s
  | VArr _ | VObj _ | VConstruct _ | VRenderable _ => true
  end.

(** The callbacks the program registers as observers.  [ObsDerived] is the
    closure [(x) => { this.set(tx(x)); }] that a [DerivedProperty] subscribes
    with; [ObsProbe] stands for a callback of a client that only records what
    it is called with, so that notifications can be counted. *)
Inductive observer : Type :=
| ObsDerived (self : loc) (tx : value → value)
| ObsProbe (tag : nat).

(** The three observable classes of [core.ts].  A [DerivedProperty] is a
    [ScalarProperty] (it adds no field). *)
Inductive Observable : Type :=
| ScalarProperty (_value : value) (observers : list observer)
| CollectionProperty (_value : list value) (observers : list observer)
| LinkRelationship (targets : list string) (_value : option loc)
                   (observers : list observer).

Definition observers_of (o : Observable) : list observer :=
  match o with
  | ScalarProperty _ obs | CollectionProperty _ obs
  | LinkRelationship _ _ obs => obs
  end.

Definition with_observers (o : Observable) (obs : list observer) : Observable :=
  match o with
  | ScalarProperty v _ => ScalarProperty v obs
  | CollectionProperty v _ => CollectionProperty v obs
  | LinkRelationship t v _ => LinkRelationship t v obs
  end.

(** What a subclass adds to [Construct]: nothing, or the fields of
    [Resource]. *)
Inductive class_fields : Type :=
| PlainConstruct
| ResourceFields (resourceType : string)
                 (properties : obj loc)   (* Record<string, Property> *)
                 (links : list loc).      (* LinkRelationship[] *)

Record Construct : Type := mkConstruct {
  _scope : nullable loc;
  id : nullable string;
  linkableTargets : list string;
  children : obj loc;                     (* Record<string, Construct> *)
  fields : class_fields
}.

(** [x instanceof Resource] *)
Definition is_Resource (c : Construct) : bool :=
  match fields c with ResourceFields _ _ _ => true | PlainConstruct => false end.

Record store : Type := mkStore {
  constructs : gmap loc Construct;
  observables : gmap loc Observable;
  next : loc;                             (* the next fresh location *)
  trace : list (nat * value)              (* what the probes were called with *)
}.

Definition set_scope (s : nullable loc) (c : Construct) : Construct :=
  mkConstruct s (id c) (linkableTargets c) (children c) (fields c).
Definition set_linkableTargets (t : list string) (c : Construct) : Construct :=
  mkConstruct (_scope c) (id c) t (children c) (fields c).
Definition set_children (ch : obj loc) (c : Construct) : Construct :=
  mkConstruct (_scope c) (id c) (linkableTargets c) ch (fields c).
Definition set_fields (f : class_fields) (c : Construct) : Construct :=
  mkConstruct (_scope c) (id c) (linkableTargets c) (children c) f.

Definition upd_construct (l : loc) (c : Construct) (st : store) : store :=
  mkStore (<[l := c]> (constructs st)) (observables st) (next st) (trace st).
Definition upd_observable (l : loc) (o : Observable) (st : store) : store :=
  mkStore (constructs st) (<[l := o]> (observables st)) (next st) (trace st).
Definition bump (st : store) : store :=
  mkStore (constructs st) (observables st) (S (next st)) (trace st).
Definition log (tag : nat) (x : value) (st : store) : store :=
  mkStore (constructs st) (observables st) (next st) (trace st ++ [(tag, x)]).

(** ** Errors and the monad *)

(** One constructor per [throw] of the program, under the name the
    specification gives it. *)
Inductive error : Type :=
| InvalidIdentityError    (* 'Id must be empty only if scope is empty' *)
| DuplicateIdError        (* 'Duplicate child: ...' *)
| NotReparentableError    (* 'Can only reparent a Construct that already had a parent' *)
| ReparentConflictError   (* 'New parent already has a child with id ...' *)
| DuplicatePropertyError  (* 'Duplicate property: ...' *)
| UnknownPropertyError    (* 'Unknown property: ...' *)
| ExpectedResourceError   (* 'Expected Resource to link, got ...' *)
| TypeMismatchError       (* '... expects ScalarProperty / ListProperty, got ...' *)
| AlreadySetError         (* '... already has a value' *)
| AlreadyLinkedError      (* 'Link already has a value' *)
| DuplicateLogicalIdError (* named by the specification; nothing throws it *)
| JsTypeError             (* the runtime's TypeError: calling what is not a function *)
| BadReference.           (* a location of the store that holds no object of the expected class *)

Inductive outcome (A : Type) : Type :=
| Ok (a : A) (st : store)
| Throw (e : error) (st : store)
| Diverge.                                (* the fuel ran out *)
Global Arguments Ok {A} a st.
Global Arguments Throw {A} e st.
Global Arguments Diverge {A}.

Definition M (A : Type) : Type := store → outcome A.

Definition ret {A} (a : A) : M A := λ st, Ok a st.
Definition throw {A} (e : error) : M A := λ st, Throw e st.
Definition bind {A B} (m : M A) (k : A → M B) : M B :=
  λ st, match m st with
        | Ok a st' => k a st'
        | Throw e st' => Throw e st'
        | Diverge => Diverge
        end.

Declare Scope js_scope.
Delimit Scope js_scope with js.
Notation "x ← y ; z" := (bind y (λ x, z))
  (at level 20, y at level 100, z at level 200, only parsing) : js_scope.
Notation "y ;; z" := (bind y (λ _, z))
  (at level 100, z at level 200, only parsing, right associativity) : js_scope.
Local Open Scope js_scope.

Definition modify (f : store → store) : M unit := λ st, Ok tt (f st).

(** Reading an object through a reference. *)
Definition the_construct (l : loc) : M Construct :=
  λ st, match constructs st !! l with
        | Some c => Ok c st
        | None => Throw BadReference st
        end.
Definition the_observable (l : loc) : M Observable :=
  λ st, match observables st !! l with
        | Some o => Ok o st
        | None => Throw BadReference st
        end.

(** [for (const x of xs) { body(x) }] *)
Fixpoint for_each {A} (xs : list A) (body : A → M unit) : M unit :=
  match xs with
  | [] => ret tt
  | x :: xs' => body x ;; for_each xs' body
  end.

(** Allocation of a new object. *)
Definition new_construct (c : Construct) : M loc :=
  λ st, Ok (next st) (bump (upd_construct (next st) c st)).
Definition new_observable (o : Observable) : M loc :=
  λ st, Ok (next st) (bump (upd_observable (next st) o st)).

(** ** construct.ts *)

(** [Scope.FLOATING], the first object the module allocates. *)
Module Scope.
Definition FLOATING : loc := 0.
End Scope.

(** [new Construct(_scope, id)], for the class whose own fields are [flds].
    The object exists before the body of the constructor runs.  The test
    [_scope.children[id]] is truthy when the scope has a child under the id,
    and also when the id names a member that the children inherit. *)
Definition Construct_new (flds : class_fields)
    (scope : nullable loc) (i : nullable string) : M loc :=
  this ← new_construct (mkConstruct scope i [] [] flds);
  (if negb (Bool.eqb (is_null i) (is_null scope))
   then throw InvalidIdentityError
   else ret tt) ;;
  match scope, i with
  | Just p, Just k =>
      if truthy_string k then
        pc ← the_construct p;
        if has (children pc) k || inherited k then throw DuplicateIdError
        else
          modify (upd_construct p (set_children (set (children pc) k this) pc)) ;;
          ret this
      else ret this
  | _, _ => ret this
  end.

(** [new Root()] *)
Definition Root_new : M loc := Construct_new PlainConstruct Undefined Undefined.

(** The store once the module is loaded: [Scope.FLOATING = new Root()]. *)
Definition empty_store : store := mkStore ∅ ∅ 0 [].
Definition initial_store : store :=
  match Root_new empty_store with
  | Ok _ st => st
  | _ => empty_store
  end.

(** [this.makeLinkable(...targets)] *)
Definition makeLinkable (this : loc) (targets : list string) : M unit :=
  c ← the_construct this;
  modify (upd_construct this (set_linkableTargets (linkableTargets c ++ targets) c)).

(** [this.constructPath]: the loop climbs while the node has a scope and a
    truthy id. *)
Fixpoint constructPath_loop (fuel : nat) (x : loc) (acc : list string)
    : M (list string) :=
  match fuel with
  | 0 => λ _, Diverge
  | S fuel' =>
      c ← the_construct x;
      match _scope c, id c with
      | Just p, Just k =>
          if truthy_string k then constructPath_loop fuel' p (k :: acc)
          else ret acc
      | _, _ => ret acc
      end
  end.

Definition constructPath (fuel : nat) (this : loc) : M (list string) :=
  constructPath_loop fuel this [].

(** The loop of [reparentTo] that deletes every entry of the old scope's
    children whose value is this very node. *)
Definition without_child (this : loc) (ch : obj loc) : obj loc :=
  filter (λ e, snd e ≠ this) ch.

(** [this.reparentTo(newParent)].  The id under which [newParent.children]
    is read is the id of a node that has a scope, so it names no inherited
    member: the constructor registers no child under such an id. *)
Definition reparentTo (this newParent : loc) : M unit :=
  c ← the_construct this;
  match _scope c, id c with
  | Just old, Just k =>
      if truthy_string k then
        oc ← the_construct old;
        modify (upd_construct old (set_children (without_child this (children oc)) oc)) ;;
        np ← the_construct newParent;
        if has (children np) k then throw ReparentConflictError
        else
          c' ← the_construct this;
          modify (upd_construct this (set_scope (Just newParent) c')) ;;
          np' ← the_construct newParent;
          modify (upd_construct newParent
                    (set_children (set (children np') k this) np'))
      else throw NotReparentableError
  | _, _ => throw NotReparentableError
  end.

(** [interface ILinkable]: the tags the object wants to attach to, and the
    operation that attaches it.  [as_construct] answers
    [Construct.isConstruct(linkable)]. *)
Class ILinkable (L : Type) : Type := {
  linkTargets : L → list string;
  linkTo : nat → L → loc → M unit;
  as_construct : L → option loc
}.

(** [linkable.scope === Scope.FLOATING] *)
Definition is_floating (c : Construct) : bool :=
  match _scope c with
  | Just p => Nat.eqb p Scope.FLOATING
  | _ => false
  end.

Section Linking.
Context {L : Type} `{ILinkable L}.

(** [linkable.linkTargets.some(t => target.linkableTargets.includes(t))] *)
Definition matches (linkable : L) (target : Construct) : bool :=
  existsb (includes (linkableTargets target)) (linkTargets linkable).

(** [Linkable.tryLink(linkable, target)]; the debug line it may print is
    not part of the model. *)
Definition tryLink (fuel : nat) (linkable : L) (target : loc) : M unit :=
  t ← the_construct target;
  if matches linkable t then linkTo fuel linkable target else ret tt.

(** What [link] does with one entry of the list at the node [this]. *)
Definition link_one (fuel : nat) (this : loc) (entry : option L) : M unit :=
  match entry with
  | None => ret tt
  | Some linkable =>
      match as_construct linkable with
      | Some l =>
          lc ← the_construct l;
          if is_floating lc then reparentTo l this else ret tt
      | None => ret tt
      end ;;
      tryLink fuel linkable this
  end.

(** [this.link(linkables)]: every entry against this node, then the same
    list against every child. *)
Fixpoint link (fuel : nat) (this : loc) (linkables : list (option L)) : M unit :=
  match fuel with
  | 0 => λ _, Diverge
  | S fuel' =>
      for_each linkables (link_one fuel' this) ;;
      c ← the_construct this;
      for_each (values (children c)) (λ child, link fuel' child linkables)
  end.
End Linking.

(** ** core.ts: observables and properties *)

(** [Observable.addObserver(obs)] *)
Definition Observable_addObserver (this : loc) (obs : observer) : M unit :=
  o ← the_observable this;
  modify (upd_observable this (with_observers o (observers_of o ++ [obs]))).

(** The getter [value] of each class; a collection hands out its array. *)
Definition value_of (o : Observable) : value :=
  match o with
  | ScalarProperty v _ => v
  | CollectionProperty items _ => VArr items
  | LinkRelationship _ (Some l) _ => VConstruct l
  | LinkRelationship _ None _ => VUndefined
  end.

(** [hasValue] of [ScalarProperty] and of [LinkRelationship] *)
Definition hasValue (o : Observable) : bool := defined (value_of o).

(** [this._value = x] in a [ScalarProperty] *)
Definition write_scalar (this : loc) (x : value) : M unit :=
  o ← the_observable this;
  match o with
  | ScalarProperty _ obs => modify (upd_observable this (ScalarProperty x obs))
  | _ => throw BadReference
  end.

(** Calling an observer; [set] is [ScalarProperty.set], which the closure of
    a derived property calls on itself. *)
Definition call_observer (set : loc → value → M unit)
    (obs : observer) (x : value) : M unit :=
  match obs with
  | ObsProbe tag => modify (log tag x)
  | ObsDerived self tx => set self (tx x)
  end.

(** [Observable.fire(x)]: every observer, in registration order.  A derived
    property sets itself and fires in turn, one unit of fuel deeper. *)
Fixpoint fire (fuel : nat) (this : loc) (x : value) : M unit :=
  match fuel with
  | 0 => λ _, Diverge
  | S fuel' =>
      o ← the_observable this;
      for_each (observers_of o)
        (λ obs, call_observer
                  (λ self y, write_scalar self y ;; fire fuel' self y) obs x)
  end.

(** [ScalarProperty.set(x)] *)
Definition ScalarProperty_set (fuel : nat) (this : loc) (x : value) : M unit :=
  write_scalar this x ;; fire fuel this x.

(** [if (this.value !== undefined) { obs(this.value); }] *)
Definition notify_current (fuel : nat) (this : loc) (obs : observer) : M unit :=
  o ← the_observable this;
  if defined (value_of o)
  then call_observer (ScalarProperty_set fuel) obs (value_of o)
  else ret tt.

(** [Property.addObserver(obs)] *)
Definition Property_addObserver (fuel : nat) (this : loc) (obs : observer) : M unit :=
  Observable_addObserver this obs ;;
  notify_current fuel this obs.

(** [CollectionProperty.addObserver(obs)]: the override calls [super] and
    then checks and calls again. *)
Definition CollectionProperty_addObserver (fuel : nat) (this : loc)
    (obs : observer) : M unit :=
  Property_addObserver fuel this obs ;;
  notify_current fuel this obs.

(** [LinkRelationship.addObserver(obs)]: its [super] is [Observable]. *)
Definition LinkRelationship_addObserver (fuel : nat) (this : loc)
    (obs : observer) : M unit :=
  Observable_addObserver this obs ;;
  notify_current fuel this obs.

(** [observed.addObserver(obs)] through the interface [IObservable]. *)
Definition addObserver (fuel : nat) (this : loc) (obs : observer) : M unit :=
  o ← the_observable this;
  match o with
  | ScalarProperty _ _ => Property_addObserver fuel this obs
  | CollectionProperty _ _ => CollectionProperty_addObserver fuel this obs
  | LinkRelationship _ _ _ => LinkRelationship_addObserver fuel this obs
  end.

(** [new ScalarProperty(initialValue)] *)
Definition ScalarProperty_new (initialValue : value) : M loc :=
  new_observable (ScalarProperty initialValue []).

(** [new CollectionProperty()] *)
Definition CollectionProperty_new : M loc :=
  new_observable (CollectionProperty [] []).

(** [CollectionProperty.add(x)] *)
Definition CollectionProperty_add (fuel : nat) (this : loc) (x : value) : M unit :=
  o ← the_observable this;
  match o with
  | CollectionProperty items obs =>
      modify (upd_observable this (CollectionProperty (items ++ [x]) obs)) ;;
      fire fuel this (VArr (items ++ [x]))
  | _ => throw BadReference
  end.

(** [LinkRelationship.set(x)] *)
Definition LinkRelationship_set (fuel : nat) (this : loc) (x : loc) : M unit :=
  o ← the_observable this;
  match o with
  | LinkRelationship targets v obs =>
      match v with
      | Some _ => throw AlreadyLinkedError
      | None =>
          modify (upd_observable this (LinkRelationship targets (Some x) obs)) ;;
          fire fuel this (VConstruct x)
      end
  | _ => throw BadReference
  end.

(** [new LinkRelationship(targets, initialValue)] *)
Definition LinkRelationship_new (fuel : nat) (targets : list string)
    (initialValue : option loc) : M loc :=
  this ← new_observable (LinkRelationship targets None []);
  match initialValue with
  | Some x => LinkRelationship_set fuel this x
  | None => ret tt
  end ;;
  ret this.

(** [new DerivedProperty(observed, tx)] *)
Definition DerivedProperty_new (fuel : nat) (observed : loc)
    (tx : value → value) : M loc :=
  this ← ScalarProperty_new VUndefined;
  addObserver fuel observed (ObsDerived this tx) ;;
  ret this.

(** ** core.ts: resources *)

(** [new Resource(scope, id, resourceType)] *)
Definition Resource_new (scope : loc) (i : string) (resourceType : string) : M loc :=
  Construct_new (ResourceFields resourceType [] []) (Just scope) (Just i).

(** Reading [this] as a [Resource]. *)
Definition the_resource (this : loc) : M (Construct * string * obj loc * list loc) :=
  c ← the_construct this;
  match fields c with
  | ResourceFields ty props links => ret (c, ty, props, links)
  | PlainConstruct => throw BadReference
  end.

(** [this.logicalId] *)
Definition logicalId (fuel : nat) (this : loc) : M string :=
  p ← constructPath fuel this;
  ret (join "" p).

(** [this.addProperty(name, prop)]: [this.properties[name]] is truthy when a
    property was added under the name, and when the name is inherited. *)
Definition addProperty (this : loc) (name : string) (prop : loc) : M unit :=
  r ← the_resource this;
  let '(c, ty, props, links) := r in
  if has props name || inherited name then throw DuplicatePropertyError
  else modify (upd_construct this
                 (set_fields (ResourceFields ty (set props name prop) links) c)).

(** [this.addLink(link)] *)
Definition addLink (this : loc) (lnk : loc) : M loc :=
  r ← the_resource this;
  let '(c, ty, props, links) := r in
  modify (upd_construct this
            (set_fields (ResourceFields ty props (links ++ [lnk])) c)) ;;
  ret lnk.

(** What [this.properties[name]] is when it is truthy: a property that was
    added under the name, or the member of [Object.prototype] of that name,
    which is no property. *)
Inductive member : Type :=
| Added (prop : loc)
| InheritedMember.

(** [this.property(name)] *)
Definition property (this : loc) (name : string) : M member :=
  r ← the_resource this;
  let '(_, _, props, _) := r in
  match get props name with
  | Some p => ret (Added p)
  | None =>
      if inherited name then ret InheritedMember
      else throw UnknownPropertyError
  end.

(** [Resource.linkTo(target)]: sets every link of this resource whose
    targets meet what [target] advertises. *)
Definition Resource_linkTo (fuel : nat) (this : loc) (target : loc) : M unit :=
  r ← the_resource this;
  let '(_, _, _, links) := r in
  for_each links (λ lnk,
    o ← the_observable lnk;
    match o with
    | LinkRelationship targets _ _ =>
        t ← the_construct target;
        if existsb (includes (linkableTargets t)) targets
        then LinkRelationship_set fuel lnk target
        else ret tt
    | _ => throw BadReference
    end).

(** [Resource.findAll(scope)]: the queue is served from the front and fed
    at the back. *)
Fixpoint findAll_loop (fuel : nat) (stack : list loc) (acc : list loc)
    {struct fuel} : M (list loc) :=
  match stack with
  | [] => ret acc
  | first :: rest =>
      match fuel with
      | 0 => λ _, Diverge
      | S fuel' =>
          c ← the_construct first;
          findAll_loop fuel' (rest ++ values (children c))
            (if is_Resource c then acc ++ [first] else acc)
      end
  end.

Definition findAll (fuel : nat) (scope : loc) : M (list loc) :=
  findAll_loop fuel [scope] [].

(** [map] with an effectful function, left to right. *)
Fixpoint map_m {A B} (f : A → M B) (xs : list A) : M (list B) :=
  match xs with
  | [] => ret []
  | x :: xs' => y ← f x; ys ← map_m f xs'; ret (y :: ys)
  end.

(** [isRenderable(x) ? x.render() : x], where [render_resource] is
    [Resource.render].  A plain object whose [render] member is truthy passes
    the test of [isRenderable], and the call of that member then fails: no
    value of the model is a function. *)
Definition render_value (render_resource : loc → M value) (x : value) : M value :=
  match x with
  | VRenderable r => ret r
  | VConstruct l =>
      c ← the_construct l;
      if is_Resource c then render_resource l else ret x
  | VObj fs =>
      match get fs "render" with
      | Some m => if truthy m then throw JsTypeError else ret x
      | None => ret x
      end
  | _ => ret x
  end.

(** [prop.rendered()] *)
Definition rendered (render_resource : loc → M value) (prop : loc) : M value :=
  o ← the_observable prop;
  match o with
  | ScalarProperty v _ => render_value render_resource v
  | CollectionProperty items _ => render_value render_resource (VArr items)
  | LinkRelationship _ _ _ => throw BadReference
  end.

(** [Object.fromEntries(es)] *)
Definition fromEntries {V} (es : list (string * V)) : obj V :=
  foldl (λ o e, set o (fst e) (snd e)) [] es.

(** [Object.assign(target, source)], for a [target] created by [{}]: every
    own property of the source is assigned to the target.  The assignment
    under [__proto__] reaches the setter that the target inherits, which
    adds no property (it replaces the prototype of the target, which no
    enumeration of the document shows). *)
Definition assign {V} (target source : obj V) : obj V :=
  foldl (λ o e, if String.eqb (fst e) "__proto__" then o
                else set o (fst e) (snd e))
        target (entries source).

(** [this.render()]: one entry, keyed by the logical id. *)
Fixpoint Resource_render (fuel : nat) (this : loc) : M (obj value) :=
  match fuel with
  | 0 => λ _, Diverge
  | S fuel' =>
      r ← the_resource this;
      let '(_, ty, props, _) := r in
      lid ← logicalId fuel this;
      ps ← map_m (λ e,
                   v ← rendered (λ l, d ← Resource_render fuel' l; ret (VObj d))
                                (snd e);
                   ret (fst e, v))
                 (entries props);
      ret [(lid, VObj [("Type", VStr ty); ("Properties", VObj (fromEntries ps))])]
  end.

Section RenderAll.
(** [String.prototype.localeCompare]: the collation of the host's locale,
    negative, zero or positive. *)
Variable localeCompare : string → string → Z.

(** The comparator handed to [res.sort]; the paths are read once, which
    is the same since comparing does not change the store. *)
Definition by_path (a b : list string * loc) : bool :=
  (localeCompare (join "/" (fst a)) (join "/" (fst b)) <=? 0)%Z.

(** [Resource.renderAll(scope)] *)
Definition renderAll (fuel : nat) (scope : loc) : M (obj value) :=
  res ← findAll fuel scope;
  keyed ← map_m (λ r, p ← constructPath fuel r; ret (p, r)) res;
  docs ← map_m (λ e, Resource_render fuel (snd e)) (stable_sort by_path keyed);
  ret (foldl assign [] docs).
End RenderAll.

(** ** core.ts: tweaks *)

Module ScalarTweak.
Record t : Type := new {
  resourceType : string;
  property : string;
  value : value
}.
End ScalarTweak.

Module CollectionTweak.
Record t : Type := new {
  resourceType : string;
  collection : string;
  value : value
}.
End CollectionTweak.

(** [ScalarTweak.linkTo(res)] *)
Definition ScalarTweak_linkTo (fuel : nat) (this : ScalarTweak.t) (res : loc) : M unit :=
  c ← the_construct res;
  if is_Resource c then
    m ← property res (ScalarTweak.property this);
    match m with
    | Added prop =>
        o ← the_observable prop;
        match o with
        | ScalarProperty _ _ =>
            if hasValue o then throw AlreadySetError
            else ScalarProperty_set fuel prop (ScalarTweak.value this)
        | _ => throw TypeMismatchError
        end
    | InheritedMember => throw TypeMismatchError
    end
  else throw ExpectedResourceError.

(** [CollectionTweak.linkTo(res)] *)
Definition CollectionTweak_linkTo (fuel : nat) (this : CollectionTweak.t) (res : loc)
    : M unit :=
  c ← the_construct res;
  if is_Resource c then
    m ← property res (CollectionTweak.collection this);
    match m with
    | Added prop =>
        o ← the_observable prop;
        match o with
        | CollectionProperty _ _ =>
            CollectionProperty_add fuel prop (CollectionTweak.value this)
        | _ => throw TypeMismatchError
        end
    | InheritedMember => throw TypeMismatchError
    end
  else throw ExpectedResourceError.

#[global] Instance ScalarTweak_ILinkable : ILinkable ScalarTweak.t := {|
  linkTargets t := [ScalarTweak.resourceType t];
  linkTo := ScalarTweak_linkTo;
  as_construct _ := None
|}.

#[global] Instance CollectionTweak_ILinkable : ILinkable CollectionTweak.t := {|
  linkTargets t := [CollectionTweak.resourceType t];
  linkTo := CollectionTweak_linkTo;
  as_construct _ := None
|}.

(** What a list of linkables holds: a tweak, or a resource whose class
    declares the tags [targets] it links to. *)
Inductive linkable : Type :=
| LScalarTweak (t : ScalarTweak.t)
| LCollectionTweak (t : CollectionTweak.t)
| LResource (l : loc) (targets : list string).

#[global] Instance linkable_ILinkable : ILinkable linkable := {|
  linkTargets x :=
    match x with
    | LScalarTweak t => linkTargets t
    | LCollectionTweak t => linkTargets t
    | LResource _ targets => targets
    end;
  linkTo fuel x target :=
    match x with
    | LScalarTweak t => linkTo fuel t target
    | LCollectionTweak t => linkTo fuel t target
    | LResource l _ => Resource_linkTo fuel l target
    end;
  as_construct x :=
    match x with
    | LResource l _ => Some l
    | _ => None
    end
|}.

(** ** The S3 bucket resource *)

Module Bucket.
Record Tag : Type := mkTag { key : string; value : string }.

(** [BucketProps]; an absent [tags] is the empty list. *)
Record BucketProps : Type := mkProps {
  bucketName : option string;
  tags : list Tag
}.
Definition no_props : BucketProps := mkProps None [].

(** [Bucket.BucketName(name)] *)
Definition BucketName (name : string) : linkable :=
  LScalarTweak (ScalarTweak.new "AWS::S3::Bucket" "BucketName" (VStr name)).

(** [Bucket.Tag(key, value)] *)
Definition Tag_ (k v : string) : linkable :=
  LCollectionTweak
    (CollectionTweak.new "AWS::S3::Bucket" "Tags"
       (VObj [("Key", VStr k); ("Value", VStr v)])).

(** [this.makeLinkableAs(...targets)].  Neither [Construct] nor [Resource]
    has a member of this name ([Construct] names its method [makeLinkable]),
    and [Object.prototype] has none either: what the call finds is
    [undefined], and calling it is the [TypeError] of the runtime. *)
Definition makeLinkableAs (this : loc) (targets : list string) : M unit :=
  throw JsTypeError.

(** [new Bucket(scope, id, props, linkables)] *)
Definition new (fuel : nat) (scope : loc) (i : string) (props : BucketProps)
    (linkables : list (option linkable)) : M loc :=
  this ← Resource_new scope i "AWS::S3::Bucket";
  makeLinkableAs this ["AWS::S3::Bucket"] ;;
  p1 ← ScalarProperty_new VUndefined;
  addProperty this "BucketName" p1 ;;
  p2 ← ScalarProperty_new VUndefined;
  addProperty this "LoggingConfiguration" p2 ;;
  p3 ← CollectionProperty_new;
  addProperty this "Tags" p3 ;;
  link fuel this
    ((match bucketName props with
      | Some n => if truthy_string n then Some (BucketName n) else None
      | None => None
      end)
     :: map (λ t, Some (Tag_ (key t) (value t))) (tags props)
     ++ linkables) ;;
  ret this.
End Bucket.

(** ** Reading the store *)

Definition children_of (st : store) (l : loc) : obj loc :=
  match constructs st !! l with Some c => children c | None => [] end.
Definition scope_of (st : store) (l : loc) : nullable loc :=
  match constructs st !! l with Some c => _scope c | None => Undefined end.
Definition id_of (st : store) (l : loc) : nullable string :=
  match constructs st !! l with Some c => id c | None => Undefined end.

(** The children the destination has once the node has left its old scope:
    its own, unless the destination is that old scope. *)
Definition destination_children (st : store) (this old newParent : loc) : obj loc :=
  if decide (newParent = old)
  then without_child this (children_of st old)
  else children_of st newParent.

(** The store a computation leaves, whether it returns or throws. *)
Definition exec {A} (m : M A) (st : store) : store :=
  match m st with
  | Ok _ st' | Throw _ st' => st'
  | Diverge => st
  end.

(** ** Trees in the store *)

(** [c] is a child of [p]. *)
Definition child (st : store) (p c : loc) : Prop :=
  ∃ pc, constructs st !! p = Some pc ∧ c ∈ map snd (children pc).

(** [r] is a resource of the tree below [scope], [scope] included. *)
Definition resource_below (st : store) (scope r : loc) : Prop :=
  rtc (child st) scope r
  ∧ ∃ c, constructs st !! r = Some c ∧ is_Resource c = true.

(** The step of the loop of [constructPath]: where to climb and what to put
    in front, or nothing when the loop ends. *)
Definition climb (c : Construct) : option (loc * string) :=
  match _scope c, id c with
  | Just p, Just k => if truthy_string k then Some (p, k) else None
  | _, _ => None
  end.

(** The path of a node whose chain of scopes ends. *)
Inductive path_to (st : store) : loc → list string → Prop :=
| path_stop l c :
    constructs st !! l = Some c → climb c = None → path_to st l []
| path_step l c p k ks :
    constructs st !! l = Some c → climb c = Some (p, k) →
    path_to st p ks → path_to st l (ks ++ [k]).

(** A part of the store that is a tree: every node with its children, in
    the order [Object.values] lists them. *)
#[local] Unset Elimination Schemes.
Inductive tree : Type :=
| Node (l : loc) (kids : list tree).
#[local] Set Elimination Schemes.

Definition root_of (t : tree) : loc :=
  match t with Node l _ => l end.

Fixpoint size (t : tree) : nat :=
  match t with
  | Node _ kids => S (list_sum (map size kids))
  end.

#[local] Unset Elimination Schemes.
Inductive shape (st : store) : tree → Prop :=
| shape_node l c kids :
    constructs st !! l = Some c →
    values (children c) = map root_of kids →
    Forall (shape st) kids →
    shape st (Node l kids).
#[local] Set Elimination Schemes.

(** A value that [rendered] passes through as it is. *)
Definition plain (st : store) (x : value) : Prop :=
  match x with
  | VRenderable _ => False
  | VConstruct l => ∃ c, constructs st !! l = Some c ∧ is_Resource c = false
  | VObj fs =>
      match get fs "render" with
      | Some m => truthy m = false
      | None => True
      end
  | _ => True
  end.

(** A resource whose properties hold plain values. *)
Definition flat_property (st : store) (p : loc) : Prop :=
  match observables st !! p with
  | Some (ScalarProperty v _) => plain st v
  | Some (CollectionProperty _ _) => True
  | _ => False
  end.

Definition flat_resource (st : store) (r : loc) : Prop :=
  ∃ c ty props links,
    constructs st !! r = Some c
    ∧ fields c = ResourceFields ty props links
    ∧ Forall (λ e, flat_property st (snd e)) props.

(** ** What a tree says about its resources *)

(** A resource as the renderer sees it: its path and what it renders to. *)
Definition describe (fuel : nat) (r : loc) : M (list string * obj value) :=
  p ← constructPath fuel r;
  d ← Resource_render fuel r;
  ret (p, d).

Definition descriptions (fuel : nat) (scope : loc)
    : M (list (list string * obj value)) :=
  res ← findAll fuel scope;
  map_m (describe fuel) res.

(** The sort key of a path, and the comparator on keyed things. *)
Definition sort_key (p : list string) : string := join "/" p.

Definition by_key {B} (localeCompare : string → string → Z)
    (a b : list string * B) : bool :=
  (localeCompare (sort_key (fst a)) (sort_key (fst b)) <=? 0)%Z.

(** A comparator to run examples with: the order of the code units. *)
Definition codeUnitCompare (a b : string) : Z :=
  match String.compare a b with
  | Lt => (-1)%Z
  | Eq => 0%Z
  | Gt => 1%Z
  end.

(** [m] changes nothing when it returns. *)
Definition readonly {A} (m : M A) : Prop :=
  ∀ st a st', m st = Ok a st' → st' = st.

(** [m] throws only errors that satisfy [P]. *)
Definition throws_within (P : error → Prop) {A} (m : M A) : Prop :=
  ∀ st e st', m st = Throw e st' → P e.

(** What rendering can throw: a reference that does not resolve, or the
    call of a [render] member that is not a function. *)
Definition render_error (e : error) : Prop :=
  e = BadReference ∨ e = JsTypeError.

(** A comparator is consistent on the elements that satisfy [P]: any two
    are comparable, and the comparison is transitive. *)
Definition consistent_on {A} (le : A → A → bool) (P : A → Prop) : Prop :=
  (∀ a b, P a → P b → le a b = true ∨ le b a = true)
  ∧ (∀ a b c, P a → P b → P c → le a b = true → le b c = true → le a c = true).

(** ** Scenarios *)

(** A root (location 1) with a child ["x"] (location 2), and a floating
    node with the same id (location 3). *)
Definition conflict_store : store :=
  exec (p ← Root_new;
        Construct_new PlainConstruct (Just p) (Just "x") ;;
        Construct_new PlainConstruct (Just Scope.FLOATING) (Just "x"))
       initial_store.

(** A root (location 1) and a floating node ["x"] (location 2). *)
Definition adoption_store : store :=
  exec (Root_new ;;
        Construct_new PlainConstruct (Just Scope.FLOATING) (Just "x"))
       initial_store.

(** ** Well-formed observers *)

(** Two states of one observable object: the class and the observers are
    the same, and only a scalar may hold another value. *)
Definition same_kind (o o' : Observable) : Prop :=
  match o, o' with
  | ScalarProperty _ obs, ScalarProperty _ obs' => obs = obs'
  | _, _ => o = o'
  end.

(** What firing does to a store: it sets scalars and calls probes, and
    nothing else. *)
Record evolves (st st' : store) : Prop := mkEvolves {
  ev_constructs : constructs st' = constructs st;
  ev_next : next st' = next st;
  ev_trace : ∃ evs, trace st' = trace st ++ evs;
  ev_observables : ∀ l : loc, option_Forall2 same_kind (observables st !! l)
                                       (observables st' !! l)
}.

(** The closure of a derived property is registered by its constructor, on
    an observable that exists already: in every store the program builds, an
    [ObsDerived self _] registered on [l] has [l < self], and [self] is an
    allocated scalar. *)
Definition wf_observers (st : store) : Prop :=
  ∀ (l : loc) (o : Observable) (self : loc) (tx : value → value),
    observables st !! l = Some o →
    ObsDerived self tx ∈ observers_of o →
    l < self ∧ self < next st
    ∧ ∃ v obs, observables st !! self = Some (ScalarProperty v obs).

(** The same, as a test that can be run on a given store. *)
Definition is_scalar_at (st : store) (l : loc) : bool :=
  match observables st !! l with
  | Some (ScalarProperty _ _) => true
  | _ => false
  end.

Definition observer_ok (st : store) (l : loc) (ob : observer) : bool :=
  match ob with
  | ObsDerived self _ =>
      Nat.ltb l self && Nat.ltb self (next st) && is_scalar_at st self
  | ObsProbe _ => true
  end.

Definition wf_observers_check (st : store) : bool :=
  forallb (λ e, forallb (observer_ok st (fst e)) (observers_of (snd e)))
          (map_to_list (observables st)).

(** [prop.value] of a scalar *)
Definition scalar_value (st : store) (l : loc) : option value :=
  match observables st !! l with
  | Some (ScalarProperty v _) => Some v
  | _ => None
  end.

(** No observer registered at or above [l] sets [d]. *)
Definition no_target_from (st : store) (l d : loc) : Prop :=
  ∀ (l' : loc) (o : Observable) (self : loc) (tx : value → value),
    l ≤ l' →
    observables st !! l' = Some o →
    ObsDerived self tx ∈ observers_of o →
    self ≠ d.

(** [d] is derived from the scalar [s] by [f]: the closure that sets [d] to
    [f x] is registered on [s], and no other observer of the store sets
    [d]. *)
Record derived_from (st : store) (s d : loc) (f : value → value) : Prop :=
  mkDerivedFrom {
  df_wf : wf_observers st;
  df_source : ∃ v pre post,
      observables st !! s = Some (ScalarProperty v (pre ++ ObsDerived d f :: post))
      ∧ (∀ self tx, ObsDerived self tx ∈ pre ++ post → self ≠ d);
  df_only : ∀ (l : loc) (o : Observable) (self : loc) (tx : value → value),
      l ≠ s →
      observables st !! l = Some o →
      ObsDerived self tx ∈ observers_of o →
      self ≠ d;
  df_target : is_scalar_at st d = true
}.

(** [s.set(v)] for every [v] of a list, in order. *)
Definition set_all (fuel : nat) (s : loc) (vs : list value) : M unit :=
  for_each vs (ScalarProperty_set fuel s).

(** The tags of the probes among some observers, in registration order. *)
Definition probes (obs : list observer) : list nat :=
  omap (λ o, match o with ObsProbe tag => Some tag | ObsDerived _ _ => None end) obs.

(** A scalar (location 1) that holds 3, as in the test 'Derived from
    initial value'. *)
Definition scalar_store : store :=
  exec (p ← ScalarProperty_new VUndefined;
        ScalarProperty_set 1 p (VNum 3))
       initial_store.

(** [(x) => x * 2] on the numbers of the model *)
Definition double (x : value) : value :=
  match x with VNum n => VNum (n * 2) | _ => VUndefined end.

(** An unset link relationship (location 1) observed by the probe 7, and a
    root (location 2) to link. *)
Definition link_store : store :=
  exec (l ← LinkRelationship_new 1 [] None;
        LinkRelationship_addObserver 1 l (ObsProbe 7) ;;
        Root_new)
       initial_store.

(** An empty collection (location 1). *)
Definition collection_store : store :=
  exec CollectionProperty_new initial_store.

(** What the constructor of [Bucket] sets out to declare, through the
    methods that [Construct] and [Resource] have: the resource advertises
    its type and gets the scalars [BucketName] and [LoggingConfiguration]
    and the collection [Tags], none with a value. *)
Definition declare_bucket (this : loc) : M unit :=
  makeLinkable this ["AWS::S3::Bucket"] ;;
  p1 ← ScalarProperty_new VUndefined;
  addProperty this "BucketName" p1 ;;
  p2 ← ScalarProperty_new VUndefined;
  addProperty this "LoggingConfiguration" p2 ;;
  p3 ← CollectionProperty_new;
  addProperty this "Tags" p3.

(** A root (location 1) and under it the resource ["Bucket"] of type
    ["AWS::S3::Bucket"] (location 2) with the three properties of a bucket
    (locations 3, 4 and 5), nothing set. *)
Definition bucket_store : store :=
  exec (root ← Root_new;
        b ← Resource_new root "Bucket" "AWS::S3::Bucket";
        declare_bucket b)
       initial_store.

(** The document the scenario is said to render to. *)
Definition claimed_bucket_document : obj value :=
  [("Bucket",
    VObj [("type", VStr "S3::Bucket");
          ("properties",
           VObj [("BucketName", VStr "MyBucket");
                 ("Tags", VArr [VObj [("Key", VStr "CostCenter");
                                      ("Value", VStr "1234")]])])])].

(** The document it renders to. *)
Definition rendered_bucket_document : obj value :=
  [("Bucket",
    VObj [("Type", VStr "S3::Bucket");
          ("Properties",
           VObj [("BucketName", VStr "MyBucket");
                 ("Tags", VArr [VObj [("Key", VStr "CostCenter");
                                      ("Value", VStr "1234")]])])])].

(** The scenario as a program, with the methods of [Construct] and
    [Resource]: under a new root a resource ["Bucket"] of type
    ["S3::Bucket"] that advertises its type and declares the scalar
    [BucketName] and the collection [Tags], neither with a value; the two
    tweaks are linked to it, and the tree is rendered. *)
Definition bucket_scenario (localeCompare : string → string → Z) : M (obj value) :=
  root ← Root_new;
  b ← Resource_new root "Bucket" "S3::Bucket";
  makeLinkable b ["S3::Bucket"] ;;
  p1 ← ScalarProperty_new VUndefined;
  addProperty b "BucketName" p1 ;;
  p2 ← CollectionProperty_new;
  addProperty b "Tags" p2 ;;
  link 5 b
    [Some (LScalarTweak
             (ScalarTweak.new "S3::Bucket" "BucketName" (VStr "MyBucket")));
     Some (LCollectionTweak
             (CollectionTweak.new "S3::Bucket" "Tags"
                (VObj [("Key", VStr "CostCenter"); ("Value", VStr "1234")])))] ;;
  renderAll localeCompare 5 root.

(** Two resources whose paths differ and whose joined paths do not: under a
    root (location 1) the nodes ["A/"] and ["A"] (locations 2 and 3), and
    under them the resources ["B"] of type ["T1"] (location 4) and ["/B"] of
    type ["T2"] (location 5).  Both have the sort key ["A//B"] and the
    logical id ["A/B"]. *)
Definition clash_store_1 : store :=
  exec (root ← Root_new;
        a ← Construct_new PlainConstruct (Just root) (Just "A/");
        b ← Construct_new PlainConstruct (Just root) (Just "A");
        Resource_new a "B" "T1" ;;
        Resource_new b "/B" "T2")
       initial_store.

(** The same tree with the two children of the root inserted in the other
    order: ["A"] is location 2 and ["A/"] location 3. *)
Definition clash_store_2 : store :=
  exec (root ← Root_new;
        b ← Construct_new PlainConstruct (Just root) (Just "A");
        a ← Construct_new PlainConstruct (Just root) (Just "A/");
        Resource_new a "B" "T1" ;;
        Resource_new b "/B" "T2")
       initial_store.

(** A root (location 1) with the resources ["A"] and ["B"], inserted in
    this order and in the other. *)
Definition order_store_1 : store :=
  exec (root ← Root_new;
        Resource_new root "A" "T1" ;;
        Resource_new root "B" "T2")
       initial_store.

Definition order_store_2 : store :=
  exec (root ← Root_new;
        Resource_new root "B" "T2" ;;
        Resource_new root "A" "T1")
       initial_store.

(** ** More ways to read the store and its trees *)

(** The nodes of a tree, the root first. *)
Fixpoint nodes (t : tree) : list loc :=
  match t with
  | Node l kids => l :: concat (map nodes kids)
  end.

(** The nodes of a tree in the order [link] comes to them, each with the
    fuel [link] has for the entries there. *)
Fixpoint visits (fuel : nat) (t : tree) : list (nat * loc) :=
  match t with
  | Node l kids => (pred fuel, l) :: concat (map (visits (pred fuel)) kids)
  end.

(** An entry of a list of linkables that is a tweak, or nothing. *)
Definition is_tweak (entry : option linkable) : bool :=
  match entry with
  | Some (LResource _ _) => false
  | _ => true
  end.

(** The entries of a list of linkables that [link] does not skip. *)
Definition present {L} (linkables : list (option L)) : list (option L) :=
  Some <$> omap (λ e, e) linkables.

(** A root (location 1) and a floating resource ["Pol"] of type ["T"]
    (location 2). *)
Definition floating_resource_store : store :=
  exec (Root_new ;;
        Resource_new Scope.FLOATING "Pol" "T")
       initial_store.

(** [l instanceof Resource], for a location of the store. *)
Definition resource_at (st : store) (l : loc) : bool :=
  match constructs st !! l with
  | Some c => is_Resource c
  | None => false
  end.

(** [prop.value], for a location of the store. *)
Definition property_value (st : store) (p : loc) : value :=
  match observables st !! p with
  | Some o => value_of o
  | None => VUndefined
  end.

(** [link.value] of a link relationship *)
Definition value_of_link (st : store) (l : loc) : option loc :=
  match observables st !! l with
  | Some (LinkRelationship _ v _) => v
  | _ => None
  end.

(** [m] changes nothing, whether it returns or throws. *)
Definition changes_nothing {A} (m : M A) : Prop :=
  ∀ st, exec m st = st.

(** The scalar of [scalar_store], observed by the probes 7 and 8. *)
Definition observed_scalar_store : store :=
  exec (addObserver 1 1 (ObsProbe 7) ;;
        addObserver 1 1 (ObsProbe 8))
       scalar_store.

(** A collection (location 1) that holds [1], observed by the probes 7
    and 8. *)
Definition observed_collection_store : store :=
  exec (c ← CollectionProperty_new;
        CollectionProperty_add 1 c (VNum 1) ;;
        addObserver 1 c (ObsProbe 7) ;;
        addObserver 1 c (ObsProbe 8))
       initial_store.

(** A root (location 1), under it a resource ["Pol"] (location 2) with one
    link to what advertises ["B"] (location 3), and a construct ["Buck"]
    (location 4) that advertises ["B"]. *)
Definition link_resource_store : store :=
  exec (root ← Root_new;
        r ← Resource_new root "Pol" "T";
        l ← LinkRelationship_new 1 ["B"] None;
        addLink r l ;;
        b ← Construct_new PlainConstruct (Just root) (Just "Buck");
        makeLinkable b ["B"])
       initial_store.

(** A root (location 1), a node ["Nr"] under it (location 2), and a link
    relationship built with that node as its initial value (location 3), as
    in the test 'Derived from Link'. *)
Definition initial_link_store : store :=
  exec (root ← Root_new;
        n ← Construct_new PlainConstruct (Just root) (Just "Nr");
        LinkRelationship_new 1 [] (Some n))
       initial_store.

(** A root (location 1) and under it a resource ["R"] (location 2) whose
    one property ["Config"] (location 3) holds the object
    [{render: 'fast'}]. *)
Definition render_member_store : store :=
  exec (root ← Root_new;
        r ← Resource_new root "R" "T";
        p ← ScalarProperty_new (VObj [("render", VStr "fast")]);
        addProperty r "Config" p)
       initial_store.

(** A root (location 1) and nothing else. *)
Definition root_store : store := exec Root_new initial_store.

(** ** tokens.ts *)

Module Tokens.

(** The values that are given tokens and resolved ([any]): data as a
    document has it, and [undefined]. *)
#[local] Unset Elimination Schemes.
Inductive data : Type :=
| DUndefined
| DNull
| DBool (b : bool)
| DNum (n : Z)
| DStr (s : string)
| DArr (items : list data)
| DObj (fields : list (string * data)).
#[local] Set Elimination Schemes.

(** The state of the module: the map [TOKENS] and the counter [ctr]. *)
Record state : Type := mkState {
  TOKENS : gmap string data;
  ctr : N
}.

(** [TOKENS = new Map()] and [ctr = 1] *)
Definition initial : state := mkState ∅ 1.

(** A counter as a template literal prints it: its decimal digits. *)
Definition decimal (n : N) : string :=
  DecimalString.NilZero.string_of_uint (N.to_uint n).

(** The template literal of [tokenToString], for the counter [n]. *)
Definition token (n : N) : string := "${Token" +:+ decimal n +:+ "}".

(** [ctr++] leaves a number one greater, as long as that number is a
    double: the counter stays at [2^53] once it is there. *)
Definition incr (n : N) : N :=
  if (n <? 2 ^ 53)%N then (n + 1)%N else n.

(** [tokenToString(x)] *)
Definition tokenToString (x : data) (st : state) : string * state :=
  match x with
  | DStr s => (s, st)
  | _ =>
      let t := token (ctr st) in
      (t, mkState (<[t := x]> (TOKENS st)) (incr (ctr st)))
  end.

(** [fromString(x)] *)
Definition fromString (st : state) (x : string) : data :=
  match TOKENS st !! x with
  | Some DUndefined | None => DStr x
  | Some found => found
  end.

(** [deepResolve(x)].  The source maps over [Object.entries(x)]; the values
    are mapped here where they stand and the entries enumerated after, which
    is the same object (see [deepResolve_object] below). *)
Fixpoint deepResolve (st : state) (x : data) : data :=
  match x with
  | DStr s => fromString st s
  | DArr items => DArr (map (deepResolve st) items)
  | DObj fs =>
      DObj (fromEntries
              (entries
                 ((fix resolved (fs : list (string * data)) :=
                     match fs with
                     | [] => []
                     | (k, v) :: fs' => (k, deepResolve st v) :: resolved fs'
                     end) fs)))
  | _ => x
  end.

(** Every registered token was issued by [tokenToString]: it is the token
    of a counter below the current one. *)
Definition issued (st : state) : Prop :=
  ∀ k, is_Some (TOKENS st !! k) → ∃ n, (n < ctr st)%N ∧ k = token n.

(** No string of [x] is registered. *)
Fixpoint token_free (st : state) (x : data) : Prop :=
  match x with
  | DStr s => TOKENS st !! s = None
  | DArr items =>
      (fix all (xs : list data) :=
         match xs with
         | [] => True
         | y :: xs' => token_free st y ∧ all xs'
         end) items
  | DObj fs =>
      (fix all (fs : list (string * data)) :=
         match fs with
         | [] => True
         | (_, v) :: fs' => token_free st v ∧ all fs'
         end) fs
  | _ => True
  end.

(** The objects of [x] have every key once and list their entries in the
    order [Object.entries] gives them, as the objects of the program do. *)
Fixpoint canonical (x : data) : Prop :=
  match x with
  | DArr items =>
      (fix all (xs : list data) :=
         match xs with
         | [] => True
         | y :: xs' => canonical y ∧ all xs'
         end) items
  | DObj fs =>
      NoDup (map fst fs) ∧ entries fs = fs
      ∧ (fix all (fs : list (string * data)) :=
           match fs with
           | [] => True
           | (_, v) :: fs' => canonical v ∧ all fs'
           end) fs
  | _ => True
  end.

End Tokens.

(** ** lens.ts *)

Module Lens.

(** What a lens is applied to and what it sets ([any]): a primitive, or a
    reference to an object.  A lens shares the objects with its caller, so
    they live in a store.  The objects of the store are plain objects, as an
    object literal creates them: extensible, with data properties that can
    be written, and with [Object.prototype] as their prototype.  What is
    frozen or sealed, and what has accessors, is not among them. *)
Inductive lval : Type :=
| LUndefined
| LNull
| LBool (b : bool)
| LNum (n : Z)
| LStr (s : string)
| LRef (l : loc).

(** [ILensOp]: the two closures that [set] and [descend] push. *)
Inductive op : Type :=
| OpSet (key : string) (value : lval)
| OpDescend (key : string).

(** [ApplyContext] *)
Record ApplyContext : Type := mkContext {
  value : lval;
  key : option string
}.

(** The lenses with their [operations], the objects, and the next fresh
    location. *)
Record world : Type := mkWorld {
  lenses : gmap loc (list op);
  objects : gmap loc (obj lval);
  next : loc
}.

Inductive error : Type :=
| ExpectedObjectError   (* 'Expected object in descend() lens, got ...' *)
| TypeError             (* the runtime's: a property set on what is no object *)
| BadReference.         (* a location that holds no object of the expected kind *)

Inductive result (A : Type) : Type :=
| Done (a : A) (w : world)
| Thrown (e : error) (w : world).
Global Arguments Done {A} a w.
Global Arguments Thrown {A} e w.

(** [new Lens()] *)
Definition new (w : world) : result loc :=
  Done (next w) (mkWorld (<[next w := []]> (lenses w)) (objects w) (S (next w))).

(** [this.operations.push(o); return this] *)
Definition push (this : loc) (o : op) (w : world) : result loc :=
  match lenses w !! this with
  | Some ops => Done this (mkWorld (<[this := ops ++ [o]]> (lenses w))
                             (objects w) (next w))
  | None => Thrown BadReference w
  end.

(** [this.set(key, value)] *)
Definition set (this : loc) (k : string) (v : lval) : world → result loc :=
  push this (OpSet k v).

(** [this.descend(key)] *)
Definition descend (this : loc) (k : string) : world → result loc :=
  push this (OpDescend k).

(** [this.addElement()] *)
Definition addElement (this : loc) (w : world) : result loc := Done this w.

(** The key of an operation. *)
Definition op_key (o : op) : string :=
  match o with
  | OpSet k _ => k
  | OpDescend k => k
  end.

(** [op.apply(ctx)].  The module is strict code, so setting a property on
    a primitive throws as it does on [undefined] and [null].  On an object,
    [ctx.value[key] = ...] adds or overwrites an own property.  This is the
    assignment under every key but [__proto__], which reaches the accessor
    of [Object.prototype] and changes the prototype instead: the model does
    not follow prototypes, and what is proved of [op_apply] is proved for
    operations with other keys. *)
Definition op_apply (o : op) (ctx : ApplyContext) (w : world)
    : result ApplyContext :=
  match o with
  | OpSet k v =>
      match value ctx with
      | LRef l =>
          match objects w !! l with
          | Some fs =>
              Done ctx (mkWorld (lenses w) (<[l := JS.set fs k v]> (objects w))
                          (next w))
          | None => Thrown BadReference w
          end
      | _ => Thrown TypeError w
      end
  | OpDescend k =>
      match value ctx with
      | LRef l =>
          match objects w !! l with
          | Some fs =>
              let n := next w in
              Done (mkContext (LRef n) (Some k))
                   (mkWorld (lenses w)
                      (<[n := []]> (<[l := JS.set fs k (LRef n)]> (objects w)))
                      (S n))
          | None => Thrown BadReference w
          end
      | _ => Thrown ExpectedObjectError w
      end
  end.

(** [for (const op of this.operations) { ctx = op.apply(ctx); }] *)
Fixpoint run (ops : list op) (ctx : ApplyContext) (w : world) : result unit :=
  match ops with
  | [] => Done tt w
  | o :: ops' =>
      match op_apply o ctx w with
      | Done ctx' w' => run ops' ctx' w'
      | Thrown e w' => Thrown e w'
      end
  end.

(** [this.apply(value)] *)
Definition apply (this : loc) (v : lval) (w : world) : result unit :=
  match lenses w !! this with
  | Some ops => run ops (mkContext v None) w
  | None => Thrown BadReference w
  end.

(** The calls [calls] made one after the other on the lens [this], each on
    what the call before returned. *)
Fixpoint chain (this : loc) (calls : list op) (w : world) : result loc :=
  match calls with
  | [] => Done this w
  | o :: calls' =>
      match push this o w with
      | Done this' w' => chain this' calls' w'
      | Thrown e w' => Thrown e w'
      end
  end.

(** [x[k1][k2]...], for an object of the store; nothing where a key is
    missing or the value is no object. *)
Fixpoint read (w : world) (x : lval) (path : list string) : option lval :=
  match path with
  | [] => Some x
  | k :: path' =>
      match x with
      | LRef l =>
          match objects w !! l with
          | Some fs =>
              match get fs k with
              | Some y => read w y path'
              | None => None
              end
          | None => None
          end
      | _ => None
      end
  end.

(** The error of an operation applied to what is no object. *)
Definition refusal (o : op) : error :=
  match o with
  | OpSet _ _ => TypeError
  | OpDescend _ => ExpectedObjectError
  end.

Definition is_object (x : lval) : bool :=
  match x with LRef _ => true | _ => false end.

End Lens.

(** An object [{a: 'old'}] (location 0) and a lens (location 1) with the
    operations of [new Lens().descend('a').set('b', 1)]. *)
Definition lens_world : Lens.world :=
  Lens.mkWorld
    {[1 := [Lens.OpDescend "a"; Lens.OpSet "b" (Lens.LNum 1)]]}
    {[0 := [("a", Lens.LStr "old")]]}
    2.

(** ** The link handlers of tokens.ts

    The file [src/cdkv3/tokens.ts] also holds a [Construct] that links
    through handlers: [makeLinkableAs], [makeLinkableTo], [linksTo],
    [linkTo], and the [tryLink] that goes with them.  A [LinkHandler] stands
    here for a callback of a client that only records what it is called
    with. *)

Module LinkHandlers.

Record Construct : Type := mkConstruct {
  linksAs : list string;
  linkHandlers : obj (list nat)          (* Record<string, LinkHandler[]> *)
}.

Record state : Type := mkState {
  constructs : gmap loc Construct;
  calls : list (nat * loc * loc)         (* the handler, [target] and [here] *)
}.

(** [this.makeLinkableAs(...targets)] *)
Definition makeLinkableAs (this : loc) (targets : list string) (st : state)
    : option state :=
  match constructs st !! this with
  | Some c =>
      Some (mkState (<[this := mkConstruct (linksAs c ++ targets) (linkHandlers c)]>
                       (constructs st))
                    (calls st))
  | None => None
  end.

(** [this.linksTo]: [Object.keys(this.linkHandlers)] *)
Definition linksTo (c : Construct) : list string :=
  map fst (entries (linkHandlers c)).

(** One round of the loop of [makeLinkableTo]: an empty array where
    [this.linkHandlers[target]] finds nothing, then the push.  Under the
    name of a member that the handlers inherit from [Object.prototype] the
    lookup finds that member: no array is stored, and the member has no
    [push], so the call is a [TypeError] (no result). *)
Definition add_handler (cb : nat) (hs : obj (list nat)) (target : string)
    : option (obj (list nat)) :=
  let hs' := match get hs target with
             | Some _ => hs
             | None => if inherited target then hs else set hs target []
             end in
  match get hs' target with
  | Some fns => Some (set hs' target (fns ++ [cb]))
  | None => None
  end.

(** The loop of [makeLinkableTo]: the handlers when it ends or throws, and
    whether it ended. *)
Fixpoint add_handlers (cb : nat) (hs : obj (list nat)) (targets : list string)
    : obj (list nat) * bool :=
  match targets with
  | [] => (hs, true)
  | target :: targets' =>
      match add_handler cb hs target with
      | Some hs' => add_handlers cb hs' targets'
      | None => (hs, false)
      end
  end.

(** How a method ends: it returns, or the runtime throws a [TypeError]. *)
Inductive outcome : Type :=
| Returned (st : state)
| TypeError (st : state).

(** [this.makeLinkableTo(targets, cb)] *)
Definition makeLinkableTo (this : loc) (targets : list string) (cb : nat)
    (st : state) : option outcome :=
  match constructs st !! this with
  | Some c =>
      let '(hs, ended) := add_handlers cb (linkHandlers c) targets in
      let st' := mkState (<[this := mkConstruct (linksAs c) hs]> (constructs st))
                         (calls st) in
      Some (if ended then Returned st' else TypeError st')
  | None => None
  end.

(** The calls of [this.linkTo(target)], in order: for every type of
    [target.linksTo], every handler of [this.linkHandlers[type] ?? []]. *)
Definition handler_calls (this target : loc) (c t : Construct)
    : list (nat * loc * loc) :=
  flat_map (λ type, map (λ fn, (fn, target, this))
                        (default [] (get (linkHandlers c) type)))
           (linksTo t).

(** [this.linkTo(target)] *)
Definition linkTo (this target : loc) (st : state) : option state :=
  match constructs st !! this, constructs st !! target with
  | Some c, Some t =>
      Some (mkState (constructs st) (calls st ++ handler_calls this target c t))
  | _, _ => None
  end.

(** [Linkable.tryLink(linkable, target)], for a construct as the linkable *)
Definition tryLink (linkable target : loc) (st : state) : option state :=
  match constructs st !! linkable, constructs st !! target with
  | Some l, Some t =>
      if existsb (includes (linksAs t)) (linksTo l)
      then linkTo linkable target st
      else Some st
  | _, _ => None
  end.

End LinkHandlers.

(** Two constructs without tags and handlers (locations 1 and 2). *)
Definition handlers_state : LinkHandlers.state :=
  LinkHandlers.mkState
    {[1 := LinkHandlers.mkConstruct [] []; 2 := LinkHandlers.mkConstruct [] []]}
    [].

(** A construct without handlers (location 1), and a construct with the
    handler 9 under the type ["T"] (location 2). *)
Definition handlers_mutual : LinkHandlers.state :=
  LinkHandlers.mkState
    {[1 := LinkHandlers.mkConstruct [] [];
      2 := LinkHandlers.mkConstruct [] [("T", [9])]]}
    [].

(** A construct with a handler under the type ["T"] (location 1), and a
    construct that links as ["T"] and has no handlers (location 2). *)
Definition handler_here : LinkHandlers.Construct :=
  LinkHandlers.mkConstruct [] [("T", [7])].

Definition handler_target : LinkHandlers.Construct :=
  LinkHandlers.mkConstruct ["T"] [].

Definition handlers_registered : LinkHandlers.state :=
  LinkHandlers.mkState {[1 := handler_here; 2 := handler_target]} [].

(** * Properties *)

(** ** Objects *)

Section ObjFacts.
Context {V : Type}.
Implicit Types (o : obj V) (k : string) (v : V).

Lemma has_get o k : has o k = true ↔ is_Some (get o k).
Proof.
  unfold has. destruct (get o k) as [v|].
  - split; eauto.
  - split; [done|]. intros [? ?]; done.
Qed.

Lemma has_false_get o k : has o k = false ↔ get o k = None.
Proof. unfold has. destruct (get o k); split; done. Qed.

Lemma set_fresh o k v : get o k = None → set o k v = o ++ [(k, v)].
Proof.
  induction o as [|[k' v'] o IH]; simpl; [done|].
  destruct (String.eqb k' k); [done|]. intros Hn. by rewrite IH.
Qed.

Lemma get_set_eq o k v : get (set o k v) k = Some v.
Proof.
  induction o as [|[k' v'] o IH]; simpl.
  - by rewrite String.eqb_refl.
  - destruct (String.eqb k' k) eqn:E; simpl; rewrite E; done.
Qed.

Lemma get_set_ne o k k' v : k ≠ k' → get (set o k v) k' = get o k'.
Proof.
  intros Hne. induction o as [|[k0 v0] o IH]; simpl.
  - destruct (String.eqb k k') eqn:E; [|done].
    apply String.eqb_eq in E. done.
  - destruct (String.eqb k0 k) eqn:E; simpl.
    + apply String.eqb_eq in E. subst k0.
      destruct (String.eqb k k') eqn:E'; [|done].
      apply String.eqb_eq in E'. done.
    + by rewrite IH.
Qed.
End ObjFacts.

(** ** The monad *)

Lemma bind_Ok {A B} (m : M A) (k : A → M B) st b st' :
  bind m k st = Ok b st' ↔ ∃ a st1, m st = Ok a st1 ∧ k a st1 = Ok b st'.
Proof.
  unfold bind. split.
  - destruct (m st) as [a st1| |]; [eauto|done..].
  - intros (a & st1 & -> & Hk). done.
Qed.

Lemma bind_eq_Ok {A B} (m : M A) (k : A → M B) st a st1 :
  m st = Ok a st1 → bind m k st = k a st1.
Proof. unfold bind. by intros ->. Qed.

Lemma bind_assoc {A B C} (m : M A) (k : A → M B) (k' : B → M C) st :
  bind (bind m k) k' st = bind m (λ a, bind (k a) k') st.
Proof. unfold bind. by destruct (m st). Qed.

Lemma bind_the_observable {B} this o (k : Observable → M B) st :
  observables st !! this = Some o → bind (the_observable this) k st = k o st.
Proof. intros Ho. unfold bind, the_observable. by rewrite Ho. Qed.

Lemma bind_the_construct {B} this c (k : Construct → M B) st :
  constructs st !! this = Some c → bind (the_construct this) k st = k c st.
Proof. intros Hc. unfold bind, the_construct. by rewrite Hc. Qed.

Lemma for_each_app {A} (xs ys : list A) (body : A → M unit) st :
  for_each (xs ++ ys) body st = bind (for_each xs body) (λ _, for_each ys body) st.
Proof.
  revert st. induction xs as [|x xs IH]; intros st; simpl; [reflexivity|].
  unfold bind at 1 3. unfold bind at 1.
  destruct (body x st) as [[] st1| |]; [|done..].
  by rewrite IH.
Qed.

(** A relation that every round of a loop keeps is kept by the loop. *)
Lemma for_each_preserves {A} (R : store → store → Prop) `{!PreOrder R}
    (xs : list A) (body : A → M unit) st st' :
  (∀ x s s', x ∈ xs → body x s = Ok tt s' → R s s') →
  for_each xs body st = Ok tt st' → R st st'.
Proof.
  revert st. induction xs as [|x xs IH]; intros st Hb; simpl.
  - unfold ret. intros [= ->]. reflexivity.
  - intros (a & st1 & H1 & H2)%bind_Ok. destruct a.
    transitivity st1.
    + eapply Hb; [left|done].
    + apply IH; [|done]. intros y s s' Hy. apply Hb. by right.
Qed.

(** ** The construct tree *)

(** C3 (the constructor, at the inputs where the claim fails): with exactly
    one of the scope and the id absent, that is [undefined] as the types of
    the parameters have it and as [Root] passes it, the constructor throws
    nothing and returns the new node.  Only a [null] trips the test. *)
Theorem Construct_new_one_undefined (flds : class_fields) (st : store)
    (k : string) (p : loc) :
  (∃ st', Construct_new flds Undefined (Just k) st = Ok (next st) st'
          ∧ id_of st' (next st) = Just k
          ∧ scope_of st' (next st) = Undefined)
  ∧ (∃ st', Construct_new flds (Just p) Undefined st = Ok (next st) st'
            ∧ id_of st' (next st) = Undefined
            ∧ scope_of st' (next st) = Just p).
Proof.
  split; eexists; (split; [reflexivity|]);
    unfold id_of, scope_of; simpl; rewrite lookup_insert_eq; done.
Qed.

(** What the constructor does do: a root when both are [undefined], and a
    child registered under its id when the scope exists and [children[id]]
    finds nothing, neither a child nor an inherited member. *)
Lemma Construct_new_root (flds : class_fields) (st : store) :
  ∃ st', Construct_new flds Undefined Undefined st = Ok (next st) st'
         ∧ scope_of st' (next st) = Undefined
         ∧ id_of st' (next st) = Undefined.
Proof.
  eexists. split; [reflexivity|].
  unfold id_of, scope_of; simpl; rewrite lookup_insert_eq; done.
Qed.

Lemma Construct_new_child (flds : class_fields) (st : store) (p : loc)
    (k : string) (pc : Construct) :
  constructs st !! p = Some pc →
  p ≠ next st →
  truthy_string k = true →
  (has (children pc) k || inherited k = true →
     ∃ st', Construct_new flds (Just p) (Just k) st = Throw DuplicateIdError st')
  ∧ (has (children pc) k || inherited k = false →
     ∃ st', Construct_new flds (Just p) (Just k) st = Ok (next st) st'
       ∧ children_of st' p = children pc ++ [(k, next st)]
       ∧ scope_of st' (next st) = Just p
       ∧ id_of st' (next st) = Just k).
Proof.
  intros Hp Hne Hk.
  set (st0 := bump (upd_construct (next st)
                      (mkConstruct (Just p) (Just k) [] [] flds) st)).
  assert (Hp' : constructs st0 !! p = Some pc).
  { simpl. by rewrite lookup_insert_ne. }
  assert (Heq : Construct_new flds (Just p) (Just k) st
                = if has (children pc) k || inherited k
                  then Throw DuplicateIdError st0
                  else Ok (next st)
                         (upd_construct p
                            (set_children (set (children pc) k (next st)) pc) st0)).
  { unfold Construct_new, new_construct. unfold bind at 1 2. simpl. rewrite Hk.
    fold st0. rewrite (bind_the_construct _ _ _ _ Hp').
    by destruct (has (children pc) k || inherited k). }
  rewrite Heq. split; intros Hh; rewrite Hh.
  - by eexists.
  - eexists. split; [reflexivity|].
    unfold children_of, scope_of, id_of. simpl.
    rewrite lookup_insert_eq. simpl. rewrite lookup_insert_ne by done.
    rewrite lookup_insert_eq. simpl.
    apply orb_false_iff in Hh as [Hh _].
    apply has_false_get in Hh. by rewrite (set_fresh _ _ _ Hh).
Qed.

Lemma Construct_new_one_null (flds : class_fields) (st : store)
    (k : nullable string) (p : nullable loc) :
  is_null k ≠ is_null p →
  ∃ st', Construct_new flds p k st = Throw InvalidIdentityError st'.
Proof.
  intros Hne. unfold Construct_new, bind, new_construct.
  destruct (Bool.eqb (is_null k) (is_null p)) eqn:E.
  - apply Bool.eqb_prop in E. done.
  - simpl. eauto.
Qed.

Lemma without_child_spec (this : loc) (ch : obj loc) (e : string * loc) :
  e ∈ without_child this ch ↔ e ∈ ch ∧ snd e ≠ this.
Proof. unfold without_child. rewrite list_elem_of_filter. tauto. Qed.

(** C1, as the code has it: [reparentTo] first takes the node out of the
    children of its old scope, the floating scope, and only then looks for a
    child of the destination under the node's id.  When there is one it
    throws [ReparentConflictError]; the node has then already left the
    children of the old scope, its scope reference still names the old scope,
    and every other construct is as before.  When there is none the node is
    added to the children of the destination under its id, at the end, and
    its scope reference names the destination. *)
Theorem reparentTo_floating (st : store) (this newParent : loc)
    (c oc np : Construct) (k : string) :
  constructs st !! this = Some c →
  _scope c = Just Scope.FLOATING →
  id c = Just k →
  truthy_string k = true →
  constructs st !! Scope.FLOATING = Some oc →
  constructs st !! newParent = Some np →
  let dest := destination_children st this Scope.FLOATING newParent in
  (has dest k = true →
     ∃ st', reparentTo this newParent st = Throw ReparentConflictError st'
       ∧ scope_of st' this = Just Scope.FLOATING
       ∧ children_of st' Scope.FLOATING = without_child this (children oc)
       ∧ children_of st' newParent = dest
       ∧ ∀ l, l ≠ Scope.FLOATING → constructs st' !! l = constructs st !! l)
  ∧ (has dest k = false →
     ∃ st', reparentTo this newParent st = Ok tt st'
       ∧ scope_of st' this = Just newParent
       ∧ children_of st' newParent = dest ++ [(k, this)]
       ∧ (newParent ≠ Scope.FLOATING →
            children_of st' Scope.FLOATING = without_child this (children oc))
       ∧ ∀ l, l ≠ Scope.FLOATING → l ≠ this → l ≠ newParent →
            constructs st' !! l = constructs st !! l).
Proof.
  intros Hc Hs Hi Hk Ho Hn dest.
  assert (Hdest : dest = children_of
            (upd_construct Scope.FLOATING
               (set_children (without_child this (children oc)) oc) st) newParent).
  { unfold dest, destination_children, children_of. simpl.
    rewrite lookup_insert. destruct (decide (newParent = Scope.FLOATING)) as [->|].
    - rewrite Ho. by rewrite decide_True.
    - rewrite decide_False by done. by rewrite Hn. }
  clearbody dest. subst dest.
  set (oc' := set_children (without_child this (children oc)) oc) in *.
  destruct (<[Scope.FLOATING:=oc']> (constructs st) !! newParent)
    as [np1|] eqn:E1.
  2:{ rewrite lookup_insert in E1. case_decide; congruence. }
  assert (Hd : children_of (upd_construct Scope.FLOATING oc' st) newParent
               = children np1).
  { unfold children_of. simpl. by rewrite E1. }
  rewrite Hd. clear Hd.
  unfold reparentTo, bind, the_construct, modify, throw, ret.
  rewrite Hc, Hs, Hi, Hk, Ho. simpl. fold oc'. rewrite E1.
  split; intros Hh; rewrite Hh.
  - eexists. split; [reflexivity|]. unfold scope_of, children_of; simpl.
    rewrite E1. rewrite lookup_insert_eq. simpl. repeat split; try done.
    + rewrite lookup_insert. case_decide; simpl; [congruence | by rewrite Hc].
    + intros l Hl. by rewrite lookup_insert_ne.
  - destruct (<[Scope.FLOATING:=oc']> (constructs st) !! this) as [c1|] eqn:E2.
    2:{ rewrite lookup_insert in E2. case_decide; congruence. }
    destruct (<[this:=set_scope (Just newParent) c1]>
                (<[Scope.FLOATING:=oc']> (constructs st)) !! newParent)
      as [np2|] eqn:E3.
    2:{ rewrite lookup_insert in E3. case_decide; congruence. }
    simpl. rewrite E2. simpl. rewrite E3.
    eexists. split; [reflexivity|]. unfold scope_of, children_of; simpl.
    rewrite lookup_insert_eq. simpl.
    assert (Hch : children np2 = children np1).
    { rewrite lookup_insert in E3. case_decide.
      - subst this. rewrite E1 in E2. by simplify_eq.
      - congruence. }
    assert (Hsc : this = newParent → _scope np2 = Just newParent).
    { intros ->. rewrite lookup_insert_eq in E3. by simplify_eq. }
    rewrite Hch. apply has_false_get in Hh. rewrite (set_fresh _ _ _ Hh).
    repeat split; try done.
    + rewrite lookup_insert. case_decide; simpl; [subst; by apply Hsc|].
      by rewrite lookup_insert_eq.
    + intros Hne. rewrite lookup_insert_ne by done.
      rewrite lookup_insert. case_decide.
      * subst this. simpl. rewrite lookup_insert_eq in E2. by simplify_eq.
      * by rewrite lookup_insert_eq.
    + intros l H1 H2 H3. by rewrite !lookup_insert_ne.
Qed.

(** C1, where the claim fails: the floating node 3 is a child of the floating
    scope, the destination 1 has a child ["x"] already; [reparentTo] throws
    [ReparentConflictError] and leaves a store in which the floating scope
    has lost the node, so the failure is not atomic. *)
Lemma reparentTo_conflict_detaches :
  children_of conflict_store Scope.FLOATING = [("x", 3)]
  ∧ scope_of conflict_store 3 = Just Scope.FLOATING
  ∧ children_of conflict_store 1 = [("x", 2)]
  ∧ ∃ st', reparentTo 3 1 conflict_store = Throw ReparentConflictError st'
      ∧ children_of st' Scope.FLOATING = []
      ∧ scope_of st' 3 = Just Scope.FLOATING.
Proof.
  repeat split; try reflexivity.
  eexists. repeat split; reflexivity.
Qed.

(** The theorem at the conflict of [conflict_store]. *)
Lemma reparentTo_floating_witness :
  ∃ st', reparentTo 3 1 conflict_store = Throw ReparentConflictError st'
    ∧ scope_of st' 3 = Just Scope.FLOATING
    ∧ children_of st' Scope.FLOATING = []
    ∧ children_of st' 1 = [("x", 2)]
    ∧ ∀ l, l ≠ Scope.FLOATING →
        constructs st' !! l = constructs conflict_store !! l.
Proof.
  edestruct (reparentTo_floating conflict_store 3 1) as [H _];
    [reflexivity..|].
  exact (H eq_refl).
Defined.

(** ** Observers *)

#[global] Instance same_kind_refl : Reflexive same_kind.
Proof. intros [? ?|? ?|? ? ?]; simpl; done. Qed.

#[global] Instance same_kind_trans : Transitive same_kind.
Proof.
  intros [? ?|? ?|? ? ?] [? ?|? ?|? ? ?] [? ?|? ?|? ? ?]; simpl; congruence.
Qed.

#[global] Instance evolves_preorder : PreOrder evolves.
Proof.
  split.
  - intros st. split; try done.
    exists []. by rewrite app_nil_r.
  - intros s1 s2 s3 [Hc1 Hn1 [e1 He1] Ho1] [Hc2 Hn2 [e2 He2] Ho2].
    split; try congruence.
    + exists (e1 ++ e2). rewrite He2, He1. by rewrite app_assoc.
    + intros l. specialize (Ho1 l). specialize (Ho2 l).
      destruct Ho1 as [o1 o2 H12|]; inversion Ho2; subst; constructor.
      by transitivity o2.
Qed.

Lemma same_kind_observers o o' : same_kind o o' → observers_of o' = observers_of o.
Proof. destruct o, o'; simpl; congruence. Qed.

Lemma evolves_log tag x st : evolves st (log tag x st).
Proof.
  split; try done. by eexists.
Qed.

Lemma evolves_write_scalar this x st st' :
  write_scalar this x st = Ok tt st' → evolves st st'.
Proof.
  unfold write_scalar, bind, the_observable.
  destruct (observables st !! this) as [[v obs| |]|] eqn:E; try done.
  unfold modify. intros [= <-]. split; try done.
  - exists []. by rewrite app_nil_r.
  - intros l. simpl. rewrite lookup_insert. case_decide.
    + subst l. rewrite E. by constructor.
    + destruct (observables st !! l); constructor. reflexivity.
Qed.

Lemma write_scalar_Ok this x st v obs :
  observables st !! this = Some (ScalarProperty v obs) →
  write_scalar this x st = Ok tt (upd_observable this (ScalarProperty x obs) st).
Proof. intros Ho. unfold write_scalar. by rewrite (bind_the_observable _ _ _ _ Ho). Qed.

Lemma fire_S fuel this x :
  fire (S fuel) this x
  = (o ← the_observable this;
     for_each (observers_of o)
       (λ obs, call_observer (ScalarProperty_set fuel) obs x))%js.
Proof. reflexivity. Qed.

Lemma evolves_fire fuel this x st st' :
  fire fuel this x st = Ok tt st' → evolves st st'.
Proof.
  revert this x st st'. induction fuel as [|fuel IH]; intros this x st st'.
  - done.
  - rewrite fire_S. intros (o & st1 & Ho & Hf)%bind_Ok.
    assert (st1 = st) as ->.
    { unfold the_observable in Ho. destruct (observables st !! this); by simplify_eq. }
    eapply (for_each_preserves evolves); [|exact Hf].
    intros [self tx|tag] s s' _; simpl.
    + unfold ScalarProperty_set. intros ([] & s1 & Hw & Hfire)%bind_Ok.
      transitivity s1; [by eapply evolves_write_scalar | by eapply IH].
    + unfold modify. intros [= <-]. apply evolves_log.
Qed.

Lemma evolves_call_observer fuel obs x st st' :
  call_observer (ScalarProperty_set fuel) obs x st = Ok tt st' → evolves st st'.
Proof.
  destruct obs as [self tx|tag]; simpl.
  - unfold ScalarProperty_set. intros ([] & s1 & Hw & Hfire)%bind_Ok.
    transitivity s1; [by eapply evolves_write_scalar | by eapply evolves_fire].
  - unfold modify. intros [= <-]. apply evolves_log.
Qed.

(** An object that is not a scalar is not touched. *)
Lemma evolves_link st st' l targets v obs :
  evolves st st' →
  observables st !! l = Some (LinkRelationship targets v obs) →
  observables st' !! l = Some (LinkRelationship targets v obs).
Proof.
  intros [_ _ _ Ho] E. specialize (Ho l). rewrite E in Ho.
  inversion Ho as [o1 o2 Hk|]; subst. simpl in Hk. by subst.
Qed.

Lemma evolves_collection st st' l items obs :
  evolves st st' →
  observables st !! l = Some (CollectionProperty items obs) →
  observables st' !! l = Some (CollectionProperty items obs).
Proof.
  intros [_ _ _ Ho] E. specialize (Ho l). rewrite E in Ho.
  inversion Ho as [o1 o2 Hk|]; subst. simpl in Hk. by subst.
Qed.

Lemma evolves_scalar st st' l v obs :
  evolves st st' →
  observables st !! l = Some (ScalarProperty v obs) →
  ∃ v', observables st' !! l = Some (ScalarProperty v' obs).
Proof.
  intros [_ _ _ Ho] E. specialize (Ho l). rewrite E in Ho.
  inversion Ho as [o1 o2 Hk|]; subst. destruct o2; simpl in Hk; try done.
  subst. eauto.
Qed.

Lemma evolves_wf st st' : evolves st st' → wf_observers st → wf_observers st'.
Proof.
  intros Hev Hwf l o' self tx Hl Hin.
  pose proof (ev_observables _ _ Hev l) as Hol. rewrite Hl in Hol.
  inversion Hol as [o o2 Hk Ho|]; subst.
  destruct (Hwf l o self tx) as (H1 & H2 & v & obs & H3); [done| |].
  { by rewrite <- (same_kind_observers o o'). }
  split; [done|]. split; [by rewrite (ev_next _ _ Hev)|].
  destruct (evolves_scalar _ _ _ _ _ Hev H3) as [v' Hv']. eauto.
Qed.

(** ** The linkable protocol *)

Lemma includes_elem_of (xs : list string) (t : string) :
  includes xs t = true ↔ t ∈ xs.
Proof.
  unfold includes. rewrite existsb_exists. split.
  - intros (x & Hx & ->%String.eqb_eq). by apply list_elem_of_In.
  - intros Ht. exists t. split; [by apply list_elem_of_In | apply String.eqb_refl].
Qed.

Lemma matches_spec {L} `{ILinkable L} (linkable : L) (target : Construct) :
  matches linkable target = true
  ↔ ∃ t, t ∈ linkTargets linkable ∧ t ∈ linkableTargets target.
Proof.
  unfold matches. rewrite existsb_exists. split.
  - intros (t & Ht & Hi). exists t. split; [by apply list_elem_of_In|].
    by apply includes_elem_of.
  - intros (t & Ht & Hi). exists t. split; [by apply list_elem_of_In|].
    by apply includes_elem_of.
Qed.

(** C4: [tryLink] is the attach operation of the linkable exactly when the
    tags the linkable targets and the tags the node advertises have a tag in
    common; when they have none it returns at once and the store, the node
    in it included, is the one it was given. *)
Theorem tryLink_attaches_iff_tags_meet {L} `{ILinkable L} (fuel : nat)
    (linkable : L) (node : loc) (c : Construct) (st : store) :
  constructs st !! node = Some c →
  ((∃ t, t ∈ linkTargets linkable ∧ t ∈ linkableTargets c) →
     tryLink fuel linkable node st = linkTo fuel linkable node st)
  ∧ (¬ (∃ t, t ∈ linkTargets linkable ∧ t ∈ linkableTargets c) →
     tryLink fuel linkable node st = Ok tt st).
Proof.
  intros Hc. unfold tryLink, bind, the_construct. rewrite Hc.
  split; intros Hm.
  - apply matches_spec in Hm. by rewrite Hm.
  - destruct (matches linkable c) eqn:E; [|done].
    apply matches_spec in E. done.
Qed.

(** ** Notification *)

(** Whatever a loop over observers does, the probes among them are called
    with [x], in registration order. *)
Lemma for_each_observers_trace fuel (obs : list observer) x st st' :
  for_each obs (λ o, call_observer (ScalarProperty_set fuel) o x) st = Ok tt st' →
  ∃ evs, trace st' = trace st ++ evs
         ∧ ((λ tag, (tag, x)) <$> probes obs) `sublist_of` evs.
Proof.
  revert st. induction obs as [|o obs IH]; intros st; simpl.
  - unfold ret. intros [= <-]. exists []. split; [by rewrite app_nil_r | done].
  - intros ([] & s1 & H1 & H2)%bind_Ok.
    destruct (IH _ H2) as (e2 & He2 & Hsub).
    destruct o as [self tx|tag].
    + apply evolves_call_observer in H1 as [_ _ [e1 He1] _].
      exists (e1 ++ e2). split.
      * rewrite He2, He1. by rewrite app_assoc.
      * unfold probes. simpl. by apply sublist_inserts_l.
    + simpl in H1. unfold modify in H1. injection H1 as <-.
      exists ((tag, x) :: e2). split.
      * rewrite He2. simpl. by rewrite <- app_assoc.
      * unfold probes. simpl. by apply sublist_skip.
Qed.

Lemma fire_notifies fuel this x st st' o :
  observables st !! this = Some o →
  fire fuel this x st = Ok tt st' →
  ∃ evs, trace st' = trace st ++ evs
         ∧ ((λ tag, (tag, x)) <$> probes (observers_of o)) `sublist_of` evs.
Proof.
  intros Ho. destruct fuel as [|fuel]; [done|].
  rewrite fire_S, (bind_the_observable _ _ _ _ Ho).
  apply for_each_observers_trace.
Qed.

(** With the observers well formed, firing returns once the fuel covers the
    locations above the one that fires. *)
Lemma fire_returns fuel : ∀ this x st,
  wf_observers st →
  is_Some (observables st !! this) →
  this < next st →
  next st ≤ fuel + this →
  ∃ st', fire fuel this x st = Ok tt st'.
Proof.
  induction fuel as [|fuel IH]; intros this x st Hwf [o Ho] Hlt Hfuel; [lia|].
  rewrite fire_S, (bind_the_observable _ _ _ _ Ho).
  assert (Hobs : ∀ self tx, ObsDerived self tx ∈ observers_of o →
            this < self ∧ self < next st
            ∧ ∃ v obs, observables st !! self = Some (ScalarProperty v obs))
    by (intros; by eapply Hwf).
  cut (∀ obs s, evolves st s →
         (∀ self tx, ObsDerived self tx ∈ obs →
            this < self ∧ self < next st
            ∧ ∃ v obs', observables st !! self = Some (ScalarProperty v obs')) →
         ∃ st', for_each obs
                  (λ ob, call_observer (ScalarProperty_set fuel) ob x) s
                = Ok tt st').
  { intros Hcut. by apply Hcut. }
  clear Hobs. induction obs as [|ob obs IHobs]; intros s Hev Hobs; simpl.
  - by eexists.
  - assert (∃ s1, call_observer (ScalarProperty_set fuel) ob x s = Ok tt s1)
      as [s1 H1].
    { destruct ob as [self tx|tag]; simpl; [|by eexists].
      destruct (Hobs self tx) as (H1 & H2 & v & obs' & H3); [left|].
      destruct (evolves_scalar _ _ _ _ _ Hev H3) as [v' Hv'].
      unfold ScalarProperty_set.
      rewrite (bind_eq_Ok _ _ _ _ _ (write_scalar_Ok _ (tx x) _ _ _ Hv')).
      apply IH.
      - eapply evolves_wf; [|exact Hwf]. etransitivity; [exact Hev|].
        eapply (evolves_write_scalar self (tx x)). by eapply write_scalar_Ok.
      - simpl. rewrite lookup_insert_eq. eauto.
      - simpl. rewrite (ev_next _ _ Hev). done.
      - simpl. rewrite (ev_next _ _ Hev). lia. }
    rewrite (bind_eq_Ok _ _ _ _ _ H1).
    apply IHobs.
    + etransitivity; [exact Hev|]. by eapply evolves_call_observer.
    + intros self tx Hin. apply (Hobs self tx). by right.
Qed.

(** Registering an observer, and what a probe then sees. *)
Lemma Observable_addObserver_Ok this ob o st :
  observables st !! this = Some o →
  Observable_addObserver this ob st
  = Ok tt (upd_observable this (with_observers o (observers_of o ++ [ob])) st).
Proof.
  intros Ho. unfold Observable_addObserver.
  by rewrite (bind_the_observable _ _ _ _ Ho).
Qed.

Lemma notify_current_eq fuel this ob o st :
  observables st !! this = Some o →
  notify_current fuel this ob st
  = if defined (value_of o)
    then call_observer (ScalarProperty_set fuel) ob (value_of o) st
    else Ok tt st.
Proof.
  intros Ho. unfold notify_current. rewrite (bind_the_observable _ _ _ _ Ho).
  by destruct (defined (value_of o)).
Qed.

Lemma notify_current_probe fuel this tag o st :
  observables st !! this = Some o →
  notify_current fuel this (ObsProbe tag) st
  = Ok tt (if defined (value_of o) then log tag (value_of o) st else st).
Proof.
  intros Ho. unfold notify_current. rewrite (bind_the_observable _ _ _ _ Ho).
  by destruct (defined (value_of o)).
Qed.

Lemma value_of_with_observers o obs :
  value_of (with_observers o obs) = value_of o.
Proof. by destruct o as [| |? []]. Qed.

(** [Observable.addObserver] followed by one check of the current value:
    the body of [Property.addObserver] and of
    [LinkRelationship.addObserver]. *)
Lemma subscribe_probe fuel this tag o st :
  observables st !! this = Some o →
  bind (Observable_addObserver this (ObsProbe tag))
       (λ _, notify_current fuel this (ObsProbe tag)) st
  = Ok tt
      (let st1 := upd_observable this
                    (with_observers o (observers_of o ++ [ObsProbe tag])) st in
       if defined (value_of o) then log tag (value_of o) st1 else st1).
Proof.
  intros Ho.
  rewrite (bind_eq_Ok _ _ _ _ _ (Observable_addObserver_Ok _ _ _ _ Ho)).
  erewrite notify_current_probe; [|simpl; apply lookup_insert_eq].
  by rewrite value_of_with_observers.
Qed.

(** C10: what subscribing does at once.  On a collection the observer is
    called twice with the current contents, empty or not: a probe sees them
    twice, and any observer is run twice.  On a scalar and on a link
    relationship the observer is called once when a value is present and
    not at all otherwise.  In each case the observer is registered last. *)
Theorem addObserver_immediate_notifications (fuel : nat) (this : loc)
    (tag : nat) (st : store) :
  (∀ items obs,
     observables st !! this = Some (CollectionProperty items obs) →
     ∃ st', addObserver fuel this (ObsProbe tag) st = Ok tt st'
       ∧ trace st' = trace st ++ [(tag, VArr items); (tag, VArr items)]
       ∧ observables st' !! this
         = Some (CollectionProperty items (obs ++ [ObsProbe tag])))
  ∧ (∀ v obs,
     observables st !! this = Some (ScalarProperty v obs) →
     ∃ st', addObserver fuel this (ObsProbe tag) st = Ok tt st'
       ∧ trace st' = trace st ++ (if defined v then [(tag, v)] else [])
       ∧ observables st' !! this
         = Some (ScalarProperty v (obs ++ [ObsProbe tag])))
  ∧ (∀ targets v obs,
     observables st !! this = Some (LinkRelationship targets v obs) →
     ∃ st', addObserver fuel this (ObsProbe tag) st = Ok tt st'
       ∧ trace st' = trace st ++ match v with
                                 | Some x => [(tag, VConstruct x)]
                                 | None => []
                                 end
       ∧ observables st' !! this
         = Some (LinkRelationship targets v (obs ++ [ObsProbe tag])))
  ∧ (∀ ob items obs,
     observables st !! this = Some (CollectionProperty items obs) →
     addObserver fuel this ob st
     = (Observable_addObserver this ob ;;
        call_observer (ScalarProperty_set fuel) ob (VArr items) ;;
        call_observer (ScalarProperty_set fuel) ob (VArr items))%js st)
  ∧ (∀ ob o,
     observables st !! this = Some o →
     (∀ items obs, o ≠ CollectionProperty items obs) →
     addObserver fuel this ob st
     = (Observable_addObserver this ob ;;
        if defined (value_of o)
        then call_observer (ScalarProperty_set fuel) ob (value_of o)
        else ret tt)%js st).
Proof.
  split; [|split; [|split; [|split]]].
  - intros items obs Ho. unfold addObserver.
    rewrite (bind_the_observable _ _ _ _ Ho).
    unfold CollectionProperty_addObserver, Property_addObserver.
    rewrite (bind_eq_Ok _ _ _ _ _ (subscribe_probe fuel _ tag _ _ Ho)).
    erewrite notify_current_probe; [|simpl; apply lookup_insert_eq].
    simpl. eexists. split; [reflexivity|]. simpl.
    split; [by rewrite <- app_assoc | apply lookup_insert_eq].
  - intros v obs Ho. unfold addObserver.
    rewrite (bind_the_observable _ _ _ _ Ho).
    unfold Property_addObserver. rewrite (subscribe_probe fuel _ tag _ _ Ho).
    simpl. eexists. split; [reflexivity|].
    destruct (defined v); simpl; (split; [|apply lookup_insert_eq]); [done|].
    by rewrite app_nil_r.
  - intros targets v obs Ho. unfold addObserver.
    rewrite (bind_the_observable _ _ _ _ Ho).
    unfold LinkRelationship_addObserver.
    rewrite (subscribe_probe fuel _ tag _ _ Ho).
    simpl. eexists. split; [reflexivity|].
    destruct v; simpl; (split; [|apply lookup_insert_eq]); [done|].
    by rewrite app_nil_r.
  - intros ob items obs Ho. unfold addObserver.
    rewrite (bind_the_observable _ _ _ _ Ho).
    unfold CollectionProperty_addObserver, Property_addObserver.
    pose proof (Observable_addObserver_Ok this ob _ st Ho) as Hreg.
    simpl in Hreg.
    set (st1 := upd_observable this (CollectionProperty items (obs ++ [ob])) st)
      in *.
    assert (H1 : observables st1 !! this
                 = Some (CollectionProperty items (obs ++ [ob])))
      by apply lookup_insert_eq.
    rewrite bind_assoc, !(bind_eq_Ok _ _ _ _ _ Hreg).
    unfold bind. rewrite (notify_current_eq _ _ _ _ _ H1). simpl.
    destruct (call_observer (ScalarProperty_set fuel) ob (VArr items) st1)
      as [[] st2| |] eqn:Ecall; [|done..].
    apply evolves_call_observer in Ecall.
    pose proof (evolves_collection _ _ _ _ _ Ecall H1) as H2.
    by rewrite (notify_current_eq _ _ _ _ _ H2).
  - intros ob o Ho Hnc. unfold addObserver.
    rewrite (bind_the_observable _ _ _ _ Ho).
    pose proof (Observable_addObserver_Ok this ob _ st Ho) as Hreg.
    assert (H1 : observables
                   (upd_observable this
                      (with_observers o (observers_of o ++ [ob])) st) !! this
                 = Some (with_observers o (observers_of o ++ [ob])))
      by apply lookup_insert_eq.
    destruct o as [v obs|items obs|targets v obs].
    + unfold Property_addObserver. rewrite !(bind_eq_Ok _ _ _ _ _ Hreg).
      rewrite (notify_current_eq _ _ _ _ _ H1), value_of_with_observers.
      by destruct (defined _).
    + by destruct (Hnc items obs).
    + unfold LinkRelationship_addObserver. rewrite !(bind_eq_Ok _ _ _ _ _ Hreg).
      rewrite (notify_current_eq _ _ _ _ _ H1), value_of_with_observers.
      by destruct (defined _).
Qed.

(** C5: a link relationship is set once.  A [set] that returns has stored
    the node and has called every observer with it before returning, the
    probes in registration order; from then on every [set] throws
    [AlreadyLinkedError] and leaves the store, the stored node included, as
    it is, and a probe that subscribes is called at once with the stored
    node.  On a link without a value, in a store whose observers are well
    formed, [set] does return. *)
Theorem LinkRelationship_set_once (fuel : nat) (this x : loc) (st : store) :
  (∀ st1,
     LinkRelationship_set fuel this x st = Ok tt st1 →
     ∃ targets obs,
       observables st !! this = Some (LinkRelationship targets None obs)
       ∧ observables st1 !! this = Some (LinkRelationship targets (Some x) obs)
       ∧ (∃ evs, trace st1 = trace st ++ evs
            ∧ ((λ tag, (tag, VConstruct x)) <$> probes obs) `sublist_of` evs)
       ∧ (∀ fuel' y,
            LinkRelationship_set fuel' this y st1 = Throw AlreadyLinkedError st1)
       ∧ (∀ fuel' tag,
            ∃ st2, LinkRelationship_addObserver fuel' this (ObsProbe tag) st1
                   = Ok tt st2
              ∧ trace st2 = trace st1 ++ [(tag, VConstruct x)]))
  ∧ (∀ targets obs,
       observables st !! this = Some (LinkRelationship targets None obs) →
       wf_observers st → this < next st → next st ≤ fuel + this →
       ∃ st1, LinkRelationship_set fuel this x st = Ok tt st1).
Proof.
  split.
  - intros st1 Hset. unfold LinkRelationship_set in Hset.
    apply bind_Ok in Hset as (o & s & Ho & Hset).
    unfold the_observable in Ho.
    destruct (observables st !! this) as [o'|] eqn:E; [|done].
    injection Ho as -> ->.
    destruct o as [| |targets [y|] obs]; try done.
    apply bind_Ok in Hset as ([] & s1 & Hm & Hfire).
    unfold modify in Hm. injection Hm as <-.
    exists targets, obs. split; [done|].
    assert (Hst1 : observables st1 !! this
                   = Some (LinkRelationship targets (Some x) obs)).
    { eapply evolves_link; [by eapply evolves_fire|].
      simpl. apply lookup_insert_eq. }
    split; [done|]. split; [|split].
    + eapply (fire_notifies _ _ _ _ _ (LinkRelationship targets (Some x) obs))
        in Hfire; [done|]. simpl. apply lookup_insert_eq.
    + intros fuel' y. unfold LinkRelationship_set.
      by rewrite (bind_the_observable _ _ _ _ Hst1).
    + intros fuel' tag. unfold LinkRelationship_addObserver.
      rewrite (subscribe_probe fuel' _ tag _ _ Hst1).
      simpl. eexists. split; reflexivity.
  - intros targets obs Ho Hwf Hlt Hfuel. unfold LinkRelationship_set.
    rewrite (bind_the_observable _ _ _ _ Ho).
    unfold bind at 1. unfold modify.
    apply fire_returns; simpl; [|rewrite lookup_insert_eq; eauto|done..].
    intros l o self tx. simpl. rewrite lookup_insert. case_decide.
    + subst l. intros [= <-] Hin.
      destruct (Hwf this _ self tx Ho Hin) as (H1 & H2 & v & obs' & H3).
      split; [done|]. split; [done|]. exists v, obs'.
      rewrite lookup_insert_ne by lia. done.
    + intros Hl Hin.
      destruct (Hwf l _ self tx Hl Hin) as (H1 & H2 & v & obs' & H3).
      split; [done|]. split; [done|].
      rewrite lookup_insert. case_decide; [|eauto].
      subst self. rewrite Ho in H3. done.
Qed.

Lemma wf_observers_check_sound st :
  wf_observers_check st = true → wf_observers st.
Proof.
  unfold wf_observers_check. rewrite forallb_forall.
  intros Hall l o self tx Hl Hin.
  specialize (Hall (l, o)). simpl in Hall.
  rewrite forallb_forall in Hall.
  assert (Hok : observer_ok st l (ObsDerived self tx) = true).
  { apply Hall.
    - apply list_elem_of_In. by apply elem_of_map_to_list.
    - by apply list_elem_of_In. }
  simpl in Hok. apply andb_prop in Hok as [Hok H3].
  apply andb_prop in Hok as [H1 H2].
  apply Nat.ltb_lt in H1. apply Nat.ltb_lt in H2.
  split; [done|]. split; [done|].
  unfold is_scalar_at in H3.
  destruct (observables st !! self) as [[v obs| |]|]; try done. eauto.
Qed.

(** ** Derived properties *)

Lemma evolves_observers st st' l o' :
  evolves st st' →
  observables st' !! l = Some o' →
  ∃ o, observables st !! l = Some o ∧ observers_of o = observers_of o'.
Proof.
  intros Hev Hl. pose proof (ev_observables _ _ Hev l) as Hol.
  rewrite Hl in Hol. inversion Hol as [o o2 Hk Ho|]; subst.
  exists o. split; [done|]. symmetry. by apply same_kind_observers.
Qed.

Lemma no_target_from_evolves st st' l d :
  evolves st st' → no_target_from st l d → no_target_from st' l d.
Proof.
  intros Hev Hno l' o' self tx Hle Hl Hin.
  destruct (evolves_observers _ _ _ _ Hev Hl) as (o & Ho & Hobs).
  eapply (Hno l' o self tx); [done..|]. by rewrite Hobs.
Qed.

Lemma no_target_from_mono st l l' d :
  l ≤ l' → no_target_from st l d → no_target_from st l' d.
Proof. intros Hle Hno l2 o self tx Hl2. apply Hno. lia. Qed.

(** Firing at [l] leaves alone every object that no observer at or above
    [l] sets. *)
Lemma fire_frame fuel : ∀ l x st st' d,
  wf_observers st →
  no_target_from st l d →
  fire fuel l x st = Ok tt st' →
  observables st' !! d = observables st !! d.
Proof.
  induction fuel as [|fuel IH]; intros l x st st' d Hwf Hno; [done|].
  rewrite fire_S. intros (o & s0 & Ho & Hf)%bind_Ok.
  unfold the_observable in Ho.
  destruct (observables st !! l) as [o'|] eqn:El; [|done].
  injection Ho as -> <-.
  cut (∀ obs s s',
         (∀ ob, ob ∈ obs → ob ∈ observers_of o) →
         evolves st s →
         for_each obs (λ ob, call_observer (ScalarProperty_set fuel) ob x) s
         = Ok tt s' →
         observables s' !! d = observables s !! d).
  { intros Hcut. eapply Hcut; [|reflexivity|exact Hf]. done. }
  clear Hf st'. induction obs as [|ob obs IHobs]; intros s s' Hsub Hev; simpl.
  - unfold ret. by intros [= <-].
  - intros ([] & s1 & H1 & H2)%bind_Ok.
    transitivity (observables s1 !! d).
    + apply (IHobs s1 s'); [|etransitivity; [exact Hev|]|done].
      * intros ob' Hob'. apply Hsub. by right.
      * by eapply evolves_call_observer.
    + assert (Hin : ob ∈ observers_of o) by (apply Hsub; left).
      destruct ob as [self tx|tag]; simpl in H1.
      * destruct (Hwf l o self tx El Hin) as (Hlt & _ & _).
        assert (Hne : self ≠ d) by (eapply (Hno l o self tx); done).
        unfold ScalarProperty_set in H1.
        apply bind_Ok in H1 as ([] & s2 & Hw & Hfire).
        assert (Hev2 : evolves s s2) by (by eapply evolves_write_scalar).
        transitivity (observables s2 !! d).
        -- eapply (IH self); [| |exact Hfire].
           ++ eapply evolves_wf; [|exact Hwf]. by etransitivity.
           ++ eapply (no_target_from_evolves st); [by etransitivity|].
              eapply no_target_from_mono; [|exact Hno]. lia.
        -- unfold write_scalar in Hw.
           apply bind_Ok in Hw as (os & s3 & Hos & Hw).
           unfold the_observable in Hos.
           destruct (observables s !! self); [|done]. injection Hos as -> <-.
           destruct os; try done. unfold modify in Hw. injection Hw as <-.
           simpl. by rewrite lookup_insert_ne.
      * unfold modify in H1. by injection H1 as <-.
Qed.

(** A loop over observers that all set objects above [l], none of them [d],
    leaves [d] alone when nothing above [l] sets [d]. *)
Lemma for_each_observers_frame fuel x l d (obs : list observer) : ∀ s s',
  wf_observers s →
  (∀ self tx, ObsDerived self tx ∈ obs → l < self ∧ self ≠ d) →
  no_target_from s (S l) d →
  for_each obs (λ ob, call_observer (ScalarProperty_set fuel) ob x) s = Ok tt s' →
  observables s' !! d = observables s !! d.
Proof.
  induction obs as [|ob obs IHobs]; intros s s' Hwf Hobs Hno; simpl.
  - unfold ret. by intros [= <-].
  - intros ([] & s1 & H1 & H2)%bind_Ok.
    assert (Hev : evolves s s1) by (by eapply evolves_call_observer).
    transitivity (observables s1 !! d).
    + apply IHobs; [by eapply evolves_wf| |by eapply no_target_from_evolves|done].
      intros self tx Hin. apply (Hobs self tx). by right.
    + destruct ob as [self tx|tag]; simpl in H1.
      * destruct (Hobs self tx) as [Hlt Hne]; [left|].
        unfold ScalarProperty_set in H1.
        apply bind_Ok in H1 as ([] & s2 & Hw & Hfire).
        assert (Hev2 : evolves s s2) by (by eapply evolves_write_scalar).
        transitivity (observables s2 !! d).
        -- eapply (fire_frame fuel self); [| |exact Hfire].
           ++ by eapply evolves_wf.
           ++ eapply (no_target_from_evolves s); [done|].
              eapply no_target_from_mono; [|exact Hno]. lia.
        -- unfold write_scalar in Hw.
           apply bind_Ok in Hw as (os & s3 & Hos & Hw).
           unfold the_observable in Hos.
           destruct (observables s !! self); [|done]. injection Hos as -> <-.
           destruct os; try done. unfold modify in Hw. injection Hw as <-.
           simpl. by rewrite lookup_insert_ne.
      * unfold modify in H1. by injection H1 as <-.
Qed.

Lemma derived_from_evolves st st' s d f :
  evolves st st' → derived_from st s d f → derived_from st' s d f.
Proof.
  intros Hev [Hwf (v & pre & post & Hs & Hpp) Honly Hd]. split.
  - by eapply evolves_wf.
  - destruct (evolves_scalar _ _ _ _ _ Hev Hs) as [v' Hv']. by exists v', pre, post.
  - intros l o' self tx Hne Hl Hin.
    destruct (evolves_observers _ _ _ _ Hev Hl) as (o & Ho & Hobs).
    eapply (Honly l o self tx); [done..|]. by rewrite Hobs.
  - unfold is_scalar_at in *.
    destruct (observables st !! d) as [[vd od| |]|] eqn:Ed; try done.
    destruct (evolves_scalar _ _ _ _ _ Hev Ed) as [v' ->]. done.
Qed.

(** One upstream [set]: it returns, the derived property holds [f v] when it
    returns, and the derivation is as before. *)
Lemma set_recomputes fuel s d f v st :
  derived_from st s d f →
  s < next st → next st ≤ fuel + s →
  ∃ st', ScalarProperty_set fuel s v st = Ok tt st'
         ∧ scalar_value st' d = Some (f v)
         ∧ derived_from st' s d f
         ∧ next st' = next st.
Proof.
  intros Hdf Hlt Hfuel.
  destruct Hdf as [Hwf (v0 & pre & post & Hs & Hpp) Honly Hd] eqn:Edf.
  clear Edf.
  pose proof (write_scalar_Ok s v _ _ _ Hs) as Hw.
  set (st1 := upd_observable s (ScalarProperty v (pre ++ ObsDerived d f :: post)) st)
    in *.
  assert (Hev1 : evolves st st1) by (by eapply evolves_write_scalar).
  assert (Hwf1 : wf_observers st1) by (by eapply evolves_wf).
  assert (Hs1 : observables st1 !! s
                = Some (ScalarProperty v (pre ++ ObsDerived d f :: post)))
    by apply lookup_insert_eq.
  destruct (fire_returns fuel s v st1) as [st' Hfire]; [done|by eauto|done..|].
  exists st'. unfold ScalarProperty_set. rewrite (bind_eq_Ok _ _ _ _ _ Hw).
  split; [done|].
  assert (Hev : evolves st st').
  { etransitivity; [exact Hev1|]. by eapply evolves_fire. }
  split; [|split; [by eapply derived_from_evolves | by apply (ev_next _ _ Hev)]].
  (* the loop over the observers of [s], around the closure of [d] *)
  destruct fuel as [|fuel]; [done|].
  rewrite fire_S, (bind_the_observable _ _ _ _ Hs1) in Hfire. simpl in Hfire.
  rewrite for_each_app in Hfire.
  apply bind_Ok in Hfire as ([] & sa & Hpre & Hrest). simpl in Hrest.
  apply bind_Ok in Hrest as ([] & sb & Hset & Hpost). simpl in Hset.
  assert (Heva : evolves st1 sa).
  { eapply (for_each_preserves evolves); [|exact Hpre].
    intros ob s0 s0' _. apply evolves_call_observer. }
  assert (Hwfa : wf_observers sa) by (by eapply evolves_wf).
  unfold ScalarProperty_set in Hset.
  apply bind_Ok in Hset as ([] & sw & Hwd & Hfd).
  assert (Hevw : evolves sa sw) by (by eapply evolves_write_scalar).
  assert (Hwfw : wf_observers sw) by (by eapply evolves_wf).
  assert (Hdw : ∃ od, observables sw !! d = Some (ScalarProperty (f v) od)).
  { unfold write_scalar in Hwd.
    apply bind_Ok in Hwd as (os & s3 & Hos & Hwd).
    unfold the_observable in Hos.
    destruct (observables sa !! d); [|done]. injection Hos as -> <-.
    destruct os as [vd od| |]; try done. unfold modify in Hwd.
    injection Hwd as <-. exists od. simpl. apply lookup_insert_eq. }
  destruct Hdw as [od Hdw].
  assert (Hdb : observables sb !! d = Some (ScalarProperty (f v) od)).
  { rewrite <- Hdw. eapply (fire_frame fuel d); [exact Hwfw| |exact Hfd].
    intros l' o self tx Hle Hl Hin.
    destruct (Hwfw l' o self tx Hl Hin) as (Hgt & _). lia. }
  assert (Hevb : evolves st sb).
  { etransitivity; [exact Hev1|]. etransitivity; [exact Heva|].
    etransitivity; [exact Hevw|]. by eapply evolves_fire. }
  assert (Hd' : observables st' !! d = observables sb !! d).
  { eapply (for_each_observers_frame fuel v s d post); [| | |exact Hpost].
    - by eapply evolves_wf.
    - intros self tx Hin. split.
      + destruct (Hwf s _ self tx Hs) as (Hgt & _); [|done].
        simpl. rewrite elem_of_app, elem_of_cons. auto.
      + apply (Hpp self tx). rewrite elem_of_app. auto.
    - eapply (no_target_from_evolves st); [done|].
      intros l' o self tx Hle Hl Hin. eapply (Honly l' o self tx); [lia|done..]. }
  unfold scalar_value. by rewrite Hd', Hdb.
Qed.

(** The same after every [set] of a sequence. *)
Lemma set_all_recomputes fuel s d f (vs : list value) : ∀ v st,
  derived_from st s d f →
  s < next st → next st ≤ fuel + s →
  ∃ st', set_all fuel s (vs ++ [v]) st = Ok tt st'
         ∧ scalar_value st' d = Some (f v).
Proof.
  induction vs as [|w vs IH]; intros v st Hdf Hlt Hfuel; simpl.
  - destruct (set_recomputes fuel s d f v st) as (st' & Hset & Hv & _);
      [done..|].
    exists st'. unfold set_all. simpl.
    rewrite (bind_eq_Ok _ _ _ _ _ Hset). done.
  - destruct (set_recomputes fuel s d f w st) as (st1 & Hset & _ & Hdf1 & Hn);
      [done..|].
    destruct (IH v st1) as (st' & Hall & Hv); [done|lia..|].
    exists st'. unfold set_all in *. simpl.
    rewrite (bind_eq_Ok _ _ _ _ _ Hset). done.
Qed.

(** The constructor of a derived property. *)
Lemma DerivedProperty_new_spec fuel s f st v0 obs0 :
  wf_observers st →
  observables st !! s = Some (ScalarProperty v0 obs0) →
  s < next st → 0 < fuel →
  ∃ st1, DerivedProperty_new fuel s f st = Ok (next st) st1
         ∧ next st1 = S (next st)
         ∧ scalar_value st1 (next st)
           = Some (if defined v0 then f v0 else VUndefined)
         ∧ derived_from st1 s (next st) f.
Proof.
  intros Hwf Hs Hlt Hfuel.
  set (d := next st).
  set (sd := bump (upd_observable d (ScalarProperty VUndefined []) st)).
  set (sr := upd_observable s (ScalarProperty v0 (obs0 ++ [ObsDerived d f])) sd).
  assert (Hsd : observables sd !! s = Some (ScalarProperty v0 obs0)).
  { simpl. rewrite lookup_insert_ne by (unfold d; lia). done. }
  assert (Hrs : observables sr !! s
                = Some (ScalarProperty v0 (obs0 ++ [ObsDerived d f])))
    by apply lookup_insert_eq.
  assert (Hrd : observables sr !! d = Some (ScalarProperty VUndefined [])).
  { simpl. rewrite lookup_insert_ne by (unfold d; lia). apply lookup_insert_eq. }
  assert (Hold : ∀ l o, l ≠ s → l ≠ d →
            observables sr !! l = Some o → observables st !! l = Some o).
  { intros l o H1 H2. simpl. by rewrite !lookup_insert_ne. }
  assert (Hscal : ∀ self, self < next st → is_scalar_at st self = true →
            is_scalar_at sr self = true).
  { intros self H1. unfold is_scalar_at. simpl.
    rewrite lookup_insert. case_decide; [done|].
    rewrite lookup_insert_ne by (unfold d; lia). done. }
  assert (Hwfr : wf_observers sr).
  { intros l o self tx Hl Hin.
    assert (Hcase : (self = d ∧ l = s)
                    ∨ (∃ o', observables st !! l = Some o'
                             ∧ ObsDerived self tx ∈ observers_of o')).
    { destruct (decide (l = s)) as [->|Hls].
      - rewrite Hrs in Hl. injection Hl as <-. simpl in Hin.
        apply elem_of_app in Hin as [Hin|Hin]; [right; eauto|].
        apply list_elem_of_singleton in Hin. injection Hin as -> _. by left.
      - destruct (decide (l = d)) as [->|Hld].
        + rewrite Hrd in Hl. injection Hl as <-. simpl in Hin.
          by apply elem_of_nil in Hin.
        + right. exists o. split; [by apply Hold | done]. }
    destruct Hcase as [[-> ->]|(o' & Ho' & Hin')].
    - split; [done|]. split; [simpl; unfold d; lia|]. eauto.
    - destruct (Hwf l o' self tx Ho' Hin') as (H1 & H2 & v & obs & H3).
      split; [done|]. split; [simpl; lia|].
      assert (Hsc : is_scalar_at sr self = true).
      { apply Hscal; [done|]. unfold is_scalar_at. by rewrite H3. }
      unfold is_scalar_at in Hsc.
      destruct (observables sr !! self) as [[v' obs'| |]|]; try done. eauto. }
  assert (Hdfr : derived_from sr s d f).
  { split; [done| | |].
    - exists v0, obs0, []. split; [done|]. intros self tx Hin.
      rewrite app_nil_r in Hin.
      destruct (Hwf s _ self tx Hs Hin) as (_ & H2 & _). unfold d. lia.
    - intros l o self tx Hne Hl Hin.
      destruct (decide (l = d)) as [->|Hld].
      + rewrite Hrd in Hl. injection Hl as <-. by apply elem_of_nil in Hin.
      + destruct (Hwf l o self tx) as (_ & H2 & _); [by apply Hold|done|].
        unfold d. lia.
    - unfold is_scalar_at. by rewrite Hrd. }
  assert (Hreg : bind (ScalarProperty_new VUndefined)
                   (λ this, addObserver fuel s (ObsDerived this f) ;; ret this) st
                 = bind (notify_current fuel s (ObsDerived d f)) (λ _, ret d) sr).
  { unfold bind at 1. unfold ScalarProperty_new, new_observable. fold d. fold sd.
    unfold bind at 1. unfold addObserver. rewrite (bind_the_observable _ _ _ _ Hsd).
    unfold Property_addObserver.
    by rewrite (bind_eq_Ok _ _ _ _ _ (Observable_addObserver_Ok _ _ _ _ Hsd)). }
  unfold DerivedProperty_new. rewrite Hreg.
  unfold bind. rewrite (notify_current_eq _ _ _ _ _ Hrs).
  simpl. destruct (defined v0) eqn:Edef.
  - destruct fuel as [|fuel]; [lia|].
    pose proof (write_scalar_Ok d (f v0) sr _ _ Hrd) as Hw.
    set (s1 := upd_observable d (ScalarProperty (f v0) []) sr) in *.
    assert (Hfire : fire (S fuel) d (f v0) s1 = Ok tt s1).
    { rewrite fire_S. erewrite bind_the_observable; [|apply lookup_insert_eq]. done. }
    exists s1. unfold ScalarProperty_set.
    rewrite (bind_eq_Ok _ _ _ _ _ Hw), Hfire.
    split; [done|]. split; [done|]. split.
    + unfold scalar_value. simpl. by rewrite lookup_insert_eq.
    + eapply derived_from_evolves; [|exact Hdfr]. by eapply evolves_write_scalar.
  - exists sr. split; [done|]. split; [done|]. split; [|done].
    unfold scalar_value. by rewrite Hrd.
Qed.

(** C7: a property derived from a scalar [s] by a pure [f], in a store whose
    observers are well formed.  The constructor returns a property that holds
    [f v0] when [s] holds a value [v0] at that time, and nothing otherwise;
    and after every [s.set(v)] of any sequence of sets, when that call
    returns, the derived property holds [f v] for the [v] set last. *)
Theorem Derived_recompute (fuel : nat) (s : loc) (f : value → value)
    (st : store) (v0 : value) (obs0 : list observer) :
  wf_observers st →
  observables st !! s = Some (ScalarProperty v0 obs0) →
  s < next st →
  next st < fuel + s →
  ∃ d st1,
    DerivedProperty_new fuel s f st = Ok d st1
    ∧ scalar_value st1 d = Some (if defined v0 then f v0 else VUndefined)
    ∧ ∀ vs v, ∃ st2,
        set_all fuel s (vs ++ [v]) st1 = Ok tt st2
        ∧ scalar_value st2 d = Some (f v).
Proof.
  intros Hwf Hs Hlt Hfuel.
  destruct (DerivedProperty_new_spec fuel s f st v0 obs0)
    as (st1 & Hnew & Hnext & Hv & Hdf); [done..|lia|].
  exists (next st), st1. split; [done|]. split; [done|].
  intros vs v. apply set_all_recomputes; [done|lia..].
Qed.

(** The test 'Derived from initial value': the source holds 3 and the
    transform doubles. *)
Lemma Derived_recompute_witness :
  ∃ d st1,
    DerivedProperty_new 3 1 double scalar_store = Ok d st1
    ∧ scalar_value st1 d = Some (VNum 6)
    ∧ ∀ vs v, ∃ st2,
        set_all 3 1 (vs ++ [v]) st1 = Ok tt st2
        ∧ scalar_value st2 d = Some (double v).
Proof.
  apply (Derived_recompute 3 1 double scalar_store (VNum 3) []).
  - apply wf_observers_check_sound. reflexivity.
  - reflexivity.
  - vm_compute. lia.
  - vm_compute. lia.
Defined.

(** The link of [link_store], observed by the probe 7, set to the root 2. *)
Lemma LinkRelationship_set_once_witness :
  ∃ st1, LinkRelationship_set 3 1 2 link_store = Ok tt st1
    ∧ trace st1 = [(7, VConstruct 2)]
    ∧ (∀ fuel' y,
         LinkRelationship_set fuel' 1 y st1 = Throw AlreadyLinkedError st1).
Proof.
  destruct (LinkRelationship_set_once 3 1 2 link_store) as [Hset Hreturns].
  destruct (Hreturns [] [ObsProbe 7]) as [st1 H1].
  - reflexivity.
  - apply wf_observers_check_sound. reflexivity.
  - vm_compute. lia.
  - vm_compute. lia.
  - exists st1. split; [exact H1|].
    destruct (Hset st1 H1) as (targets & obs & _ & _ & _ & Hagain & _).
    split; [|exact Hagain].
    vm_compute in H1. by injection H1 as <-.
Defined.

(** A probe on the empty collection of [collection_store]. *)
Lemma addObserver_immediate_notifications_witness :
  ∃ st', addObserver 0 1 (ObsProbe 9) collection_store = Ok tt st'
    ∧ trace st' = [(9, VArr []); (9, VArr [])].
Proof.
  destruct (addObserver_immediate_notifications 0 1 9 collection_store)
    as [Hcollection _].
  destruct (Hcollection [] []) as (st' & H1 & H2 & _); [reflexivity|].
  exists st'. split; [exact H1 | exact H2].
Defined.

(** The bucket advertises ["AWS::S3::Bucket"]: a tweak for buckets is
    attached, a tweak for bucket policies is not. *)
Lemma tryLink_attaches_iff_tags_meet_witness :
  tryLink 5 (Bucket.BucketName "MyBucket") 2 bucket_store
  = linkTo 5 (Bucket.BucketName "MyBucket") 2 bucket_store
  ∧ tryLink 5 (LScalarTweak (ScalarTweak.new "AWS::S3::BucketPolicy"
                               "BucketName" (VStr "MyBucket"))) 2 bucket_store
    = Ok tt bucket_store.
Proof.
  split.
  - eapply (tryLink_attaches_iff_tags_meet 5 (Bucket.BucketName "MyBucket") 2);
      [reflexivity|].
    exists "AWS::S3::Bucket". split; apply list_elem_of_In; simpl; auto.
  - eapply (tryLink_attaches_iff_tags_meet 5 _ 2); [reflexivity|].
    intros (t & H1 & H2). simpl in H1, H2.
    apply list_elem_of_singleton in H1. apply list_elem_of_singleton in H2.
    congruence.
Defined.

(** ** Tweaks *)

(** A [set] of a scalar returns with the value in place: what it fires
    sets only objects allocated later. *)
Lemma ScalarProperty_set_value fuel p v st vo obs :
  wf_observers st →
  observables st !! p = Some (ScalarProperty vo obs) →
  p < next st → next st ≤ fuel + p →
  ∃ st', ScalarProperty_set fuel p v st = Ok tt st'
         ∧ observables st' !! p = Some (ScalarProperty v obs)
         ∧ evolves st st'.
Proof.
  intros Hwf Hp Hlt Hfuel.
  pose proof (write_scalar_Ok p v _ _ _ Hp) as Hw.
  set (st1 := upd_observable p (ScalarProperty v obs) st) in *.
  assert (Hev1 : evolves st st1) by (by eapply evolves_write_scalar).
  assert (Hwf1 : wf_observers st1) by (by eapply evolves_wf).
  destruct (fire_returns fuel p v st1) as [st' Hfire]; [done| |done..|].
  { simpl. rewrite lookup_insert_eq. eauto. }
  exists st'. unfold ScalarProperty_set. rewrite (bind_eq_Ok _ _ _ _ _ Hw).
  split; [done|]. split.
  - erewrite (fire_frame fuel p v st1 st' p); [apply lookup_insert_eq|done| |done].
    intros l' o self tx Hle Hl Hin.
    destruct (Hwf1 l' o self tx Hl Hin) as (Hgt & _). lia.
  - etransitivity; [exact Hev1|]. by eapply evolves_fire.
Qed.

Lemma ScalarTweak_linkTo_eq fuel t res st c ty props links :
  constructs st !! res = Some c →
  fields c = ResourceFields ty props links →
  ScalarTweak_linkTo fuel t res st
  = match get props (ScalarTweak.property t) with
    | None =>
        if inherited (ScalarTweak.property t) then Throw TypeMismatchError st
        else Throw UnknownPropertyError st
    | Some p =>
        match observables st !! p with
        | None => Throw BadReference st
        | Some (ScalarProperty v obs) =>
            if defined v then Throw AlreadySetError st
            else ScalarProperty_set fuel p (ScalarTweak.value t) st
        | Some _ => Throw TypeMismatchError st
        end
    end.
Proof.
  intros Hc Hf. unfold ScalarTweak_linkTo.
  rewrite (bind_the_construct _ _ _ _ Hc).
  unfold is_Resource. rewrite Hf.
  unfold property, the_resource.
  unfold bind at 1 2. rewrite (bind_the_construct _ _ _ _ Hc). rewrite Hf.
  unfold ret at 1.
  destruct (get props (ScalarTweak.property t)) as [p|];
    [|by destruct (inherited (ScalarTweak.property t))].
  unfold ret at 1. unfold bind, the_observable.
  destruct (observables st !! p) as [[v obs| |]|]; try done.
  unfold hasValue. simpl. by destruct (defined v).
Qed.

(** C6, as the code has it: the outcomes of attaching a scalar tweak to a
    resource, and the second tweak.  Where the resource has no property of
    the carried name, the tweak fails with [UnknownPropertyError], unless the
    name is one that every object inherits: then the lookup finds the
    inherited member, which is no scalar, and the tweak fails with
    [TypeMismatchError].  A second scalar tweak for the same property fails
    with [AlreadySetError] when the first carried a value other than
    [undefined]. *)
Theorem ScalarTweak_linkTo_outcomes (fuel : nat) (t : ScalarTweak.t)
    (res : loc) (st : store) (c : Construct) (ty : string) (props : obj loc)
    (links : list loc) :
  constructs st !! res = Some c →
  fields c = ResourceFields ty props links →
  (get props (ScalarTweak.property t) = None →
     linkTo fuel t res st
     = Throw (if inherited (ScalarTweak.property t) then TypeMismatchError
              else UnknownPropertyError) st)
  ∧ (∀ p o,
       get props (ScalarTweak.property t) = Some p →
       observables st !! p = Some o →
       (∀ v obs, o ≠ ScalarProperty v obs) →
       linkTo fuel t res st = Throw TypeMismatchError st)
  ∧ (∀ p v obs,
       get props (ScalarTweak.property t) = Some p →
       observables st !! p = Some (ScalarProperty v obs) →
       defined v = true →
       linkTo fuel t res st = Throw AlreadySetError st)
  ∧ (∀ p obs,
       get props (ScalarTweak.property t) = Some p →
       observables st !! p = Some (ScalarProperty VUndefined obs) →
       wf_observers st → p < next st → next st ≤ fuel + p →
       ∃ st', linkTo fuel t res st = Ok tt st'
         ∧ scalar_value st' p = Some (ScalarTweak.value t)
         ∧ (defined (ScalarTweak.value t) = true →
            ∀ fuel' t',
              ScalarTweak.property t' = ScalarTweak.property t →
              linkTo fuel' t' res st' = Throw AlreadySetError st')).
Proof.
  intros Hc Hf. simpl.
  split; [|split; [|split]].
  - intros Hg. rewrite (ScalarTweak_linkTo_eq _ _ _ _ _ _ _ _ Hc Hf). rewrite Hg.
    by destruct (inherited (ScalarTweak.property t)).
  - intros p o Hg Ho Hns.
    rewrite (ScalarTweak_linkTo_eq _ _ _ _ _ _ _ _ Hc Hf). rewrite Hg, Ho.
    destruct o as [v obs| |]; [|done..]. by destruct (Hns v obs).
  - intros p v obs Hg Ho Hd.
    rewrite (ScalarTweak_linkTo_eq _ _ _ _ _ _ _ _ Hc Hf). by rewrite Hg, Ho, Hd.
  - intros p obs Hg Ho Hwf Hlt Hfuel.
    rewrite (ScalarTweak_linkTo_eq _ _ _ _ _ _ _ _ Hc Hf). rewrite Hg, Ho. simpl.
    destruct (ScalarProperty_set_value fuel p (ScalarTweak.value t) st _ _
                Hwf Ho Hlt Hfuel) as (st' & Hset & Hp' & Hev).
    exists st'. split; [done|]. split.
    + unfold scalar_value. by rewrite Hp'.
    + intros Hd fuel' t' Hsame.
      assert (Hc' : constructs st' !! res = Some c)
        by (by rewrite (ev_constructs _ _ Hev)).
      rewrite (ScalarTweak_linkTo_eq _ _ _ _ _ _ _ _ Hc' Hf).
      by rewrite Hsame, Hg, Hp', Hd.
Qed.

(** The scenario of the specification: a second tweak that sets
    [BucketName] on the same bucket fails with [AlreadySetError]. *)
Lemma ScalarTweak_linkTo_outcomes_witness :
  ∃ st', linkTo 5 (ScalarTweak.new "AWS::S3::Bucket" "BucketName"
                     (VStr "MyBucket")) 2 bucket_store = Ok tt st'
    ∧ scalar_value st' 3 = Some (VStr "MyBucket")
    ∧ linkTo 5 (ScalarTweak.new "AWS::S3::Bucket" "BucketName"
                  (VStr "Other")) 2 st' = Throw AlreadySetError st'.
Proof.
  edestruct (ScalarTweak_linkTo_outcomes 5
               (ScalarTweak.new "AWS::S3::Bucket" "BucketName" (VStr "MyBucket"))
               2 bucket_store) as (_ & _ & _ & Hset); [reflexivity..|].
  destruct (Hset 3 []) as (st' & H1 & H2 & H3).
  - reflexivity.
  - reflexivity.
  - apply wf_observers_check_sound. reflexivity.
  - vm_compute. lia.
  - vm_compute. lia.
  - exists st'. split; [exact H1|]. split; [exact H2|].
    apply H3; reflexivity.
Defined.

(** C6, where the claim fails: the first tweak carries [undefined], so the
    scalar still holds no value after it, and the second tweak for the same
    property of the same resource is applied instead of failing.  And a tweak
    for the name ['constructor'], under which the resource has no property,
    fails with [TypeMismatchError], not with [UnknownPropertyError]. *)
Lemma second_ScalarTweak_after_undefined :
  (∃ st1 st2,
     linkTo 5 (ScalarTweak.new "AWS::S3::Bucket" "BucketName" VUndefined)
       2 bucket_store = Ok tt st1
     ∧ linkTo 5 (ScalarTweak.new "AWS::S3::Bucket" "BucketName" (VStr "MyBucket"))
         2 st1 = Ok tt st2
     ∧ scalar_value st2 3 = Some (VStr "MyBucket"))
  ∧ linkTo 5 (ScalarTweak.new "AWS::S3::Bucket" "constructor" (VStr "MyBucket"))
      2 bucket_store = Throw TypeMismatchError bucket_store.
Proof. split; [eexists _, _; repeat split; reflexivity | reflexivity]. Qed.

(** ** Rendering the bucket *)

(** C8, as the code has it: the resource ["Bucket"] of type ["S3::Bucket"]
    with the scalar tweak and the collection tweak linked to it renders to
    the document whose one entry is keyed by the logical id ["Bucket"] and
    carries the type and the two properties, under the fields that
    [Resource.render] names [Type] and [Properties]. *)
Theorem bucket_scenario_renders (localeCompare : string → string → Z) :
  ∃ st, bucket_scenario localeCompare initial_store
        = Ok rendered_bucket_document st.
Proof. eexists. reflexivity. Qed.

(** C8, where the claim fails: the document rendered names the fields
    [Type] and [Properties], so it is not the one claimed. *)
Lemma bucket_scenario_differs_from_claim :
  rendered_bucket_document ≠ claimed_bucket_document
  ∧ ∀ localeCompare, ∃ d st,
      bucket_scenario localeCompare initial_store = Ok d st
      ∧ get d "Bucket"
        = Some (VObj [("Type", VStr "S3::Bucket");
                      ("Properties",
                       VObj [("BucketName", VStr "MyBucket");
                             ("Tags", VArr [VObj [("Key", VStr "CostCenter");
                                                  ("Value", VStr "1234")]])])])
      ∧ d ≠ claimed_bucket_document.
Proof.
  split; [discriminate|].
  intros localeCompare. eexists _, _.
  split; [reflexivity|]. split; [reflexivity|]. discriminate.
Qed.

(** ** Sorting *)

Section SortFacts.
Context {A : Type} (le : A → A → bool).

Lemma insert_sorted_perm (x : A) (l : list A) : insert_sorted le x l ≡ₚ x :: l.
Proof.
  induction l as [|y l IH]; simpl; [done|].
  destruct (le x y); [done|]. rewrite IH. apply Permutation_swap.
Qed.

Lemma stable_sort_perm (l : list A) : stable_sort le l ≡ₚ l.
Proof.
  induction l as [|x l IH]; simpl; [done|].
  rewrite insert_sorted_perm. by rewrite IH.
Qed.

Lemma insert_sorted_StronglySorted (P : A → Prop) (x : A) (l : list A) :
  consistent_on le P → P x → Forall P l →
  StronglySorted (λ a b, le a b = true) l →
  StronglySorted (λ a b, le a b = true) (insert_sorted le x l).
Proof.
  intros [Htot Htrans] Hx Hl Hs.
  induction Hs as [|y l Hs IH Hy]; simpl.
  - repeat constructor.
  - apply Forall_cons in Hl as [Py Pl].
    destruct (le x y) eqn:E.
    + constructor; [by constructor|]. constructor; [done|].
      rewrite Forall_forall in Hy, Pl. apply Forall_forall. intros z Hz.
      apply (Htrans x y z); auto.
    + constructor; [by apply IH|].
      rewrite insert_sorted_perm. constructor; [|done].
      destruct (Htot x y Hx Py); congruence.
Qed.

Lemma stable_sort_StronglySorted (P : A → Prop) (l : list A) :
  consistent_on le P → Forall P l →
  StronglySorted (λ a b, le a b = true) (stable_sort le l).
Proof.
  intros Hc. induction l as [|x l IH]; intros Hl; simpl; [constructor|].
  apply Forall_cons in Hl as [Px Pl].
  apply (insert_sorted_StronglySorted P); [done..| |by apply IH].
  by rewrite stable_sort_perm.
Qed.
End SortFacts.

(** Sorting commutes with a map that the comparator does not see. *)
Lemma stable_sort_map {A B} (le1 : A → A → bool) (le2 : B → B → bool)
    (g : A → B) (l : list A) :
  (∀ a b, le2 (g a) (g b) = le1 a b) →
  stable_sort le2 (map g l) = map g (stable_sort le1 l).
Proof.
  intros Hg. induction l as [|x l IH]; simpl; [done|]. rewrite IH.
  generalize (stable_sort le1 l). intros s.
  induction s as [|y s IHs]; simpl; [done|].
  rewrite Hg. destruct (le1 x y); simpl; [done|]. by rewrite IHs.
Qed.

(** ** Computations that only read *)

Lemma readonly_ret {A} (a : A) : readonly (ret a).
Proof. intros st a' st'. unfold ret. by intros [= _ ->]. Qed.

Lemma readonly_throw {A} (e : error) : readonly (@throw A e).
Proof. intros st a' st'. done. Qed.

Lemma readonly_bind {A B} (m : M A) (k : A → M B) :
  readonly m → (∀ a, readonly (k a)) → readonly (bind m k).
Proof.
  intros Hm Hk st b st' (a & s1 & H1 & H2)%bind_Ok.
  apply Hm in H1 as ->. by apply Hk in H2.
Qed.

Lemma readonly_the_construct l : readonly (the_construct l).
Proof.
  intros st c st'. unfold the_construct.
  destruct (constructs st !! l); [by intros [= _ ->]|done].
Qed.

Lemma readonly_the_observable l : readonly (the_observable l).
Proof.
  intros st c st'. unfold the_observable.
  destruct (observables st !! l); [by intros [= _ ->]|done].
Qed.

Lemma readonly_map_m {A B} (f : A → M B) (xs : list A) :
  (∀ x, readonly (f x)) → readonly (map_m f xs).
Proof.
  intros Hf. induction xs as [|x xs IH]; simpl; [apply readonly_ret|].
  apply readonly_bind; [done|]. intros y.
  apply readonly_bind; [done|]. intros ys. apply readonly_ret.
Qed.

Lemma throws_within_ret P {A} (a : A) : throws_within P (ret a).
Proof. intros st e st'. done. Qed.

Lemma throws_within_throw (P : error → Prop) {A} (e : error) :
  P e → throws_within P (@throw A e).
Proof. intros He st e' st'. unfold throw. by intros [= <- _]. Qed.

Lemma throws_within_bind P {A B} (m : M A) (k : A → M B) :
  throws_within P m → (∀ a, throws_within P (k a)) → throws_within P (bind m k).
Proof.
  intros Hm Hk st e st'. unfold bind.
  destruct (m st) as [a s1|e1 s1|] eqn:E; [|intros [= <- _]; by eapply Hm|done].
  apply Hk.
Qed.

Lemma throws_within_the_construct (P : error → Prop) l :
  P BadReference → throws_within P (the_construct l).
Proof.
  intros HP st e st'. unfold the_construct.
  destruct (constructs st !! l); [done|by intros [= <- _]].
Qed.

Lemma throws_within_the_observable (P : error → Prop) l :
  P BadReference → throws_within P (the_observable l).
Proof.
  intros HP st e st'. unfold the_observable.
  destruct (observables st !! l); [done|by intros [= <- _]].
Qed.

Lemma throws_within_map_m P {A B} (f : A → M B) (xs : list A) :
  (∀ x, throws_within P (f x)) → throws_within P (map_m f xs).
Proof.
  intros Hf. induction xs as [|x xs IH]; simpl; [apply throws_within_ret|].
  apply throws_within_bind; [done|]. intros y.
  apply throws_within_bind; [done|]. intros ys. apply throws_within_ret.
Qed.

(** An effectful map over functions that only read is a map. *)
Lemma map_m_Ok {A B} (f : A → M B) (xs : list A) st ys st' :
  (∀ x, readonly (f x)) →
  map_m f xs st = Ok ys st' →
  st' = st ∧ Forall2 (λ x y, f x st = Ok y st) xs ys.
Proof.
  intros Hf. revert ys. induction xs as [|x xs IH]; intros ys; simpl.
  - unfold ret. intros [= <- <-]. by split.
  - intros (y & s1 & H1 & H2)%bind_Ok.
    apply bind_Ok in H2 as (ys' & s2 & H2 & H3).
    unfold ret in H3. injection H3 as <- <-.
    pose proof (Hf x _ _ _ H1) as ->.
    destruct (IH _ H2) as [-> HF]. split; [done|]. by constructor.
Qed.

Lemma map_m_Ok_intro {A B} (f : A → M B) (xs : list A) st ys :
  Forall2 (λ x y, f x st = Ok y st) xs ys →
  map_m f xs st = Ok ys st.
Proof.
  induction 1 as [|x y xs ys H1 _ IH]; simpl; [done|].
  rewrite (bind_eq_Ok _ _ _ _ _ H1), (bind_eq_Ok _ _ _ _ _ IH). done.
Qed.

(** ** Enumeration *)

Lemma entries_perm {V} (o : obj V) : entries o ≡ₚ o.
Proof.
  unfold entries. rewrite stable_sort_perm.
  unfold index_entries, named_entries.
  induction o as [|[k v] o IH]; [done|].
  rewrite filter_cons. cbn [omap list_omap fst].
  destruct (array_index k) as [n|] eqn:E.
  - rewrite decide_False by (simpl; congruence). simpl. by rewrite IH.
  - rewrite decide_True by done. rewrite <- Permutation_middle. by rewrite IH.
Qed.

Lemma values_perm {V} (o : obj V) : values o ≡ₚ map snd o.
Proof. unfold values. by rewrite entries_perm. Qed.

Lemma entries_singleton {V} (k : string) (v : V) : entries [(k, v)] = [(k, v)].
Proof.
  unfold entries, index_entries, named_entries.
  rewrite filter_cons, filter_nil. cbn [omap list_omap fst].
  destruct (array_index k) eqn:E.
  - by rewrite decide_False by (simpl; congruence).
  - by rewrite decide_True.
Qed.

(** ** Paths *)

Lemma constructPath_loop_step fuel l acc c st :
  constructs st !! l = Some c →
  constructPath_loop (S fuel) l acc st
  = match climb c with
    | Some (p, k) => constructPath_loop fuel p (k :: acc) st
    | None => Ok acc st
    end.
Proof.
  intros Hc. simpl. rewrite (bind_the_construct _ _ _ _ Hc).
  unfold climb. destruct (_scope c), (id c); try done.
  by destruct (truthy_string _).
Qed.

Lemma constructPath_loop_Ok fuel : ∀ l acc st p st',
  constructPath_loop fuel l acc st = Ok p st' →
  st' = st ∧ ∃ ks, path_to st l ks ∧ p = ks ++ acc.
Proof.
  induction fuel as [|fuel IH]; intros l acc st p st'; [done|].
  destruct (constructs st !! l) as [c|] eqn:Hc.
  2:{ simpl. unfold bind, the_construct. by rewrite Hc. }
  rewrite (constructPath_loop_step _ _ _ _ _ Hc).
  destruct (climb c) as [[q k]|] eqn:E.
  - intros H. destruct (IH _ _ _ _ _ H) as (-> & ks & Hks & ->).
    split; [done|]. exists (ks ++ [k]). split; [by eapply path_step|].
    by rewrite <- app_assoc.
  - intros [= <- <-]. split; [done|]. exists []. split; [by eapply path_stop|done].
Qed.

Lemma constructPath_loop_returns st l ks :
  path_to st l ks →
  ∀ fuel acc, length ks < fuel →
    constructPath_loop fuel l acc st = Ok (ks ++ acc) st.
Proof.
  induction 1 as [l c Hc E|l c p k ks Hc E Hp IH]; intros fuel acc Hlen.
  - destruct fuel as [|fuel]; [simpl in Hlen; lia|].
    rewrite (constructPath_loop_step _ _ _ _ _ Hc). by rewrite E.
  - rewrite length_app in Hlen. simpl in Hlen.
    destruct fuel as [|fuel]; [lia|].
    rewrite (constructPath_loop_step _ _ _ _ _ Hc). rewrite E.
    rewrite IH by lia. by rewrite <- app_assoc.
Qed.

Lemma constructPath_Ok fuel l st p st' :
  constructPath fuel l st = Ok p st' → st' = st ∧ path_to st l p.
Proof.
  intros H. apply constructPath_loop_Ok in H as (-> & ks & Hks & ->).
  by rewrite app_nil_r.
Qed.

Lemma constructPath_returns fuel l st p :
  path_to st l p → length p < fuel → constructPath fuel l st = Ok p st.
Proof.
  intros Hp Hlen. unfold constructPath.
  rewrite (constructPath_loop_returns _ _ _ Hp) by done. by rewrite app_nil_r.
Qed.

Lemma readonly_constructPath fuel l : readonly (constructPath fuel l).
Proof. intros st p st' H. by apply constructPath_Ok in H as [-> _]. Qed.

Lemma throws_within_constructPath (P : error → Prop) fuel l :
  P BadReference → throws_within P (constructPath fuel l).
Proof.
  intros HP. unfold constructPath. generalize (@nil string).
  revert l. induction fuel as [|fuel IH]; intros l acc; [done|].
  simpl. apply throws_within_bind; [by apply throws_within_the_construct|].
  intros c. destruct (_scope c), (id c); try apply throws_within_ret.
  destruct (truthy_string _); [apply IH | apply throws_within_ret].
Qed.

(** ** Finding the resources *)

Lemma child_values st p c ch :
  constructs st !! p = Some c →
  child st p ch ↔ ch ∈ values (children c).
Proof.
  intros Hc. rewrite values_perm. unfold child. split.
  - intros (pc & Hpc & Hin). by simplify_eq.
  - intros Hin. eauto.
Qed.

Lemma resource_below_unfold st p c r :
  constructs st !! p = Some c →
  resource_below st p r
  ↔ (r = p ∧ is_Resource c = true)
    ∨ ∃ ch, ch ∈ values (children c) ∧ resource_below st ch r.
Proof.
  intros Hc. unfold resource_below. split.
  - intros [Hrtc Hres]. apply rtc_inv in Hrtc as [->|(ch & Hch & Hrtc)].
    + left. destruct Hres as (c' & Hc' & Hr). by simplify_eq.
    + right. exists ch. by rewrite <- (child_values _ _ _ _ Hc).
  - intros [[-> Hr]|(ch & Hch & Hrtc & Hres)].
    + split; [done|eauto].
    + split; [|done]. eapply rtc_l; [|done]. by apply (child_values _ _ _ _ Hc).
Qed.

Lemma findAll_loop_Ok fuel : ∀ stack acc st res st',
  findAll_loop fuel stack acc st = Ok res st' →
  st' = st
  ∧ ∀ r, r ∈ res ↔ r ∈ acc ∨ ∃ s, s ∈ stack ∧ resource_below st s r.
Proof.
  induction fuel as [|fuel IH]; intros [|first rest] acc st res st'; simpl.
  - unfold ret. intros [= <- <-]. split; [done|]. intros r. split; [auto|].
    intros [?|(s & Hs & _)]; [done|]. by apply elem_of_nil in Hs.
  - done.
  - unfold ret. intros [= <- <-]. split; [done|]. intros r. split; [auto|].
    intros [?|(s & Hs & _)]; [done|]. by apply elem_of_nil in Hs.
  - intros (c & s1 & Hc & Hloop)%bind_Ok.
    unfold the_construct in Hc.
    destruct (constructs st !! first) as [c'|] eqn:Ec; [|done].
    injection Hc as -> <-.
    destruct (IH _ _ _ _ _ Hloop) as [-> Hres]. split; [done|].
    intros r. rewrite Hres. clear Hres Hloop.
    assert (Hacc : r ∈ (if is_Resource c then acc ++ [first] else acc)
                   ↔ r ∈ acc ∨ (r = first ∧ is_Resource c = true)).
    { destruct (is_Resource c).
      - rewrite elem_of_app, list_elem_of_singleton. tauto.
      - split; [auto|]. by intros [?|[_ ?]]. }
    rewrite Hacc. split.
    + intros [[?|Hfirst]|(s & Hs & Hbelow)]; [by left| |].
      * right. exists first. split; [left|].
        apply (resource_below_unfold _ _ _ _ Ec). by left.
      * apply elem_of_app in Hs as [Hs|Hs].
        -- right. exists s. split; [by right|done].
        -- right. exists first. split; [left|].
           apply (resource_below_unfold _ _ _ _ Ec). right. eauto.
    + intros [?|(s & Hs & Hbelow)]; [by left; left|].
      apply elem_of_cons in Hs as [->|Hs].
      * apply (resource_below_unfold _ _ _ _ Ec) in Hbelow
          as [?|(ch & Hch & Hbelow)]; [by left; right|].
        right. exists ch. split; [|done]. apply elem_of_app. by right.
      * right. exists s. split; [|done]. apply elem_of_app. by left.
Qed.

(** [findAll] returns exactly the resources of the tree below [scope]. *)
Lemma findAll_Ok fuel scope st res st' :
  findAll fuel scope st = Ok res st' →
  st' = st ∧ ∀ r, r ∈ res ↔ resource_below st scope r.
Proof.
  intros H. apply findAll_loop_Ok in H as [-> Hres]. split; [done|].
  intros r. rewrite Hres. split.
  - intros [Hnil|(s & Hs & Hb)]; [by apply elem_of_nil in Hnil|].
    apply list_elem_of_singleton in Hs. by subst.
  - intros Hb. right. exists scope. split; [left|done].
Qed.

Lemma readonly_findAll fuel scope : readonly (findAll fuel scope).
Proof. intros st res st' H. by apply findAll_Ok in H as [-> _]. Qed.

Lemma throws_within_findAll (P : error → Prop) fuel scope :
  P BadReference → throws_within P (findAll fuel scope).
Proof.
  intros HP. unfold findAll. generalize (@nil nat) at 2. generalize [scope].
  induction fuel as [|fuel IH]; intros [|first rest] acc; simpl;
    try apply throws_within_ret; [done|].
  apply throws_within_bind; [by apply throws_within_the_construct|].
  intros c. apply IH.
Qed.

Lemma findAll_loop_returns st fuel : ∀ ts acc,
  Forall (shape st) ts →
  list_sum (map size ts) ≤ fuel →
  ∃ res, findAll_loop fuel (map root_of ts) acc st = Ok res st.
Proof.
  induction fuel as [|fuel IH]; intros [|[l kids] ts] acc Hsh Hsz; simpl in *;
    try (by eexists); [lia|].
  apply Forall_cons in Hsh as [Hl Hts].
  inversion Hl as [l' c kids' Hc Hvals Hkids]; subst.
  rewrite (bind_the_construct _ _ _ _ Hc). rewrite Hvals, <- map_app.
  apply IH.
  - apply Forall_app. by split.
  - rewrite map_app, list_sum_app. lia.
Qed.

Lemma findAll_returns st fuel t :
  shape st t → size t ≤ fuel →
  ∃ res, findAll fuel (root_of t) st = Ok res st.
Proof.
  intros Hsh Hsz. apply (findAll_loop_returns st fuel [t]).
  - by constructor.
  - simpl. lia.
Qed.

(** ** Rendering a resource *)

Lemma readonly_the_resource r : readonly (the_resource r).
Proof.
  unfold the_resource. apply readonly_bind; [apply readonly_the_construct|].
  intros c. destruct (fields c); [apply readonly_throw | apply readonly_ret].
Qed.

Lemma throws_within_the_resource (P : error → Prop) r :
  P BadReference → throws_within P (the_resource r).
Proof.
  intros HP. unfold the_resource.
  apply throws_within_bind; [by apply throws_within_the_construct|].
  intros c. destruct (fields c);
    [by apply throws_within_throw | apply throws_within_ret].
Qed.

Lemma the_resource_eq r c ty props links st :
  constructs st !! r = Some c →
  fields c = ResourceFields ty props links →
  the_resource r st = Ok (c, ty, props, links) st.
Proof.
  intros Hc Hf. unfold the_resource.
  rewrite (bind_the_construct _ _ _ _ Hc). by rewrite Hf.
Qed.

Lemma readonly_render_value (render_resource : loc → M value) x :
  (∀ l, readonly (render_resource l)) → readonly (render_value render_resource x).
Proof.
  intros Hr. destruct x as [| |b|n|s|items|fs|l|r]; simpl;
    try apply readonly_ret.
  - destruct (get fs "render") as [m|]; [|apply readonly_ret].
    destruct (truthy m); [apply readonly_throw | apply readonly_ret].
  - apply readonly_bind; [apply readonly_the_construct|].
    intros c. destruct (is_Resource c); [apply Hr | apply readonly_ret].
Qed.

Lemma readonly_rendered (render_resource : loc → M value) p :
  (∀ l, readonly (render_resource l)) → readonly (rendered render_resource p).
Proof.
  intros Hr. unfold rendered.
  apply readonly_bind; [apply readonly_the_observable|].
  intros [v obs|items obs|t v obs];
    [by apply readonly_render_value..|apply readonly_throw].
Qed.

Lemma readonly_logicalId fuel r : readonly (logicalId fuel r).
Proof.
  unfold logicalId. apply readonly_bind; [apply readonly_constructPath|].
  intros p. apply readonly_ret.
Qed.

Lemma readonly_Resource_render fuel : ∀ r, readonly (Resource_render fuel r).
Proof.
  induction fuel as [|fuel IH]; intros r; [done|]. simpl.
  apply readonly_bind; [apply readonly_the_resource|].
  intros [[[c ty] props] links].
  apply readonly_bind; [apply readonly_logicalId|]. intros lid.
  apply readonly_bind; [|intros ps; apply readonly_ret].
  apply readonly_map_m. intros e.
  apply readonly_bind; [|intros v; apply readonly_ret].
  apply readonly_rendered. intros l.
  apply readonly_bind; [apply IH|]. intros d. apply readonly_ret.
Qed.

Lemma throws_within_Resource_render fuel : ∀ r,
  throws_within render_error (Resource_render fuel r).
Proof.
  assert (Hbad : render_error BadReference) by (by left).
  assert (Hty : render_error JsTypeError) by (by right).
  induction fuel as [|fuel IH]; intros r; [done|]. simpl.
  apply throws_within_bind; [by apply throws_within_the_resource|].
  intros [[[c ty] props] links].
  apply throws_within_bind.
  { unfold logicalId. apply throws_within_bind;
      [by apply throws_within_constructPath | intros; apply throws_within_ret]. }
  intros lid.
  apply throws_within_bind; [|intros ps; apply throws_within_ret].
  apply throws_within_map_m. intros e.
  apply throws_within_bind; [|intros v; apply throws_within_ret].
  unfold rendered.
  apply throws_within_bind; [by apply throws_within_the_observable|].
  assert (Hv : ∀ x, throws_within render_error
            (render_value (λ l, d ← Resource_render fuel l; ret (VObj d)) x)).
  { intros x. destruct x as [| |b|n|s|items|fs|l|r']; simpl;
      try apply throws_within_ret.
    - destruct (get fs "render") as [m|]; [|apply throws_within_ret].
      destruct (truthy m); [by apply throws_within_throw | apply throws_within_ret].
    - apply throws_within_bind; [by apply throws_within_the_construct|].
      intros c'. destruct (is_Resource c'); [|apply throws_within_ret].
      apply throws_within_bind; [apply IH | intros; apply throws_within_ret]. }
  intros [v obs|items obs|t v obs]; [apply Hv..|by apply throws_within_throw].
Qed.

(** A resource renders to one entry, keyed by its logical id: its path,
    joined. *)
Lemma Resource_render_Ok fuel r st d st' :
  Resource_render fuel r st = Ok d st' →
  st' = st
  ∧ ∃ p body, constructPath fuel r st = Ok p st ∧ d = [(join "" p, body)].
Proof.
  intros H. pose proof (readonly_Resource_render _ _ _ _ _ H) as ->.
  split; [done|]. destruct fuel as [|fuel]; [done|]. simpl in H.
  apply bind_Ok in H as ([[[c ty] props] links] & s1 & Hr & H).
  apply readonly_the_resource in Hr as Hs1. subst s1.
  apply bind_Ok in H as (lid & s1 & Hlid & H).
  apply readonly_logicalId in Hlid as Hs1. subst s1.
  apply bind_Ok in H as (ps & s1 & Hps & H).
  unfold ret in H. injection H as <- _.
  unfold logicalId in Hlid.
  apply bind_Ok in Hlid as (p & s2 & Hp & Hlid).
  apply readonly_constructPath in Hp as Hs2. subst s2.
  unfold ret in Hlid. injection Hlid as <-.
  eauto.
Qed.

Lemma render_value_plain (render_resource : loc → M value) st x :
  plain st x → render_value render_resource x st = Ok x st.
Proof.
  destruct x as [| |b|n|s|items|fs|l|r]; simpl; try done.
  - destruct (get fs "render") as [m|]; [|done]. by intros ->.
  - intros (c & Hc & Hr). rewrite (bind_the_construct _ _ _ _ Hc). by rewrite Hr.
Qed.

Lemma rendered_flat (render_resource : loc → M value) st p :
  flat_property st p →
  ∃ v, rendered render_resource p st = Ok v st.
Proof.
  unfold flat_property, rendered.
  destruct (observables st !! p) as [[v obs|items obs|]|] eqn:E; try done.
  - intros Hpl. rewrite (bind_the_observable _ _ _ _ E).
    exists v. by apply render_value_plain.
  - intros _. rewrite (bind_the_observable _ _ _ _ E). by eexists.
Qed.

Lemma Resource_render_returns fuel r st p :
  flat_resource st r → path_to st r p → length p < fuel →
  ∃ body, Resource_render fuel r st = Ok [(join "" p, body)] st.
Proof.
  intros (c & ty & props & links & Hc & Hf & Hflat) Hp Hlen.
  assert (Hlid : logicalId fuel r st = Ok (join "" p) st).
  { unfold logicalId.
    by rewrite (bind_eq_Ok _ _ _ _ _ (constructPath_returns _ _ _ _ Hp Hlen)). }
  destruct fuel as [|fuel]; [lia|]. cbn [Resource_render].
  rewrite (bind_eq_Ok _ _ _ _ _ (the_resource_eq _ _ _ _ _ _ Hc Hf)).
  cbv beta iota. rewrite (bind_eq_Ok _ _ _ _ _ Hlid).
  assert (Hps : ∃ ps, map_m
            (λ e, v ← rendered (λ l, d ← Resource_render fuel l; ret (VObj d))
                               (snd e);
                  ret (fst e, v))
            (entries props) st = Ok ps st).
  { assert (Hfl : Forall (λ e, flat_property st (snd e)) (entries props))
      by (by rewrite entries_perm).
    induction Hfl as [|e es He _ IH]; simpl; [by eexists|].
    destruct (rendered_flat (λ l, d ← Resource_render fuel l; ret (VObj d))
                st _ He) as [v Hv].
    destruct IH as [ps Hps].
    exists ((fst e, v) :: ps).
    assert (H1 : bind (rendered (λ l, d ← Resource_render fuel l; ret (VObj d))
                                (snd e))
                   (λ v, ret (fst e, v)) st = Ok (fst e, v) st)
      by (by rewrite (bind_eq_Ok _ _ _ _ _ Hv)).
    by rewrite (bind_eq_Ok _ _ _ _ _ H1), (bind_eq_Ok _ _ _ _ _ Hps). }
  destruct Hps as [ps Hps]. rewrite (bind_eq_Ok _ _ _ _ _ Hps).
  by eexists.
Qed.

(** ** Merging *)

Lemma get_app {V} (o1 o2 : obj V) (k : string) :
  get (o1 ++ o2) k = match get o1 k with Some v => Some v | None => get o2 k end.
Proof.
  induction o1 as [|[k' v'] o1 IH]; simpl; [done|].
  by destruct (String.eqb k' k).
Qed.

Lemma get_set {V} (o : obj V) (k k' : string) (v : V) :
  get (set o k v) k' = if String.eqb k k' then Some v else get o k'.
Proof.
  destruct (String.eqb k k') eqn:E.
  - apply String.eqb_eq in E as ->. apply get_set_eq.
  - apply String.eqb_neq in E. by apply get_set_ne.
Qed.

(** After a sequence of assignments a key holds what was assigned to it
    last. *)
Lemma get_foldl_set {V} (es : list (string * V)) : ∀ (o : obj V) (k : string),
  get (foldl (λ o e, set o (fst e) (snd e)) o es) k
  = match get (reverse es) k with Some v => Some v | None => get o k end.
Proof.
  induction es as [|[k' v'] es IH]; intros o k; simpl; [done|].
  rewrite IH, reverse_cons, get_app, get_set. simpl.
  destruct (get (reverse es) k); [done|]. by destruct (String.eqb k' k).
Qed.

Lemma assign_singleton {V} (o : obj V) (k : string) (v : V) :
  assign o [(k, v)] = if String.eqb k "__proto__" then o else set o k v.
Proof. unfold assign. by rewrite entries_singleton. Qed.

(** Merging one-entry documents: the entries are assigned in order, but for
    those under [__proto__]. *)
Lemma foldl_assign_singletons {V} (es : list (string * V)) : ∀ o : obj V,
  foldl assign o (map (λ e, [e]) es)
  = foldl (λ o e, set o (fst e) (snd e)) o
      (filter (λ e, fst e ≠ "__proto__") es).
Proof.
  induction es as [|[k v] es IH]; intros o; [done|].
  cbn [map foldl]. rewrite assign_singleton, IH, filter_cons. simpl.
  destruct (String.eqb_spec k "__proto__") as [->|Hne].
  - by rewrite decide_False by (by intros ?).
  - by rewrite decide_True.
Qed.

Lemma get_filter_ne {V} (es : obj V) (k0 k : string) :
  get (filter (λ e, fst e ≠ k0) es) k
  = if String.eqb k k0 then None else get es k.
Proof.
  induction es as [|[k' v] es IH]; simpl.
  - by destruct (String.eqb k k0).
  - rewrite filter_cons. simpl. destruct (decide (k' ≠ k0)) as [Hne|He].
    + simpl. rewrite IH. destruct (String.eqb_spec k' k) as [Hkk|Hkk]; [|done].
      destruct (String.eqb_spec k k0) as [Hk0|Hk0]; [congruence|done].
    + apply dec_stable in He. rewrite IH.
      destruct (String.eqb_spec k k0) as [Hk0|Hk0]; [done|].
      destruct (String.eqb_spec k' k) as [Hkk|Hkk]; [congruence|done].
Qed.

(** ** Rendering a tree *)

Lemma map_m_returns {A B} (f : A → M B) (xs : list A) st :
  Forall (λ x, ∃ y, f x st = Ok y st) xs →
  ∃ ys, map_m f xs st = Ok ys st.
Proof.
  induction 1 as [|x xs [y Hy] _ [ys Hys]]; simpl; [by eexists|].
  exists (y :: ys). by rewrite (bind_eq_Ok _ _ _ _ _ Hy), (bind_eq_Ok _ _ _ _ _ Hys).
Qed.

Lemma readonly_keyed fuel r :
  readonly (p ← constructPath fuel r; ret (p, r)).
Proof.
  apply readonly_bind; [apply readonly_constructPath|].
  intros p. apply readonly_ret.
Qed.

Lemma keyed_Ok fuel r st e :
  (p ← constructPath fuel r; ret (p, r)) st = Ok e st
  ↔ constructPath fuel r st = Ok (fst e) st ∧ snd e = r.
Proof.
  split.
  - intros (p & s1 & Hp & Hret)%bind_Ok.
    apply readonly_constructPath in Hp as Hs. subst s1.
    unfold ret in Hret. injection Hret as <-. by split.
  - intros [Hp <-]. rewrite (bind_eq_Ok _ _ _ _ _ Hp). by destruct e.
Qed.

(** [renderAll], step by step, when it returns. *)
Lemma renderAll_Ok localeCompare fuel scope st doc st' :
  renderAll localeCompare fuel scope st = Ok doc st' ↔
  st' = st
  ∧ ∃ res keyed docs,
      findAll fuel scope st = Ok res st
      ∧ Forall2 (λ r e, constructPath fuel r st = Ok (fst e) st ∧ snd e = r)
                res keyed
      ∧ Forall2 (λ e d, Resource_render fuel (snd e) st = Ok d st)
                (stable_sort (by_path localeCompare) keyed) docs
      ∧ doc = foldl assign [] docs.
Proof.
  unfold renderAll. split.
  - intros (res & s1 & Hres & H)%bind_Ok.
    apply readonly_findAll in Hres as Hs. subst s1.
    apply bind_Ok in H as (keyed & s1 & Hkeyed & H).
    apply map_m_Ok in Hkeyed as [-> Hkeyed]; [|intros; apply readonly_keyed].
    apply bind_Ok in H as (docs & s1 & Hdocs & H).
    apply map_m_Ok in Hdocs as [-> Hdocs];
      [|intros; apply readonly_Resource_render].
    unfold ret in H. injection H as <- <-.
    split; [done|]. exists res, keyed, docs. split; [done|].
    split; [|done].
    eapply Forall2_impl; [exact Hkeyed|]. intros r e. apply keyed_Ok.
  - intros (-> & res & keyed & docs & Hres & Hkeyed & Hdocs & ->).
    rewrite (bind_eq_Ok _ _ _ _ _ Hres).
    erewrite bind_eq_Ok.
    2:{ apply map_m_Ok_intro. eapply Forall2_impl; [exact Hkeyed|].
        intros r e. apply keyed_Ok. }
    erewrite bind_eq_Ok; [|apply map_m_Ok_intro; exact Hdocs]. done.
Qed.

Lemma throws_within_renderAll localeCompare fuel scope :
  throws_within render_error (renderAll localeCompare fuel scope).
Proof.
  assert (Hbad : render_error BadReference) by (by left).
  unfold renderAll.
  apply throws_within_bind; [by apply throws_within_findAll|]. intros res.
  apply throws_within_bind.
  { apply throws_within_map_m. intros r.
    apply throws_within_bind; [by apply throws_within_constructPath|].
    intros; apply throws_within_ret. }
  intros keyed.
  apply throws_within_bind; [|intros; apply throws_within_ret].
  apply throws_within_map_m. intros e. apply throws_within_Resource_render.
Qed.

Lemma keyed_resources fuel st (res : list loc) (keyed : list (list string * loc)) :
  Forall2 (λ r e, constructPath fuel r st = Ok (fst e) st ∧ snd e = r) res keyed →
  map snd keyed = res
  ∧ Forall (λ e, constructPath fuel (snd e) st = Ok (fst e) st) keyed.
Proof.
  induction 1 as [|r e res keyed [Hp He] _ [IH1 IH2]]; simpl; [done|].
  split; [by rewrite He, IH1|]. constructor; [by rewrite He|done].
Qed.

Lemma rendered_entries fuel st (sorted : list (list string * loc))
    (docs : list (obj value)) :
  Forall (λ e, constructPath fuel (snd e) st = Ok (fst e) st) sorted →
  Forall2 (λ e d, Resource_render fuel (snd e) st = Ok d st) sorted docs →
  ∃ rendered : list (string * value),
    docs = map (λ kv, [kv]) rendered
    ∧ Forall2 (λ e kv, Resource_render fuel (snd e) st = Ok [kv] st
                       ∧ fst kv = join "" (fst e)) sorted rendered.
Proof.
  intros Hpaths Hdocs. induction Hdocs as [|e d sorted docs Hd _ IH].
  - exists []. by split.
  - apply Forall_cons in Hpaths as [Hp Hps].
    destruct (IH Hps) as (rendered & -> & Hall).
    destruct (Resource_render_Ok _ _ _ _ _ Hd) as (_ & p & body & Hp' & ->).
    rewrite Hp in Hp'. injection Hp' as <-.
    exists ((join "" (fst e), body) :: rendered). split; [done|].
    constructor; [by split|done].
Qed.

(** C2, as the code has it: [renderAll] collects the resources of the tree,
    sorts them by their joined path with [localeCompare], renders each to one
    entry keyed by its logical id, and merges the entries with
    [Object.assign].  It never throws [DuplicateLogicalIdError]: when several
    resources render to one key, the document holds under that key what the
    last of them in sorted order renders to.  The one key that the merge
    cannot write is [__proto__]: the document has no entry under it,
    whatever resources render to it.  On a tree whose resources have finite
    paths and plain property values it returns, given enough fuel. *)
Theorem renderAll_last_resource_wins (localeCompare : string → string → Z)
    (fuel : nat) (scope : loc) (st : store) :
  (∀ e st', renderAll localeCompare fuel scope st = Throw e st' →
     e ≠ DuplicateLogicalIdError)
  ∧ (∀ doc st', renderAll localeCompare fuel scope st = Ok doc st' →
       st' = st
       ∧ ∃ (sorted : list (list string * loc)) (rendered : list (string * value)),
           (∀ r, r ∈ map snd sorted ↔ resource_below st scope r)
           ∧ Forall (λ e, path_to st (snd e) (fst e)) sorted
           ∧ (consistent_on (by_path localeCompare) (λ e, e ∈ sorted) →
              StronglySorted (λ a b, by_path localeCompare a b = true) sorted)
           ∧ Forall2 (λ e kv, Resource_render fuel (snd e) st = Ok [kv] st
                              ∧ fst kv = join "" (fst e)) sorted rendered
           ∧ ∀ k, get doc k = if String.eqb k "__proto__" then None
                              else get (reverse rendered) k)
  ∧ (∀ t, shape st t → root_of t = scope → size t ≤ fuel →
       (∀ r, resource_below st scope r →
          flat_resource st r ∧ ∃ p, path_to st r p ∧ length p < fuel) →
       ∃ doc, renderAll localeCompare fuel scope st = Ok doc st).
Proof.
  split; [|split].
  - intros e st' H. apply throws_within_renderAll in H as [-> | ->]; done.
  - intros doc st' H.
    apply renderAll_Ok in H as (-> & res & keyed & docs & Hres & Hkeyed & Hdocs & ->).
    split; [done|].
    apply findAll_Ok in Hres as [_ Hres].
    apply keyed_resources in Hkeyed as [Hsnd Hpaths].
    set (sorted := stable_sort (by_path localeCompare) keyed) in *.
    assert (Hperm : sorted ≡ₚ keyed) by apply stable_sort_perm.
    assert (Hpaths' : Forall (λ e, constructPath fuel (snd e) st = Ok (fst e) st)
                             sorted) by (by rewrite Hperm).
    destruct (rendered_entries _ _ _ _ Hpaths' Hdocs) as (rendered & -> & Hrend).
    exists sorted, rendered. split; [|split; [|split; [|split]]].
    + intros r. rewrite Hperm, Hsnd. apply Hres.
    + eapply Forall_impl; [exact Hpaths'|]. intros e He.
      by apply constructPath_Ok in He as [_ He].
    + intros Hcons. apply (stable_sort_StronglySorted _ (λ e, e ∈ sorted)); [done|].
      apply Forall_forall. intros e He. by rewrite Hperm.
    + done.
    + intros k.
      rewrite foldl_assign_singletons, get_foldl_set, <- filter_reverse.
      rewrite get_filter_ne. simpl.
      destruct (String.eqb k "__proto__"); [done|].
      by destruct (get (reverse rendered) k).
  - intros t Hsh <- Hsz Hwf.
    destruct (findAll_returns _ _ _ Hsh Hsz) as [res Hres].
    pose proof (findAll_Ok _ _ _ _ _ Hres) as [_ Hspec].
    assert (Hk : ∃ keyed, Forall2 (λ r e, constructPath fuel r st = Ok (fst e) st
                                          ∧ snd e = r) res keyed).
    { assert (Hall : Forall (λ r, resource_below st (root_of t) r) res)
        by (apply Forall_forall; intros r Hr; by apply Hspec).
      clear Hres Hspec. induction Hall as [|r res Hr _ [keyed IH]].
      - by exists [].
      - destruct (Hwf r Hr) as (_ & p & Hp & Hlen).
        exists ((p, r) :: keyed). constructor; [|done].
        split; [by apply constructPath_returns | done]. }
    destruct Hk as [keyed Hkeyed].
    pose proof (keyed_resources _ _ _ _ Hkeyed) as [Hsnd Hpaths].
    assert (Hperm : stable_sort (by_path localeCompare) keyed ≡ₚ keyed)
      by apply stable_sort_perm.
    assert (Hd : ∃ docs, Forall2 (λ e d, Resource_render fuel (snd e) st = Ok d st)
                                 (stable_sort (by_path localeCompare) keyed) docs).
    { assert (Hall : Forall (λ e, resource_below st (root_of t) (snd e)
                                  ∧ path_to st (snd e) (fst e))
                            (stable_sort (by_path localeCompare) keyed)).
      { rewrite Hperm. apply Forall_forall. intros e He. split.
        - apply Hspec. rewrite <- Hsnd. by apply list_elem_of_fmap_2.
        - rewrite Forall_forall in Hpaths.
          by destruct (constructPath_Ok _ _ _ _ _ (Hpaths e He)). }
      clear Hperm. revert Hall.
      generalize (stable_sort (by_path localeCompare) keyed). intros sorted Hall.
      induction Hall as [|e es [Hb Hp] _ [docs IH]].
      - by exists [].
      - destruct (Hwf _ Hb) as (Hflat & p & Hp' & Hlen).
        destruct (Resource_render_returns fuel _ _ _ Hflat Hp' Hlen) as [body Hr].
        eexists (_ :: docs). constructor; [exact Hr | done]. }
    destruct Hd as [docs Hdocs].
    eexists. apply renderAll_Ok. split; [done|].
    exists res, keyed, docs. done.
Qed.

Lemma stable_sort_pair {A} (le : A → A → bool) (a b : A) :
  stable_sort le [a; b] = if le a b then [a; b] else [b; a].
Proof. reflexivity. Qed.

(** C2, where the claim fails: the resources 4 and 5 have the same logical
    id, and [renderAll] returns a document with that one key instead of
    failing, whatever the comparator. *)
Lemma renderAll_overwrites_equal_logical_ids :
  logicalId 9 4 clash_store_1 = Ok "A/B" clash_store_1
  ∧ logicalId 9 5 clash_store_1 = Ok "A/B" clash_store_1
  ∧ findAll 9 1 clash_store_1 = Ok [4; 5] clash_store_1
  ∧ ∀ localeCompare, ∃ doc,
      renderAll localeCompare 9 1 clash_store_1 = Ok doc clash_store_1
      ∧ keys doc = ["A/B"].
Proof.
  split; [reflexivity|]. split; [reflexivity|]. split; [reflexivity|].
  intros localeCompare.
  set (a := (["A/"; "B"], 4)). set (b := (["A"; "/B"], 5)).
  destruct (by_path localeCompare a b) eqn:E.
  - eexists. split.
    + apply renderAll_Ok. split; [done|].
      exists [4; 5], [a; b]. eexists. split; [reflexivity|].
      split; [repeat constructor|]. rewrite stable_sort_pair, E.
      split; [|reflexivity].
      constructor; [reflexivity|]. constructor; [reflexivity|]. constructor.
    + reflexivity.
  - eexists. split.
    + apply renderAll_Ok. split; [done|].
      exists [4; 5], [a; b]. eexists. split; [reflexivity|].
      split; [repeat constructor|]. rewrite stable_sort_pair, E.
      split; [|reflexivity].
      constructor; [reflexivity|]. constructor; [reflexivity|]. constructor.
    + reflexivity.
Qed.

(** ** Insertion order *)

Lemma readonly_describe fuel r : readonly (describe fuel r).
Proof.
  apply readonly_bind; [apply readonly_constructPath|].
  intros p. apply readonly_bind; [apply readonly_Resource_render|].
  intros d. apply readonly_ret.
Qed.

(** The resources found, each with its path and its rendering. *)
Lemma descriptions_combined fuel st (res : list loc)
    (D : list (list string * obj value)) :
  Forall2 (λ r e, describe fuel r st = Ok e st) res D →
  ∃ K : list (list string * (loc * obj value)),
    res = map (λ x, fst (snd x)) K
    ∧ D = map (λ x, (fst x, snd (snd x))) K
    ∧ Forall (λ x, constructPath fuel (fst (snd x)) st = Ok (fst x) st
                   ∧ Resource_render fuel (fst (snd x)) st
                     = Ok (snd (snd x)) st) K.
Proof.
  induction 1 as [|r e res D He _ (K & -> & -> & HK)].
  - by exists [].
  - unfold describe in He.
    apply bind_Ok in He as (p & s1 & Hp & He).
    apply readonly_constructPath in Hp as Hs. subst s1.
    apply bind_Ok in He as (d & s1 & Hd & He).
    apply readonly_Resource_render in Hd as Hs. subst s1.
    unfold ret in He. injection He as <-.
    exists ((p, (r, d)) :: K). split; [done|]. split; [done|].
    by constructor.
Qed.

(** [renderAll] from the descriptions of the resources. *)
Lemma renderAll_descriptions localeCompare fuel scope st D :
  descriptions fuel scope st = Ok D st →
  renderAll localeCompare fuel scope st
  = Ok (foldl assign [] (map snd (stable_sort (by_key localeCompare) D))) st.
Proof.
  intros (res & s1 & Hres & HD)%bind_Ok.
  apply readonly_findAll in Hres as Hs. subst s1.
  apply map_m_Ok in HD as [_ HD]; [|apply readonly_describe].
  destruct (descriptions_combined _ _ _ _ HD) as (K & -> & -> & HK).
  set (fk := λ x : list string * (loc * obj value), (fst x, fst (snd x))).
  set (fd := λ x : list string * (loc * obj value), (fst x, snd (snd x))).
  apply renderAll_Ok. split; [done|].
  exists (map (λ x, fst (snd x)) K), (map fk K),
         (map (λ x, snd (snd x)) (stable_sort (by_key localeCompare) K)).
  split; [done|]. split; [|split].
  - apply Forall2_fmap. apply Forall_Forall2_diag.
    eapply Forall_impl; [exact HK|]. by intros x [Hp _].
  - rewrite (stable_sort_map (by_key localeCompare) (by_path localeCompare) fk)
      by done.
    apply Forall2_fmap. apply Forall_Forall2_diag.
    rewrite stable_sort_perm.
    eapply Forall_impl; [exact HK|]. by intros x [_ Hd].
  - rewrite (stable_sort_map (by_key localeCompare) (by_key localeCompare) fd)
      by done.
    by rewrite <- list_fmap_compose.
Qed.

(** Where the sort does make the render stable: two trees whose resources
    have the same paths and render to the same entries, whatever the order
    in which the children were inserted, render to the same document,
    provided that the comparator is consistent on the sort keys and that no
    two of the resources have sort keys that compare equal. *)
Theorem renderAll_insertion_order (localeCompare : string → string → Z)
    (fuel1 fuel2 : nat) (scope1 scope2 : loc) (st1 st2 : store)
    (D1 D2 : list (list string * obj value)) :
  descriptions fuel1 scope1 st1 = Ok D1 st1 →
  descriptions fuel2 scope2 st2 = Ok D2 st2 →
  D1 ≡ₚ D2 →
  consistent_on (by_key localeCompare) (λ e, e ∈ D1) →
  (∀ a b, a ∈ D1 → b ∈ D1 →
     by_key localeCompare a b = true → by_key localeCompare b a = true →
     a = b) →
  ∃ doc,
    renderAll localeCompare fuel1 scope1 st1 = Ok doc st1
    ∧ renderAll localeCompare fuel2 scope2 st2 = Ok doc st2.
Proof.
  intros H1 H2 Hperm Hcons Hanti.
  rewrite (renderAll_descriptions _ _ _ _ _ H1).
  rewrite (renderAll_descriptions _ _ _ _ _ H2).
  eexists. split; [reflexivity|]. do 3 f_equal.
  assert (Hin : ∀ e, e ∈ D2 ↔ e ∈ D1) by (intros e; by rewrite Hperm).
  apply (StronglySorted_unique_strong (λ a b, by_key localeCompare a b = true)).
  - intros a b Ha Hb. rewrite stable_sort_perm in Ha, Hb.
    apply Hanti; first [done | by apply Hin].
  - apply (stable_sort_StronglySorted _ (λ e, e ∈ D1)); [done|].
    apply Forall_forall. intros e He. first [done | by apply Hin].
  - apply (stable_sort_StronglySorted _ (λ e, e ∈ D1)); [done|].
    apply Forall_forall. intros e He. first [done | by apply Hin].
  - rewrite !stable_sort_perm. done.
Qed.

(** The resources ["A"] and ["B"] under one root, inserted in either
    order. *)
Lemma renderAll_insertion_order_witness :
  ∃ doc,
    renderAll codeUnitCompare 9 1 order_store_1 = Ok doc order_store_1
    ∧ renderAll codeUnitCompare 9 1 order_store_2 = Ok doc order_store_2.
Proof.
  eapply (renderAll_insertion_order codeUnitCompare 9 9 1 1
            order_store_1 order_store_2).
  - vm_compute. reflexivity.
  - vm_compute. reflexivity.
  - apply Permutation_swap.
  - split.
    + intros a b Ha Hb.
      repeat (apply elem_of_cons in Ha as [->|Ha]);
        repeat (apply elem_of_cons in Hb as [->|Hb]);
        try (by apply elem_of_nil in Ha); try (by apply elem_of_nil in Hb);
        vm_compute; auto.
    + intros a b c Ha Hb Hc.
      repeat (apply elem_of_cons in Ha as [->|Ha]);
        repeat (apply elem_of_cons in Hb as [->|Hb]);
        repeat (apply elem_of_cons in Hc as [->|Hc]);
        try (by apply elem_of_nil in Ha); try (by apply elem_of_nil in Hb);
        try (by apply elem_of_nil in Hc);
        vm_compute; auto.
  - intros a b Ha Hb.
    repeat (apply elem_of_cons in Ha as [->|Ha]);
      repeat (apply elem_of_cons in Hb as [->|Hb]);
      try (by apply elem_of_nil in Ha); try (by apply elem_of_nil in Hb);
      vm_compute; intros; congruence.
Defined.

(** C9 (the renderer, at an input where the claim fails): the two stores
    hold the same resources at the same paths with the same contents, and
    differ only in the order in which the children of the root were
    inserted.  The two resources have the same sort key, so the sort that is
    to stabilise the render keeps the order in which they were found, and
    the same logical id, so the one found last wins: the documents differ. *)
Lemma renderAll_differs_on_equal_sort_keys :
  (∃ D1 D2,
     descriptions 9 1 clash_store_1 = Ok D1 clash_store_1
     ∧ descriptions 9 1 clash_store_2 = Ok D2 clash_store_2
     ∧ D1 ≡ₚ D2)
  ∧ children_of clash_store_1 1 ≡ₚ [("A", 3); ("A/", 2)]
  ∧ children_of clash_store_2 1 ≡ₚ [("A/", 3); ("A", 2)]
  ∧ ∀ localeCompare : string → string → Z,
      localeCompare "A//B" "A//B" = 0%Z →
      ∃ d1 d2,
        renderAll localeCompare 9 1 clash_store_1 = Ok d1 clash_store_1
        ∧ renderAll localeCompare 9 1 clash_store_2 = Ok d2 clash_store_2
        ∧ d1 ≠ d2.
Proof.
  split; [|split; [|split]].
  - eexists _, _. split; [vm_compute; reflexivity|].
    split; [vm_compute; reflexivity|]. apply Permutation_swap.
  - apply Permutation_swap.
  - apply Permutation_swap.
  - intros localeCompare Hrefl.
    assert (E1 : by_path localeCompare (["A/"; "B"], 4) (["A"; "/B"], 5) = true).
    { change ((localeCompare "A//B" "A//B" <=? 0)%Z = true). by rewrite Hrefl. }
    assert (E2 : by_path localeCompare (["A"; "/B"], 5) (["A/"; "B"], 4) = true).
    { change ((localeCompare "A//B" "A//B" <=? 0)%Z = true). by rewrite Hrefl. }
    eexists _, _. split; [|split].
    + apply renderAll_Ok. split; [done|].
      exists [4; 5], [(["A/"; "B"], 4); (["A"; "/B"], 5)]. eexists.
      split; [reflexivity|]. split; [repeat constructor|].
      rewrite stable_sort_pair, E1. split; [|reflexivity].
      constructor; [reflexivity|]. constructor; [reflexivity|]. constructor.
    + apply renderAll_Ok. split; [done|].
      exists [5; 4], [(["A"; "/B"], 5); (["A/"; "B"], 4)]. eexists.
      split; [reflexivity|]. split; [repeat constructor|].
      rewrite stable_sort_pair, E2. split; [|reflexivity].
      constructor; [reflexivity|]. constructor; [reflexivity|]. constructor.
    + vm_compute. intros [=].
Qed.

(** Two resources under one key: the resources 4 and 5 of [clash_store_1]
    both render under ["A/B"], and the document holds what the last of them
    in sorted order renders to. *)
Lemma renderAll_last_resource_wins_witness :
  ∃ doc,
    renderAll codeUnitCompare 9 1 clash_store_1 = Ok doc clash_store_1
    ∧ ∃ (sorted : list (list string * loc)) (rendered : list (string * value)),
        (∀ r, r ∈ map snd sorted ↔ resource_below clash_store_1 1 r)
        ∧ Forall2 (λ e kv, Resource_render 9 (snd e) clash_store_1
                           = Ok [kv] clash_store_1
                           ∧ fst kv = join "" (fst e)) sorted rendered
        ∧ ∀ k, get doc k = if String.eqb k "__proto__" then None
                           else get (reverse rendered) k.
Proof.
  destruct (renderAll_last_resource_wins codeUnitCompare 9 1 clash_store_1)
    as (_ & Hmerge & Hreturns).
  destruct (Hreturns (Node 1 [Node 2 [Node 4 []]; Node 3 [Node 5 []]]))
    as [doc Hdoc].
  - eapply shape_node; [reflexivity|reflexivity|].
    constructor; [|constructor; [|constructor]].
    + eapply shape_node; [reflexivity|reflexivity|].
      constructor; [|constructor].
      eapply shape_node; [reflexivity|reflexivity|constructor].
    + eapply shape_node; [reflexivity|reflexivity|].
      constructor; [|constructor].
      eapply shape_node; [reflexivity|reflexivity|constructor].
  - reflexivity.
  - simpl. lia.
  - intros r Hr.
    assert (Hfound : findAll 9 1 clash_store_1 = Ok [4; 5] clash_store_1)
      by reflexivity.
    apply findAll_Ok in Hfound as [_ Hfound]. apply Hfound in Hr.
    assert (Hroot : path_to clash_store_1 1 []).
    { eapply path_stop; reflexivity. }
    apply elem_of_cons in Hr as [->|Hr];
      [|apply list_elem_of_singleton in Hr as ->].
    + split.
      * eexists _, _, _, _. split; [reflexivity|]. split; [reflexivity|].
        constructor.
      * exists ["A/"; "B"]. split; [|simpl; lia].
        eapply (path_step _ 4 _ 2 "B" ["A/"]); [reflexivity|reflexivity|].
        eapply (path_step _ 2 _ 1 "A/" []); [reflexivity|reflexivity|].
        exact Hroot.
    + split.
      * eexists _, _, _, _. split; [reflexivity|]. split; [reflexivity|].
        constructor.
      * exists ["A"; "/B"]. split; [|simpl; lia].
        eapply (path_step _ 5 _ 3 "/B" ["A"]); [reflexivity|reflexivity|].
        eapply (path_step _ 3 _ 1 "A" []); [reflexivity|reflexivity|].
        exact Hroot.
  - exists doc. split; [exact Hdoc|].
    destruct (Hmerge doc _ Hdoc) as (_ & sorted & rendered & H1 & _ & _ & H4 & H5).
    exists sorted, rendered. split; [exact H1|]. split; [exact H4|exact H5].
Defined.

(** * Further properties *)

(** ** More on the monad *)

Lemma bind_ret_l {A B} (a : A) (k : A → M B) st : bind (ret a) k st = k a st.
Proof. reflexivity. Qed.

Lemma bind_modify {B} (f : store → store) (k : unit → M B) st :
  bind (modify f) k st = k tt (f st).
Proof. reflexivity. Qed.

Lemma bind_congr {A B} (m m' : M A) (k : A → M B) st st' :
  m st = m' st' → bind m k st = bind m' k st'.
Proof. unfold bind. by intros ->. Qed.

Lemma for_each_cons {A} (x : A) (xs : list A) (body : A → M unit) st :
  for_each (x :: xs) body st = bind (body x) (λ _, for_each xs body) st.
Proof. reflexivity. Qed.

Lemma for_each_ext {A} (xs : list A) (f g : A → M unit) st :
  (∀ x s, x ∈ xs → f x s = g x s) → for_each xs f st = for_each xs g st.
Proof.
  revert st. induction xs as [|x xs IH]; intros st Hfg; simpl; [done|].
  unfold bind. rewrite Hfg by left.
  destruct (g x st) as [[] st1| |]; [|done..].
  apply IH. intros y s Hy. apply Hfg. by right.
Qed.

Lemma for_each_unchanged {A} (xs : list A) (body : A → M unit) st :
  (∀ x, x ∈ xs → body x st = Ok tt st) → for_each xs body st = Ok tt st.
Proof.
  induction xs as [|x xs IH]; intros Hb; simpl; [done|].
  unfold bind. rewrite Hb by left. apply IH. intros y Hy. apply Hb. by right.
Qed.

(** ** More on the construct tree *)

(** The constructor, step by step, when the scope and the id are there. *)
Lemma Construct_new_eq (flds : class_fields) (st : store) (p : loc) (k : string) :
  Construct_new flds (Just p) (Just k) st
  = let st0 := bump (upd_construct (next st)
                       (mkConstruct (Just p) (Just k) [] [] flds) st) in
    if truthy_string k then
      match constructs st0 !! p with
      | Some pc =>
          if has (children pc) k || inherited k then Throw DuplicateIdError st0
          else Ok (next st)
                 (upd_construct p
                    (set_children (set (children pc) k (next st)) pc) st0)
      | None => Throw BadReference st0
      end
    else Ok (next st) st0.
Proof.
  unfold Construct_new, new_construct. unfold bind at 1 2. simpl.
  destruct (truthy_string k); [|done].
  unfold bind, the_construct. simpl.
  destruct (<[next st:=_]> (constructs st) !! p) as [pc|]; [|done].
  by destruct (has (children pc) k || inherited k).
Qed.

(** X1.  [new Construct(scope, id)] under an id the scope has a child for
    throws [DuplicateIdError].  The object of the failed construction is
    the only thing the store gains: every construct that was there, the
    scope and its children among them, is as before, and so are the
    properties. *)
Theorem Construct_new_duplicate (flds : class_fields) (st : store) (p : loc)
    (k : string) (pc : Construct) :
  constructs st !! p = Some pc →
  constructs st !! next st = None →
  truthy_string k = true →
  has (children pc) k = true →
  ∃ st', Construct_new flds (Just p) (Just k) st = Throw DuplicateIdError st'
    ∧ (∀ l, l ≠ next st → constructs st' !! l = constructs st !! l)
    ∧ children_of st' p = children pc
    ∧ observables st' = observables st.
Proof.
  intros Hp Hn Hk Hh.
  assert (Hne : p ≠ next st) by congruence.
  rewrite Construct_new_eq. simpl. rewrite Hk, lookup_insert_ne, Hp, Hh by done.
  eexists. split; [reflexivity|]. simpl. split; [|split; [|done]].
  - intros l Hl. by rewrite lookup_insert_ne.
  - unfold children_of. simpl. by rewrite lookup_insert_ne, Hp.
Qed.

Lemma Construct_new_duplicate_witness :
  ∃ st', Construct_new PlainConstruct (Just 1) (Just "x") conflict_store
         = Throw DuplicateIdError st'
    ∧ (∀ l, l ≠ next conflict_store →
         constructs st' !! l = constructs conflict_store !! l)
    ∧ children_of st' 1 = [("x", 2)]
    ∧ observables st' = observables conflict_store.
Proof.
  exact (Construct_new_duplicate PlainConstruct conflict_store 1 "x" _
           eq_refl eq_refl eq_refl eq_refl).
Defined.

(** X2.  The empty string is an id the constructor accepts and then
    ignores: [new Construct(scope, '')] throws nothing and returns a node
    that names [scope] as its scope, and no construct that was there is
    touched, so the scope has no child for it.  The path of the node is
    empty, as the path of a root is. *)
Theorem Construct_new_empty_id (flds : class_fields) (st : store) (p : loc) :
  ∃ st', Construct_new flds (Just p) (Just "") st = Ok (next st) st'
    ∧ scope_of st' (next st) = Just p
    ∧ id_of st' (next st) = Just ""
    ∧ (∀ l, l ≠ next st → constructs st' !! l = constructs st !! l)
    ∧ ∀ fuel, constructPath (S fuel) (next st) st' = Ok [] st'.
Proof.
  rewrite Construct_new_eq. simpl. eexists. split; [reflexivity|].
  unfold scope_of, id_of. simpl. rewrite lookup_insert_eq. simpl.
  repeat split.
  - intros l Hl. by rewrite lookup_insert_ne.
  - intros fuel. unfold constructPath.
    erewrite constructPath_loop_step; [|simpl; apply lookup_insert_eq]. done.
Qed.

(** A path is read off the scopes and ids of the nodes on it: it is the
    same in a store in which these are the same. *)
Lemma path_to_ext (st st' : store) (l : loc) (ks : list string) :
  (∀ l c, constructs st !! l = Some c →
          ∃ c', constructs st' !! l = Some c' ∧ climb c' = climb c) →
  path_to st l ks → path_to st' l ks.
Proof.
  intros Hext. induction 1 as [l c Hc Hcl|l c p k ks Hc Hcl _ IH].
  - destruct (Hext _ _ Hc) as (c' & Hc' & E).
    eapply path_stop; [exact Hc'|by rewrite E].
  - destruct (Hext _ _ Hc) as (c' & Hc' & E).
    eapply path_step; [exact Hc'|by rewrite E|done].
Qed.

Lemma string_app_assoc (a b c : string) : (a +:+ b) +:+ c = a +:+ (b +:+ c).
Proof.
  induction a as [|x a IH]; [done|].
  change (String x ((a +:+ b) +:+ c) = String x (a +:+ (b +:+ c))).
  by rewrite IH.
Qed.

Lemma join_empty_snoc (ks : list string) (k : string) :
  join "" (ks ++ [k]) = join "" ks +:+ k.
Proof.
  induction ks as [|a ks IH]; [done|].
  destruct ks as [|b ks]; [done|].
  change (join "" ((a :: b :: ks) ++ [k]))
    with (a +:+ join "" ((b :: ks) ++ [k])).
  rewrite IH.
  change (join "" (a :: b :: ks)) with (a +:+ join "" (b :: ks)).
  by rewrite string_app_assoc.
Qed.

(** X3.  The path of a new child is the path of its scope followed by its
    id, and its logical id is the ids of the path written one after the
    other: the constructor registers the child without changing the path of
    any node that was there.  This is so for an id under which
    [scope.children] finds nothing; under the name of a member that every
    object inherits (['constructor'], ['toString'], ...) it finds that
    member, and the constructor throws [DuplicateIdError] though the scope
    has no such child. *)
Theorem Construct_new_path (flds : class_fields) (st : store) (p : loc)
    (k : string) (ks : list string) (fuel : nat) :
  constructs st !! next st = None →
  path_to st p ks →
  truthy_string k = true →
  has (children_of st p) k = false →
  (inherited k = true →
   ∃ st', Construct_new flds (Just p) (Just k) st = Throw DuplicateIdError st'
     ∧ children_of st' p = children_of st p)
  ∧ (inherited k = false →
     length ks + 1 < fuel →
     ∃ st', Construct_new flds (Just p) (Just k) st = Ok (next st) st'
       ∧ constructPath fuel p st' = Ok ks st'
       ∧ constructPath fuel (next st) st' = Ok (ks ++ [k]) st'
       ∧ logicalId fuel (next st) st' = Ok (join "" ks +:+ k) st').
Proof.
  intros Hn Hpath Hk Hh.
  assert (∃ pc, constructs st !! p = Some pc) as [pc Hp].
  { inversion Hpath; eauto. }
  assert (Hne : p ≠ next st) by congruence.
  unfold children_of in Hh |- *. rewrite Hp in Hh |- *.
  rewrite Construct_new_eq. simpl. rewrite Hk, lookup_insert_ne, Hp, Hh by done.
  split; intros Hi; rewrite Hi; simpl.
  { eexists. split; [reflexivity|]. simpl. by rewrite lookup_insert_ne, Hp. }
  intros Hfuel.
  eexists. split; [reflexivity|].
  set (st' := upd_construct p _ _).
  assert (Hp' : path_to st' p ks).
  { eapply path_to_ext; [|done]. intros l c Hc. subst st'. simpl.
    destruct (decide (l = p)) as [->|Hlp].
    - rewrite lookup_insert_eq. eexists. split; [done|]. by simplify_eq.
    - rewrite lookup_insert_ne by done.
      rewrite lookup_insert_ne by congruence. eauto. }
  assert (Hc' : path_to st' (next st) (ks ++ [k])).
  { eapply path_step; [| |exact Hp'].
    - subst st'. simpl. rewrite lookup_insert_ne by done. apply lookup_insert_eq.
    - unfold climb. simpl. by rewrite Hk. }
  assert (Hl : length (ks ++ [k]) < fuel).
  { rewrite length_app. simpl. lia. }
  split; [|split].
  - apply constructPath_returns; [done|lia].
  - by apply constructPath_returns.
  - unfold logicalId. erewrite bind_eq_Ok by by apply constructPath_returns.
    by rewrite join_empty_snoc.
Qed.

(** Under the node ["x"] of [conflict_store]: the child ["y"], and the id
    ['constructor']. *)
Lemma Construct_new_path_witness :
  (∃ st', Construct_new PlainConstruct (Just 2) (Just "y") conflict_store
          = Ok (next conflict_store) st'
     ∧ constructPath 3 2 st' = Ok ["x"] st'
     ∧ constructPath 3 (next conflict_store) st' = Ok (["x"] ++ ["y"]) st'
     ∧ logicalId 3 (next conflict_store) st' = Ok (join "" ["x"] +:+ "y") st')
  ∧ (∃ st', Construct_new PlainConstruct (Just 2) (Just "constructor")
              conflict_store
            = Throw DuplicateIdError st'
       ∧ children_of st' 2 = children_of conflict_store 2).
Proof.
  assert (Hx : path_to conflict_store 2 ["x"]).
  { eapply (path_step _ 2 _ 1 "x" []); [reflexivity|reflexivity|].
    eapply path_stop; reflexivity. }
  split.
  - apply (Construct_new_path PlainConstruct conflict_store 2 "y" ["x"] 3);
      [reflexivity|exact Hx|reflexivity|reflexivity|reflexivity|simpl; lia].
  - apply (Construct_new_path PlainConstruct conflict_store 2 "constructor"
             ["x"] 3);
      [reflexivity|exact Hx|reflexivity|reflexivity|reflexivity].
Defined.

(** ** Linking a list *)

Lemma link_S {L} `{ILinkable L} (fuel : nat) (this : loc)
    (linkables : list (option L)) :
  link (S fuel) this linkables
  = (for_each linkables (link_one fuel this) ;;
     c ← the_construct this;
     for_each (values (children c)) (λ child, link fuel child linkables)).
Proof. reflexivity. Qed.

Lemma for_each_link_one_present {L} `{ILinkable L} (fuel : nat) (this : loc)
    (linkables : list (option L)) (st : store) :
  for_each (present linkables) (link_one fuel this) st
  = for_each linkables (link_one fuel this) st.
Proof.
  revert st. induction linkables as [|[x|] ls IH]; intros st.
  - done.
  - change (present (Some x :: ls)) with (Some x :: present ls).
    rewrite !for_each_cons. unfold bind.
    destruct (link_one fuel this (Some x) st) as [[] st1| |]; [|done..].
    apply IH.
  - change (present (None :: ls)) with (present ls).
    rewrite for_each_cons. change (link_one fuel this None) with (ret tt).
    rewrite bind_ret_l. apply IH.
Qed.

(** X4.  [link] skips the entries of the list that are [undefined], at the
    node it is called on and at every node below: linking a list is linking
    the entries that are there, in the same order. *)
Theorem link_skips_undefined {L} `{ILinkable L} (fuel : nat) (this : loc)
    (linkables : list (option L)) (st : store) :
  link fuel this linkables st = link fuel this (present linkables) st.
Proof.
  revert this st. induction fuel as [|fuel IH]; intros this st; [done|].
  rewrite !link_S. unfold bind at 1 3.
  rewrite for_each_link_one_present.
  destruct (for_each linkables (link_one fuel this) st) as [[] st1| |]; [|done..].
  unfold bind. destruct (the_construct this st1) as [c st2| |]; [|done..].
  apply for_each_ext. intros child s _. apply IH.
Qed.

Lemma size_pos (t : tree) : 0 < size t.
Proof. destruct t. simpl. lia. Qed.

Lemma size_kid (l : loc) (kids : list tree) (t : tree) :
  t ∈ kids → size t < size (Node l kids).
Proof.
  intros Ht. simpl. apply Nat.lt_succ_r.
  induction Ht as [t kids|t t' kids _ IH]; simpl; lia.
Qed.

Lemma nodes_kid (l : loc) (kids : list tree) (t : tree) (n : loc) :
  t ∈ kids → n ∈ nodes t → n ∈ nodes (Node l kids).
Proof.
  intros Ht Hn. simpl. right.
  induction Ht as [t kids|t t' kids _ IH]; simpl; apply elem_of_app; auto.
Qed.

(** One entry that does not match the node, and is no floating construct,
    leaves the store as it is. *)
Lemma link_one_no_match {L} `{ILinkable L} (fuel : nat) (this : loc)
    (c : Construct) (x : L) (st : store) :
  constructs st !! this = Some c →
  matches x c = false →
  (∀ l, as_construct x = Some l →
        ∃ lc, constructs st !! l = Some lc ∧ is_floating lc = false) →
  link_one fuel this (Some x) st = Ok tt st.
Proof.
  intros Hc Hm Hx. unfold link_one, tryLink.
  destruct (as_construct x) as [l|].
  - destruct (Hx l eq_refl) as (lc & Hlc & Hfl).
    rewrite bind_assoc, (bind_the_construct _ _ _ _ Hlc), Hfl, bind_ret_l.
    by rewrite (bind_the_construct _ _ _ _ Hc), Hm.
  - rewrite bind_ret_l. by rewrite (bind_the_construct _ _ _ _ Hc), Hm.
Qed.

(** X5.  Linking a list none of whose entries matches a node of the tree
    is not an error and changes nothing: when no node below [this] advertises
    a tag that an entry targets (and no entry is a floating construct),
    [link] walks the tree and returns with the store as it was. *)
Theorem link_without_match {L} `{ILinkable L} (fuel : nat) (t : tree)
    (linkables : list (option L)) (st : store) :
  shape st t →
  size t ≤ fuel →
  (∀ x n c, Some x ∈ linkables → n ∈ nodes t → constructs st !! n = Some c →
            matches x c = false) →
  (∀ x l, Some x ∈ linkables → as_construct x = Some l →
          ∃ lc, constructs st !! l = Some lc ∧ is_floating lc = false) →
  link fuel (root_of t) linkables st = Ok tt st.
Proof.
  intros Hsh Hfuel Hm Hfl. revert t Hsh Hfuel Hm.
  induction fuel as [|fuel IH]; intros t Hsh Hfuel Hm.
  { pose proof (size_pos t). lia. }
  inversion Hsh as [l c kids Hc Hkids Hall]; subst t. simpl root_of.
  rewrite link_S.
  assert (H1 : for_each linkables (link_one fuel l) st = Ok tt st).
  { apply for_each_unchanged. intros [x|] Hx; [|done].
    eapply link_one_no_match; [done| |by eauto].
    eapply Hm; [done| |done]. simpl. left. }
  rewrite (bind_eq_Ok _ _ _ _ _ H1), (bind_the_construct _ _ _ _ Hc), Hkids.
  apply for_each_unchanged. intros child (k & -> & Hk)%list_elem_of_fmap.
  apply IH.
  - rewrite Forall_forall in Hall. by apply Hall.
  - pose proof (size_kid l kids k Hk). lia.
  - intros x n c' Hx Hn. apply Hm; [done|]. by eapply nodes_kid.
Qed.

Lemma link_without_match_witness :
  link 2 1 [Some (LScalarTweak (ScalarTweak.new "AWS::SQS::Queue" "QueueName"
                                  (VStr "q")))] bucket_store
  = Ok tt bucket_store.
Proof.
  apply (link_without_match 2 (Node 1 [Node 2 []])).
  - eapply shape_node; [reflexivity|reflexivity|].
    repeat constructor. eapply shape_node; [reflexivity|reflexivity|constructor].
  - simpl. lia.
  - intros x n c ->%list_elem_of_singleton%(inj Some) Hn Hc.
    simpl in Hn. apply elem_of_cons in Hn as [->|Hn].
    + vm_compute in Hc. by injection Hc as <-.
    + apply list_elem_of_singleton in Hn as ->.
      vm_compute in Hc. by injection Hc as <-.
  - intros x l ->%list_elem_of_singleton%(inj Some) Hl. done.
Defined.

(** [reparentTo], step by step, for a node that has a scope and an id. *)
Lemma reparentTo_eq (this newParent old : loc) (c oc : Construct) (k : string)
    (st : store) :
  constructs st !! this = Some c →
  _scope c = Just old →
  id c = Just k →
  truthy_string k = true →
  constructs st !! old = Some oc →
  reparentTo this newParent st
  = let st1 := upd_construct old
                 (set_children (without_child this (children oc)) oc) st in
    match constructs st1 !! newParent with
    | None => Throw BadReference st1
    | Some np =>
        if has (children np) k then Throw ReparentConflictError st1
        else
          match constructs st1 !! this with
          | None => Throw BadReference st1
          | Some c' =>
              let st2 := upd_construct this (set_scope (Just newParent) c') st1 in
              match constructs st2 !! newParent with
              | None => Throw BadReference st2
              | Some np' =>
                  Ok tt (upd_construct newParent
                           (set_children (set (children np') k this) np') st2)
              end
          end
    end.
Proof.
  intros Hc Hs Hi Hk Ho. unfold reparentTo.
  rewrite (bind_the_construct _ _ _ _ Hc), Hs, Hi, Hk.
  rewrite (bind_the_construct _ _ _ _ Ho), bind_modify.
  cbv zeta. set (st1 := upd_construct old _ st).
  unfold bind at 1. unfold the_construct at 1.
  destruct (constructs st1 !! newParent) as [np|]; [|done].
  destruct (has (children np) k); [done|].
  unfold bind at 1. unfold the_construct at 1.
  destruct (constructs st1 !! this) as [c'|]; [|done].
  rewrite bind_modify. set (st2 := upd_construct this _ st1).
  unfold bind, the_construct.
  by destruct (constructs st2 !! newParent).
Qed.

(** X6.  A floating construct in the list is adopted by the node [link] is
    called on, before the entry is matched against that node: it leaves the
    children of the floating scope and becomes the last child of [this]
    under its own id, and [tryLink] runs in the store where that has
    happened.  When [this] has a child of that id already, the entry is not
    linked at all: [link] throws [ReparentConflictError], the construct
    already taken out of the floating scope. *)
Theorem link_adopts_floating {L} `{ILinkable L} (fuel : nat) (this l : loc)
    (x : L) (c oc tc : Construct) (k : string) (st : store) :
  as_construct x = Some l →
  constructs st !! l = Some c →
  _scope c = Just Scope.FLOATING →
  id c = Just k →
  truthy_string k = true →
  constructs st !! Scope.FLOATING = Some oc →
  constructs st !! this = Some tc →
  this ≠ Scope.FLOATING → l ≠ Scope.FLOATING → l ≠ this →
  let detached :=
    upd_construct Scope.FLOATING
      (set_children (without_child l (children oc)) oc) st in
  let adopted :=
    upd_construct this (set_children (children tc ++ [(k, l)]) tc)
      (upd_construct l (set_scope (Just this) c) detached) in
  link_one fuel this (Some x) st
  = if has (children tc) k then Throw ReparentConflictError detached
    else tryLink fuel x this adopted.
Proof.
  intros Hx Hc Hs Hi Hk Ho Ht Hne1 Hne2 Hne3 detached adopted.
  unfold link_one. rewrite Hx.
  rewrite bind_assoc, (bind_the_construct _ _ _ _ Hc).
  assert (Hfl : is_floating c = true).
  { unfold is_floating. by rewrite Hs. }
  rewrite Hfl. unfold bind.
  rewrite (reparentTo_eq l this Scope.FLOATING c oc k st Hc Hs Hi Hk Ho).
  cbv zeta. fold detached. simpl.
  rewrite (lookup_insert_ne _ _ this) by done. rewrite Ht.
  destruct (has (children tc) k) eqn:Hh; [done|].
  rewrite (lookup_insert_ne _ _ l) by done. rewrite Hc.
  rewrite lookup_insert_ne by done.
  rewrite (lookup_insert_ne _ _ this) by done. rewrite Ht.
  apply has_false_get in Hh. by rewrite (set_fresh _ _ _ Hh).
Qed.

Lemma link_adopts_floating_witness :
  link_one 2 1 (Some (LResource 2 ["X"])) floating_resource_store
  = tryLink 2 (LResource 2 ["X"]) 1
      (upd_construct 1
         (mkConstruct Undefined Undefined [] [("Pol", 2)] PlainConstruct)
         (upd_construct 2
            (mkConstruct (Just 1) (Just "Pol") [] [] (ResourceFields "T" [] []))
            (upd_construct Scope.FLOATING
               (mkConstruct Undefined Undefined [] [] PlainConstruct)
               floating_resource_store))).
Proof.
  exact (link_adopts_floating 2 1 2 (LResource 2 ["X"]) _ _ _ "Pol"
           floating_resource_store
           eq_refl eq_refl eq_refl eq_refl eq_refl eq_refl eq_refl
           ltac:(done) ltac:(done) ltac:(done)).
Defined.

(** ** The order of linking *)

(** The constructs are the same. *)
#[local] Instance same_constructs_preorder :
  PreOrder (λ s s' : store, constructs s' = constructs s).
Proof. split; [done|]. intros s1 s2 s3 H1 H2. by rewrite H2. Qed.

Lemma shape_ext (st st' : store) (t : tree) :
  constructs st' = constructs st → shape st t → shape st' t.
Proof.
  intros Hc. revert t. fix IH 2. intros t Hsh.
  destruct Hsh as [l c kids Hl Hv Hkids].
  eapply shape_node; [by rewrite Hc|done|].
  clear Hv. revert kids Hkids.
  fix IHk 2. intros kids Hkids. destruct Hkids as [|k ks Hk Hks].
  - constructor.
  - constructor; [by apply IH|by apply IHk].
Qed.

Section LinkOrder.
Context {L : Type} `{ILinkable L}.
Variable linkables : list (option L).
Hypothesis no_construct : ∀ x, Some x ∈ linkables → as_construct x = None.
Hypothesis linkTo_keeps_constructs : ∀ fuel x target s s',
  Some x ∈ linkables →
  linkTo fuel x target s = Ok tt s' → constructs s' = constructs s.

Lemma link_entries_keep_constructs (fuel : nat) (this : loc) (s s' : store) :
  for_each linkables (link_one fuel this) s = Ok tt s' →
  constructs s' = constructs s.
Proof.
  apply (for_each_preserves (λ s s' : store, constructs s' = constructs s)).
  intros [x|] s1 s2 Hx; [|by intros [= <-]].
  unfold link_one. rewrite (no_construct x Hx), bind_ret_l.
  unfold tryLink, bind, the_construct.
  destruct (constructs s1 !! this) as [c|]; [|done].
  destruct (matches x c).
  - by apply linkTo_keeps_constructs.
  - by intros [= <-].
Qed.

Lemma visits_keep_constructs (vs : list (nat * loc)) (s s' : store) :
  for_each vs (λ v, for_each linkables (link_one (fst v) (snd v))) s = Ok tt s' →
  constructs s' = constructs s.
Proof.
  apply (for_each_preserves (λ s s' : store, constructs s' = constructs s)).
  intros v s1 s2 _. apply link_entries_keep_constructs.
Qed.

Lemma link_visits (fuel : nat) : ∀ (t : tree) (st : store),
  shape st t →
  size t ≤ fuel →
  link fuel (root_of t) linkables st
  = for_each (visits fuel t)
      (λ v, for_each linkables (link_one (fst v) (snd v))) st.
Proof.
  induction fuel as [|fuel IH]; intros t st Hsh Hsz.
  { pose proof (size_pos t). lia. }
  inversion Hsh as [l c kids Hc Hkids Hall]; subst t.
  cbn [root_of visits pred]. rewrite link_S, for_each_cons. cbn [fst snd].
  unfold bind at 1 3.
  destruct (for_each linkables (link_one fuel l) st) as [[] s1| |] eqn:E1;
    [|done..].
  apply link_entries_keep_constructs in E1.
  assert (Hc1 : constructs s1 !! l = Some c) by (by rewrite E1).
  rewrite (bind_the_construct _ _ _ _ Hc1), Hkids.
  assert (Hsizes : Forall (λ k, size k ≤ fuel) kids).
  { apply Forall_forall. intros k Hk. pose proof (size_kid l kids k Hk). lia. }
  clear Hc Hc1 Hkids Hsh Hsz c. revert s1 E1.
  induction kids as [|k kids IHk]; intros s1 E1; [done|].
  apply Forall_cons in Hall as [Hk Hall].
  apply Forall_cons in Hsizes as [Hsk Hsizes].
  cbn [map concat]. rewrite for_each_cons, for_each_app.
  unfold bind.
  rewrite (IH k s1); [|by apply (shape_ext st)|done].
  destruct (for_each (visits fuel k) _ s1) as [[] s2| |] eqn:E2; [|done..].
  apply visits_keep_constructs in E2.
  apply IHk; [done..|]. by rewrite E2.
Qed.
End LinkOrder.

(** Attaching a tweak leaves the constructs as they are. *)
Lemma ScalarTweak_linkTo_keeps_constructs fuel t res s s' :
  ScalarTweak_linkTo fuel t res s = Ok tt s' → constructs s' = constructs s.
Proof.
  unfold ScalarTweak_linkTo, bind, the_construct.
  destruct (constructs s !! res) as [c|]; [|done].
  destruct (is_Resource c); [|done].
  unfold property, the_resource, bind, the_construct.
  destruct (constructs s !! res) as [c'|]; [|done].
  destruct (fields c') as [|ty props links]; [done|]. unfold ret at 1.
  destruct (get props (ScalarTweak.property t)) as [p|];
    [|by destruct (inherited _)].
  unfold ret at 1. unfold the_observable.
  destruct (observables s !! p) as [[v obs| |]|]; try done.
  destruct (hasValue _); [done|].
  unfold ScalarProperty_set. intros ([] & s1 & Hw & Hf)%bind_Ok.
  apply evolves_write_scalar in Hw. apply evolves_fire in Hf.
  by rewrite (ev_constructs _ _ Hf), (ev_constructs _ _ Hw).
Qed.

Lemma CollectionTweak_linkTo_keeps_constructs fuel t res s s' :
  CollectionTweak_linkTo fuel t res s = Ok tt s' → constructs s' = constructs s.
Proof.
  unfold CollectionTweak_linkTo, bind, the_construct.
  destruct (constructs s !! res) as [c|]; [|done].
  destruct (is_Resource c); [|done].
  unfold property, the_resource, bind, the_construct.
  destruct (constructs s !! res) as [c'|]; [|done].
  destruct (fields c') as [|ty props links]; [done|]. unfold ret at 1.
  destruct (get props (CollectionTweak.collection t)) as [p|];
    [|by destruct (inherited _)].
  unfold ret at 1. unfold the_observable.
  destruct (observables s !! p) as [[v obs|items obs|]|] eqn:Ep; try done.
  unfold CollectionProperty_add. rewrite (bind_the_observable _ _ _ _ Ep).
  rewrite bind_modify. intros Hf%evolves_fire.
  by rewrite (ev_constructs _ _ Hf).
Qed.

(** X7.  The order of linking.  For a list of tweaks, [link] on a tree is
    one loop: it comes to the nodes in preorder, a node before its children
    and the children in the order [Object.values] lists them, and at every
    node it tries every entry of the list, in the order of the list. *)
Theorem link_visits_in_preorder (fuel : nat) (t : tree)
    (linkables : list (option linkable)) (st : store) :
  shape st t →
  size t ≤ fuel →
  Forall (λ e, is_tweak e = true) linkables →
  link fuel (root_of t) linkables st
  = for_each (visits fuel t)
      (λ v, for_each linkables (link_one (fst v) (snd v))) st.
Proof.
  intros Hsh Hsz Htw. rewrite Forall_forall in Htw.
  apply link_visits; [| |done..].
  - intros x Hx. specialize (Htw _ Hx). by destruct x.
  - intros f x target s s' Hx. specialize (Htw _ Hx).
    destruct x as [t'|t'|]; [| |done]; simpl.
    + apply ScalarTweak_linkTo_keeps_constructs.
    + apply CollectionTweak_linkTo_keeps_constructs.
Qed.

Lemma link_visits_in_preorder_witness :
  link 3 1 [Some (Bucket.BucketName "MyBucket")] bucket_store
  = for_each [(2, 1); (1, 2)]
      (λ v, for_each [Some (Bucket.BucketName "MyBucket")]
              (link_one (fst v) (snd v))) bucket_store.
Proof.
  apply (link_visits_in_preorder 3 (Node 1 [Node 2 []])).
  - eapply shape_node; [reflexivity|reflexivity|].
    repeat constructor. eapply shape_node; [reflexivity|reflexivity|constructor].
  - simpl. lia.
  - by repeat constructor.
Defined.

(** ** Finding and rendering, once more *)

Lemma findAll_loop_perm st fuel : ∀ ts acc,
  Forall (shape st) ts →
  list_sum (map size ts) ≤ fuel →
  ∃ res, findAll_loop fuel (map root_of ts) acc st = Ok res st
         ∧ res ≡ₚ acc ++ filter (λ l, resource_at st l = true)
                           (concat (map nodes ts)).
Proof.
  induction fuel as [|fuel IH]; intros [|[l kids] ts] acc Hsh Hsz; simpl in *.
  - exists acc. by rewrite app_nil_r.
  - lia.
  - exists acc. by rewrite app_nil_r.
  - apply Forall_cons in Hsh as [Hl Hts].
    inversion Hl as [l' c kids' Hc Hvals Hkids]; subst.
    rewrite (bind_the_construct _ _ _ _ Hc). rewrite Hvals, <- map_app.
    destruct (IH (ts ++ kids) (if is_Resource c then acc ++ [l] else acc))
      as (res & Hres & Hperm).
    { apply Forall_app. by split. }
    { rewrite map_app, list_sum_app. lia. }
    exists res. split; [done|]. rewrite Hperm.
    assert (Hra : resource_at st l = is_Resource c).
    { unfold resource_at. by rewrite Hc. }
    rewrite map_app, concat_app, !filter_app, filter_cons, Hra.
    destruct (is_Resource c); simpl; rewrite filter_app.
    + rewrite <- !app_assoc. simpl.
      apply Permutation_app_head. apply Permutation_cons; [done|].
      apply Permutation_app_comm.
    + apply Permutation_app_head, Permutation_app_comm.
Qed.

(** X8.  [Resource.findAll(scope)] on a tree returns the nodes of the tree
    that are resources, the scope among them if it is one and each as often
    as the tree has it, and changes nothing. *)
Theorem findAll_resources (st : store) (fuel : nat) (t : tree) :
  shape st t →
  size t ≤ fuel →
  ∃ res, findAll fuel (root_of t) st = Ok res st
         ∧ res ≡ₚ filter (λ l, resource_at st l = true) (nodes t).
Proof.
  intros Hsh Hsz.
  destruct (findAll_loop_perm st fuel [t] []) as (res & Hres & Hperm).
  - by constructor.
  - simpl. lia.
  - exists res. split; [done|]. simpl in Hperm. by rewrite app_nil_r in Hperm.
Qed.

Lemma findAll_resources_witness :
  ∃ res, findAll 2 1 bucket_store = Ok res bucket_store
         ∧ res ≡ₚ filter (λ l, resource_at bucket_store l = true) [1; 2].
Proof.
  apply (findAll_resources bucket_store 2 (Node 1 [Node 2 []])).
  - eapply shape_node; [reflexivity|reflexivity|].
    repeat constructor. eapply shape_node; [reflexivity|reflexivity|constructor].
  - simpl. lia.
Defined.

(** *** Computations that change nothing *)

Lemma changes_nothing_ret {A} (a : A) : changes_nothing (ret a).
Proof. done. Qed.

Lemma changes_nothing_throw {A} (e : error) : changes_nothing (@throw A e).
Proof. done. Qed.

Lemma changes_nothing_bind {A B} (m : M A) (k : A → M B) :
  changes_nothing m → (∀ a, changes_nothing (k a)) → changes_nothing (bind m k).
Proof.
  intros Hm Hk st. specialize (Hm st). unfold exec, bind in *.
  destruct (m st) as [a st1|e st1|]; subst; [apply Hk|done..].
Qed.

Lemma changes_nothing_the_construct l : changes_nothing (the_construct l).
Proof. intros st. unfold exec, the_construct. by destruct (constructs st !! l). Qed.

Lemma changes_nothing_the_observable l : changes_nothing (the_observable l).
Proof. intros st. unfold exec, the_observable. by destruct (observables st !! l). Qed.

Lemma changes_nothing_map_m {A B} (f : A → M B) (xs : list A) :
  (∀ x, changes_nothing (f x)) → changes_nothing (map_m f xs).
Proof.
  intros Hf. induction xs as [|x xs IH]; simpl; [apply changes_nothing_ret|].
  apply changes_nothing_bind; [done|]. intros y.
  apply changes_nothing_bind; [done|]. intros ys. apply changes_nothing_ret.
Qed.

Lemma changes_nothing_constructPath fuel l : changes_nothing (constructPath fuel l).
Proof.
  unfold constructPath. generalize (@nil string). revert l.
  induction fuel as [|fuel IH]; intros l acc; [done|]. simpl.
  apply changes_nothing_bind; [apply changes_nothing_the_construct|]. intros c.
  destruct (_scope c), (id c); try apply changes_nothing_ret.
  destruct (truthy_string _); [apply IH | apply changes_nothing_ret].
Qed.

Lemma changes_nothing_findAll fuel scope : changes_nothing (findAll fuel scope).
Proof.
  unfold findAll. generalize [scope]. generalize (@nil loc). intros acc stack.
  revert stack acc.
  induction fuel as [|fuel IH]; intros [|first rest] acc; simpl;
    try apply changes_nothing_ret; [done|].
  apply changes_nothing_bind; [apply changes_nothing_the_construct|].
  intros c. apply IH.
Qed.

Lemma changes_nothing_the_resource r : changes_nothing (the_resource r).
Proof.
  unfold the_resource.
  apply changes_nothing_bind; [apply changes_nothing_the_construct|]. intros c.
  destruct (fields c); [apply changes_nothing_throw | apply changes_nothing_ret].
Qed.

Lemma changes_nothing_Resource_render fuel : ∀ r,
  changes_nothing (Resource_render fuel r).
Proof.
  induction fuel as [|fuel IH]; intros r; [done|]. simpl.
  apply changes_nothing_bind; [apply changes_nothing_the_resource|].
  intros [[[c ty] props] links].
  apply changes_nothing_bind.
  { unfold logicalId. apply changes_nothing_bind;
      [apply changes_nothing_constructPath | intros; apply changes_nothing_ret]. }
  intros lid.
  apply changes_nothing_bind; [|intros ps; apply changes_nothing_ret].
  apply changes_nothing_map_m. intros e.
  apply changes_nothing_bind; [|intros v; apply changes_nothing_ret].
  unfold rendered.
  apply changes_nothing_bind; [apply changes_nothing_the_observable|].
  assert (Hv : ∀ x, changes_nothing
            (render_value (λ l, d ← Resource_render fuel l; ret (VObj d)) x)).
  { intros x. destruct x as [| |b|n|s|items|fs|l|r']; simpl;
      try apply changes_nothing_ret.
    - destruct (get fs "render") as [m|]; [|apply changes_nothing_ret].
      destruct (truthy m); [apply changes_nothing_throw | apply changes_nothing_ret].
    - apply changes_nothing_bind; [apply changes_nothing_the_construct|].
      intros c'. destruct (is_Resource c'); [|apply changes_nothing_ret].
      apply changes_nothing_bind; [apply IH | intros; apply changes_nothing_ret]. }
  intros [v obs|items obs|t v obs]; [apply Hv..|apply changes_nothing_throw].
Qed.

(** X9.  Rendering only reads: whether they return or throw, [findAll],
    [render] and [renderAll] leave every construct and every property as
    they found them, and call no observer. *)
Theorem rendering_changes_nothing (localeCompare : string → string → Z)
    (fuel : nat) (l : loc) (st : store) :
  exec (findAll fuel l) st = st
  ∧ exec (Resource_render fuel l) st = st
  ∧ exec (renderAll localeCompare fuel l) st = st.
Proof.
  split; [apply changes_nothing_findAll|].
  split; [apply changes_nothing_Resource_render|].
  revert st. change (changes_nothing (renderAll localeCompare fuel l)).
  unfold renderAll.
  apply changes_nothing_bind; [apply changes_nothing_findAll|]. intros res.
  apply changes_nothing_bind.
  { apply changes_nothing_map_m. intros r.
    apply changes_nothing_bind; [apply changes_nothing_constructPath|].
    intros p. apply changes_nothing_ret. }
  intros keyed.
  apply changes_nothing_bind; [|intros; apply changes_nothing_ret].
  apply changes_nothing_map_m. intros e. apply changes_nothing_Resource_render.
Qed.

(** X10.  A tree without a resource renders to the empty document. *)
Theorem renderAll_no_resource (localeCompare : string → string → Z)
    (st : store) (fuel : nat) (t : tree) :
  shape st t →
  size t ≤ fuel →
  (∀ l, l ∈ nodes t → resource_at st l = false) →
  renderAll localeCompare fuel (root_of t) st = Ok [] st.
Proof.
  intros Hsh Hsz Hno.
  destruct (findAll_loop_perm st fuel [t] []) as (res & Hres & Hperm).
  { by constructor. }
  { simpl. lia. }
  simpl in Hperm. rewrite app_nil_r in Hperm.
  assert (Hnil : filter (λ l, resource_at st l = true) (nodes t) = []).
  { revert Hno. generalize (nodes t). intros xs Hno.
    induction xs as [|x xs IH]; [done|].
    rewrite filter_cons, decide_False.
    - apply IH. intros l Hl. apply Hno. by right.
    - rewrite Hno by left. done. }
  rewrite Hnil in Hperm. apply Permutation_nil_r in Hperm. subst res.
  unfold renderAll. change (findAll_loop fuel [root_of t] [] st) with
    (findAll fuel (root_of t) st) in Hres.
  by rewrite (bind_eq_Ok _ _ _ _ _ Hres).
Qed.

Lemma renderAll_no_resource_witness :
  renderAll codeUnitCompare 2 1 conflict_store = Ok [] conflict_store.
Proof.
  apply (renderAll_no_resource codeUnitCompare conflict_store 2
           (Node 1 [Node 2 []])).
  - eapply shape_node; [reflexivity|reflexivity|].
    repeat constructor. eapply shape_node; [reflexivity|reflexivity|constructor].
  - simpl. lia.
  - intros l Hl. simpl in Hl. apply elem_of_cons in Hl as [->|Hl]; [done|].
    by apply list_elem_of_singleton in Hl as ->.
Defined.

(** ** The properties of a resource *)

Lemma rendered_flat_value (render_resource : loc → M value) st p :
  flat_property st p →
  rendered render_resource p st = Ok (property_value st p) st.
Proof.
  unfold flat_property, rendered, property_value.
  destruct (observables st !! p) as [[v obs|items obs|]|] eqn:E; try done.
  - intros Hpl. rewrite (bind_the_observable _ _ _ _ E).
    by apply render_value_plain.
  - intros _. by rewrite (bind_the_observable _ _ _ _ E).
Qed.

(** X11.  What [render()] returns for a resource whose properties hold
    plain values: one entry, keyed by the logical id, with the resource type
    under [Type] and under [Properties] one entry for every property the
    resource declares, in the order [Object.entries] lists them, each with
    the current value of the property.  A scalar that was never set is
    listed too, with the value [undefined], and a collection with its whole
    array. *)
Theorem Resource_render_lists_every_property (fuel : nat) (r : loc)
    (st : store) (c : Construct) (ty : string) (props : obj loc)
    (links : list loc) (p : list string) :
  constructs st !! r = Some c →
  fields c = ResourceFields ty props links →
  Forall (λ e, flat_property st (snd e)) props →
  path_to st r p →
  length p < fuel →
  Resource_render fuel r st
  = Ok [(join "" p,
         VObj [("Type", VStr ty);
               ("Properties",
                VObj (fromEntries
                        (map (λ e, (fst e, property_value st (snd e)))
                             (entries props))))])] st.
Proof.
  intros Hc Hf Hflat Hp Hlen.
  assert (Hlid : logicalId fuel r st = Ok (join "" p) st).
  { unfold logicalId.
    by rewrite (bind_eq_Ok _ _ _ _ _ (constructPath_returns _ _ _ _ Hp Hlen)). }
  destruct fuel as [|fuel]; [lia|]. cbn [Resource_render].
  rewrite (bind_eq_Ok _ _ _ _ _ (the_resource_eq _ _ _ _ _ _ Hc Hf)).
  cbv beta iota. rewrite (bind_eq_Ok _ _ _ _ _ Hlid).
  assert (Hps : map_m
            (λ e, v ← rendered (λ l, d ← Resource_render fuel l; ret (VObj d))
                               (snd e);
                  ret (fst e, v))
            (entries props) st
          = Ok (map (λ e, (fst e, property_value st (snd e))) (entries props)) st).
  { assert (Hfl : Forall (λ e, flat_property st (snd e)) (entries props))
      by (by rewrite entries_perm).
    induction Hfl as [|e es He _ IH]; [done|].
    cbn [map_m map].
    pose proof (rendered_flat_value
                  (λ l, d ← Resource_render fuel l; ret (VObj d)) st _ He) as Hv.
    rewrite bind_assoc, (bind_eq_Ok _ _ _ _ _ Hv), bind_ret_l.
    by rewrite (bind_eq_Ok _ _ _ _ _ IH). }
  by rewrite (bind_eq_Ok _ _ _ _ _ Hps).
Qed.

Lemma Resource_render_lists_every_property_witness :
  Resource_render 2 2 bucket_store
  = Ok [(join "" ["Bucket"],
         VObj [("Type", VStr "AWS::S3::Bucket");
               ("Properties",
                VObj (fromEntries
                        (map (λ e, (fst e, property_value bucket_store (snd e)))
                             (entries [("BucketName", 3);
                                       ("LoggingConfiguration", 4);
                                       ("Tags", 5)]))))])] bucket_store.
Proof.
  eapply (Resource_render_lists_every_property 2 2 bucket_store _
            "AWS::S3::Bucket" _ [] ["Bucket"]).
  - reflexivity.
  - reflexivity.
  - repeat constructor.
  - eapply (path_step _ 2 _ 1 "Bucket" []); [reflexivity|reflexivity|].
    eapply path_stop; reflexivity.
  - simpl. lia.
Defined.

Lemma map_m_throws {A B} (f : A → M B) (pre post : list A) (x : A) (e : error)
    (st : store) :
  Forall (λ a, ∃ b, f a st = Ok b st) pre →
  f x st = Throw e st →
  map_m f (pre ++ x :: post) st = Throw e st.
Proof.
  intros Hpre Hx. induction Hpre as [|a pre [b Hb] _ IH]; cbn [app map_m].
  - unfold bind. by rewrite Hx.
  - rewrite (bind_eq_Ok _ _ _ _ _ Hb). unfold bind. by rewrite IH.
Qed.

(** X12.  [render()] calls whatever a value has under [render].  When a
    scalar of the resource holds a plain object with a truthy member
    [render] (and the properties listed before it hold plain values),
    [isRenderable] takes the object for a renderable and the call of the
    member, which is no function, throws the [TypeError] of the runtime:
    the resource cannot be rendered. *)
Theorem Resource_render_calls_render_member (fuel : nat) (r q : loc)
    (st : store) (c : Construct) (ty k : string) (props pre post : obj loc)
    (links : list loc) (p : list string) (fs : list (string * value))
    (m : value) (obs : list observer) :
  constructs st !! r = Some c →
  fields c = ResourceFields ty props links →
  path_to st r p →
  length p < fuel →
  entries props = pre ++ (k, q) :: post →
  Forall (λ e, flat_property st (snd e)) pre →
  observables st !! q = Some (ScalarProperty (VObj fs) obs) →
  get fs "render" = Some m →
  truthy m = true →
  Resource_render fuel r st = Throw JsTypeError st.
Proof.
  intros Hc Hf Hp Hlen Hent Hpre Hq Hg Hm.
  assert (Hlid : logicalId fuel r st = Ok (join "" p) st).
  { unfold logicalId.
    by rewrite (bind_eq_Ok _ _ _ _ _ (constructPath_returns _ _ _ _ Hp Hlen)). }
  destruct fuel as [|fuel]; [lia|]. cbn [Resource_render].
  rewrite (bind_eq_Ok _ _ _ _ _ (the_resource_eq _ _ _ _ _ _ Hc Hf)).
  cbv beta iota. rewrite (bind_eq_Ok _ _ _ _ _ Hlid).
  unfold bind at 1. rewrite Hent.
  rewrite (map_m_throws _ pre post (k, q) JsTypeError); [done| |].
  - eapply Forall_impl; [exact Hpre|]. intros e He. cbn beta.
    exists (fst e, property_value st (snd e)).
    by rewrite (bind_eq_Ok _ _ _ _ _ (rendered_flat_value _ st _ He)).
  - cbn [snd]. unfold bind at 1. unfold rendered.
    rewrite (bind_the_observable _ _ _ _ Hq). cbn [render_value].
    by rewrite Hg, Hm.
Qed.

Lemma Resource_render_calls_render_member_witness :
  Resource_render 2 2 render_member_store = Throw JsTypeError render_member_store.
Proof.
  eapply (Resource_render_calls_render_member 2 2 3 render_member_store _
            "T" "Config" [("Config", 3)] [] [] [] ["R"]
            [("render", VStr "fast")] (VStr "fast") []).
  - reflexivity.
  - reflexivity.
  - eapply (path_step _ 2 _ 1 "R" []); [reflexivity|reflexivity|].
    eapply path_stop; reflexivity.
  - simpl. lia.
  - reflexivity.
  - constructor.
  - reflexivity.
  - reflexivity.
  - reflexivity.
Defined.

(** [addProperty] and [property], step by step. *)
Lemma addProperty_eq this name prop c ty props links st :
  constructs st !! this = Some c →
  fields c = ResourceFields ty props links →
  addProperty this name prop st
  = if has props name || inherited name then Throw DuplicatePropertyError st
    else Ok tt (upd_construct this
                  (set_fields (ResourceFields ty (set props name prop) links) c) st).
Proof.
  intros Hc Hf. unfold addProperty.
  rewrite (bind_eq_Ok _ _ _ _ _ (the_resource_eq _ _ _ _ _ _ Hc Hf)).
  by destruct (has props name || inherited name).
Qed.

Lemma property_eq this name c ty props links st :
  constructs st !! this = Some c →
  fields c = ResourceFields ty props links →
  property this name st
  = match get props name with
    | Some p => Ok (Added p) st
    | None =>
        if inherited name then Ok InheritedMember st
        else Throw UnknownPropertyError st
    end.
Proof.
  intros Hc Hf. unfold property.
  rewrite (bind_eq_Ok _ _ _ _ _ (the_resource_eq _ _ _ _ _ _ Hc Hf)).
  destruct (get props name); [done|]. by destruct (inherited name).
Qed.

(** X13.  Declaring a property and looking it up.  [addProperty(name, prop)]
    throws [DuplicatePropertyError], and changes nothing, when
    [this.properties[name]] is truthy: when the resource has a property of
    that name, and also when the name is that of a member every object
    inherits (['valueOf'], ['constructor'], ...).  Otherwise it returns, and
    from then on [property(name)] returns [prop], while [property] answers
    for every other name as it did before: the property it had, the
    inherited member, or [UnknownPropertyError]. *)
Theorem addProperty_then_property (this : loc) (name : string) (prop : loc)
    (c : Construct) (ty : string) (props : obj loc) (links : list loc)
    (st : store) :
  constructs st !! this = Some c →
  fields c = ResourceFields ty props links →
  (has props name || inherited name = true →
     addProperty this name prop st = Throw DuplicatePropertyError st)
  ∧ (has props name || inherited name = false →
     ∃ st', addProperty this name prop st = Ok tt st'
       ∧ property this name st' = Ok (Added prop) st'
       ∧ ∀ other, other ≠ name →
           property this other st'
           = match property this other st with
             | Ok p _ => Ok p st'
             | Throw e _ => Throw e st'
             | Diverge => Diverge
             end).
Proof.
  intros Hc Hf. rewrite (addProperty_eq _ _ _ _ _ _ _ _ Hc Hf).
  split; intros ->; [done|].
  eexists. split; [reflexivity|].
  set (c' := set_fields _ c). set (st' := upd_construct this c' st).
  assert (Hc' : constructs st' !! this = Some c') by apply lookup_insert_eq.
  assert (Hf' : fields c' = ResourceFields ty (set props name prop) links) by done.
  split.
  - rewrite (property_eq _ _ _ _ _ _ _ Hc' Hf'). by rewrite get_set_eq.
  - intros other Hne.
    rewrite (property_eq _ _ _ _ _ _ _ Hc' Hf'), (property_eq _ _ _ _ _ _ _ Hc Hf).
    rewrite get_set_ne by done.
    destruct (get props other); [done|]. by destruct (inherited other).
Qed.

(** On the resource of [bucket_store]: a second ["Tags"] and a ['valueOf']
    are refused, a ["Website"] is added and found. *)
Lemma addProperty_then_property_witness :
  addProperty 2 "Tags" 9 bucket_store
  = Throw DuplicatePropertyError bucket_store
  ∧ addProperty 2 "valueOf" 9 bucket_store
    = Throw DuplicatePropertyError bucket_store
  ∧ ∃ st', addProperty 2 "Website" 9 bucket_store = Ok tt st'
      ∧ property 2 "Website" st' = Ok (Added 9) st'
      ∧ ∀ other, other ≠ "Website" →
          property 2 other st'
          = match property 2 other bucket_store with
            | Ok p _ => Ok p st'
            | Throw e _ => Throw e st'
            | Diverge => Diverge
            end.
Proof.
  pose proof (λ name,
    addProperty_then_property 2 name 9
      (mkConstruct (Just 1) (Just "Bucket") ["AWS::S3::Bucket"] []
         (ResourceFields "AWS::S3::Bucket"
            [("BucketName", 3); ("LoggingConfiguration", 4); ("Tags", 5)]
            []))
      "AWS::S3::Bucket"
      [("BucketName", 3); ("LoggingConfiguration", 4); ("Tags", 5)]
      [] bucket_store eq_refl eq_refl) as H.
  split; [|split].
  - exact (proj1 (H "Tags") eq_refl).
  - exact (proj1 (H "valueOf") eq_refl).
  - exact (proj2 (H "Website") eq_refl).
Defined.

(** ** Collections and their tweaks *)

(** Giving an object that is not a scalar another state with the same
    observers keeps the observers well formed. *)
Lemma wf_observers_upd (st : store) (p : loc) (o o' : Observable) :
  wf_observers st →
  observables st !! p = Some o →
  observers_of o' = observers_of o →
  (∀ v obs, o ≠ ScalarProperty v obs) →
  wf_observers (upd_observable p o' st).
Proof.
  intros Hwf Hp Hobs Hns l o1 self tx Hl Hin. simpl in *.
  assert (∃ o0, observables st !! l = Some o0
                ∧ ObsDerived self tx ∈ observers_of o0) as (o0 & Hl0 & Hin0).
  { rewrite lookup_insert in Hl. case_decide.
    - subst l. injection Hl as <-. exists o. by rewrite <- Hobs.
    - eauto. }
  destruct (Hwf l o0 self tx Hl0 Hin0) as (H1 & H2 & v & obs & H3).
  split; [done|]. split; [done|]. exists v, obs.
  rewrite lookup_insert_ne; [done|]. intros ->. rewrite Hp in H3.
  injection H3 as ->. by eapply Hns.
Qed.

(** [add], when the fuel covers what it fires: the array has grown by [x]
    and every probe has been called with the whole array. *)
Lemma CollectionProperty_add_spec fuel p x st items obs :
  wf_observers st →
  observables st !! p = Some (CollectionProperty items obs) →
  p < next st → next st ≤ fuel + p →
  ∃ st', CollectionProperty_add fuel p x st = Ok tt st'
    ∧ observables st' !! p = Some (CollectionProperty (items ++ [x]) obs)
    ∧ constructs st' = constructs st
    ∧ next st' = next st
    ∧ wf_observers st'
    ∧ ∃ evs, trace st' = trace st ++ evs
        ∧ ((λ tag, (tag, VArr (items ++ [x]))) <$> probes obs) `sublist_of` evs.
Proof.
  intros Hwf Hp Hlt Hfuel.
  set (o' := CollectionProperty (items ++ [x]) obs).
  set (st1 := upd_observable p o' st).
  assert (Hwf1 : wf_observers st1).
  { eapply wf_observers_upd; [done..|]. intros v obs'. done. }
  assert (Hp1 : observables st1 !! p = Some o') by apply lookup_insert_eq.
  destruct (fire_returns fuel p (VArr (items ++ [x])) st1) as [st' Hfire];
    [done|by eexists|done..|].
  assert (Hev : evolves st1 st') by (by eapply evolves_fire).
  exists st'. split.
  { unfold CollectionProperty_add.
    by rewrite (bind_the_observable _ _ _ _ Hp), bind_modify. }
  split; [by eapply evolves_collection|].
  split; [by rewrite (ev_constructs _ _ Hev)|].
  split; [by rewrite (ev_next _ _ Hev)|].
  split; [by eapply evolves_wf|].
  by apply (fire_notifies fuel p _ st1 st' o').
Qed.

Lemma CollectionTweak_linkTo_eq fuel t res st c :
  constructs st !! res = Some c →
  CollectionTweak_linkTo fuel t res st
  = match fields c with
    | PlainConstruct => Throw ExpectedResourceError st
    | ResourceFields _ props _ =>
        match get props (CollectionTweak.collection t) with
        | None =>
            if inherited (CollectionTweak.collection t)
            then Throw TypeMismatchError st
            else Throw UnknownPropertyError st
        | Some p =>
            match observables st !! p with
            | None => Throw BadReference st
            | Some (CollectionProperty _ _) =>
                CollectionProperty_add fuel p (CollectionTweak.value t) st
            | Some _ => Throw TypeMismatchError st
            end
        end
    end.
Proof.
  intros Hc. unfold CollectionTweak_linkTo.
  rewrite (bind_the_construct _ _ _ _ Hc). unfold is_Resource.
  destruct (fields c) as [|ty props links] eqn:Hf; [done|].
  unfold bind at 1. rewrite (property_eq _ _ _ _ _ _ _ Hc Hf).
  destruct (get props (CollectionTweak.collection t)) as [p|];
    [|by destruct (inherited _)].
  unfold bind, the_observable.
  by destruct (observables st !! p) as [[v obs| |]|].
Qed.

(** X14.  The outcomes of attaching a collection tweak.  It throws
    [ExpectedResourceError] when the construct is no resource.  When the
    resource has no property of the carried name it throws
    [UnknownPropertyError], unless the name is that of a member every object
    inherits (['hasOwnProperty'], ['constructor'], ...): then the lookup
    finds that member, which is no collection, and it throws
    [TypeMismatchError], as it does when the property is no collection.
    Otherwise the carried value is added at the end of the collection,
    whatever the collection holds already. *)
Theorem CollectionTweak_linkTo_outcomes (fuel : nat) (t : CollectionTweak.t)
    (res : loc) (st : store) (c : Construct) :
  constructs st !! res = Some c →
  (fields c = PlainConstruct →
     linkTo fuel t res st = Throw ExpectedResourceError st)
  ∧ (∀ ty props links,
       fields c = ResourceFields ty props links →
       get props (CollectionTweak.collection t) = None →
       linkTo fuel t res st
       = Throw (if inherited (CollectionTweak.collection t)
                then TypeMismatchError else UnknownPropertyError) st)
  ∧ (∀ ty props links p o,
       fields c = ResourceFields ty props links →
       get props (CollectionTweak.collection t) = Some p →
       observables st !! p = Some o →
       (∀ items obs, o ≠ CollectionProperty items obs) →
       linkTo fuel t res st = Throw TypeMismatchError st)
  ∧ (∀ ty props links p items obs,
       fields c = ResourceFields ty props links →
       get props (CollectionTweak.collection t) = Some p →
       observables st !! p = Some (CollectionProperty items obs) →
       wf_observers st → p < next st → next st ≤ fuel + p →
       ∃ st', linkTo fuel t res st = Ok tt st'
         ∧ observables st' !! p
           = Some (CollectionProperty (items ++ [CollectionTweak.value t]) obs)
         ∧ constructs st' = constructs st).
Proof.
  intros Hc. simpl. rewrite (CollectionTweak_linkTo_eq _ _ _ _ _ Hc).
  split; [|split; [|split]].
  - by intros ->.
  - intros ty props links -> Hg. rewrite Hg. by destruct (inherited _).
  - intros ty props links p o -> Hg Ho Hnc. rewrite Hg, Ho.
    destruct o as [|items obs|]; [done| |done]. by destruct (Hnc items obs).
  - intros ty props links p items obs -> Hg Ho Hwf Hlt Hfuel. rewrite Hg, Ho.
    destruct (CollectionProperty_add_spec fuel p (CollectionTweak.value t) st
                items obs Hwf Ho Hlt Hfuel) as (st' & H1 & H2 & H3 & _).
    eauto.
Qed.

(** On the resource of [bucket_store]: the scalar [BucketName] is no
    collection, there is no ["Website"], and ['hasOwnProperty'] is found
    though no property was added under it. *)
Lemma CollectionTweak_linkTo_outcomes_witness :
  linkTo 2 (CollectionTweak.new "AWS::S3::Bucket" "BucketName" (VStr "x"))
    2 bucket_store
  = Throw TypeMismatchError bucket_store
  ∧ linkTo 2 (CollectionTweak.new "AWS::S3::Bucket" "Website" (VStr "x"))
      2 bucket_store
    = Throw UnknownPropertyError bucket_store
  ∧ linkTo 2 (CollectionTweak.new "AWS::S3::Bucket" "hasOwnProperty" (VStr "x"))
      2 bucket_store
    = Throw TypeMismatchError bucket_store.
Proof.
  pose proof (λ name,
    CollectionTweak_linkTo_outcomes 2
      (CollectionTweak.new "AWS::S3::Bucket" name (VStr "x"))
      2 bucket_store _ eq_refl) as H.
  split; [|split].
  - destruct (H "BucketName") as (_ & _ & Hm & _).
    eapply (Hm _ _ _ 3); [reflexivity|reflexivity|reflexivity|done].
  - destruct (H "Website") as (_ & Hu & _).
    exact (Hu _ _ _ eq_refl eq_refl).
  - destruct (H "hasOwnProperty") as (_ & Hu & _).
    exact (Hu _ _ _ eq_refl eq_refl).
Defined.

(** X15.  Collection tweaks accumulate: any number of tweaks for the same
    collection of a resource can be attached one after the other, none is
    refused, and the collection then holds what it held followed by the
    carried values in the order of attachment. *)
Theorem CollectionTweak_linkTo_accumulates (fuel : nat) (res : loc)
    (c : Construct) (ty : string) (props : obj loc) (links : list loc)
    (name : string) (p : loc) (ts : list CollectionTweak.t) :
  ∀ (st : store) (items : list value) (obs : list observer),
  constructs st !! res = Some c →
  fields c = ResourceFields ty props links →
  get props name = Some p →
  observables st !! p = Some (CollectionProperty items obs) →
  wf_observers st → p < next st → next st ≤ fuel + p →
  Forall (λ t, CollectionTweak.collection t = name) ts →
  ∃ st', for_each ts (λ t, linkTo fuel t res) st = Ok tt st'
    ∧ observables st' !! p
      = Some (CollectionProperty (items ++ map CollectionTweak.value ts) obs).
Proof.
  induction ts as [|t ts IH]; intros st items obs Hc Hf Hg Ho Hwf Hlt Hfuel Hall.
  { exists st. split; [done|]. by rewrite app_nil_r. }
  apply Forall_cons in Hall as [Ht Hall].
  destruct (CollectionProperty_add_spec fuel p (CollectionTweak.value t) st
              items obs Hwf Ho Hlt Hfuel)
    as (st1 & H1 & H2 & H3 & H4 & H5 & _).
  assert (Ht1 : linkTo fuel t res st = Ok tt st1).
  { simpl. by rewrite (CollectionTweak_linkTo_eq _ _ _ _ _ Hc), Hf, Ht, Hg, Ho. }
  rewrite for_each_cons, (bind_eq_Ok _ _ _ _ _ Ht1).
  destruct (IH st1 (items ++ [CollectionTweak.value t]) obs)
    as (st' & Hst' & Hp'); try done.
  - by rewrite H3.
  - by rewrite H4.
  - by rewrite H4.
  - exists st'. split; [done|]. rewrite Hp'. simpl.
    by rewrite <- app_assoc.
Qed.

Lemma CollectionTweak_linkTo_accumulates_witness :
  ∃ st', for_each [CollectionTweak.new "AWS::S3::Bucket" "Tags" (VStr "a");
                   CollectionTweak.new "AWS::S3::Bucket" "Tags" (VStr "b")]
           (λ t, linkTo 2 t 2) bucket_store = Ok tt st'
    ∧ observables st' !! 5
      = Some (CollectionProperty ([] ++ [VStr "a"; VStr "b"]) []).
Proof.
  eapply (CollectionTweak_linkTo_accumulates 2 2 _ _ _ _ "Tags" 5
            [CollectionTweak.new "AWS::S3::Bucket" "Tags" (VStr "a");
             CollectionTweak.new "AWS::S3::Bucket" "Tags" (VStr "b")]
            bucket_store [] []).
  - reflexivity.
  - reflexivity.
  - reflexivity.
  - reflexivity.
  - apply wf_observers_check_sound. reflexivity.
  - vm_compute. lia.
  - vm_compute. lia.
  - by repeat constructor.
Defined.

(** X16.  [add(x)] puts [x] at the end of the collection and fires with the
    whole collection, not with the element added: every observer that
    records its calls has been called with the array that ends in [x], in
    registration order. *)
Theorem CollectionProperty_add_notifies (fuel : nat) (p : loc) (x : value)
    (st : store) (items : list value) (obs : list observer) :
  wf_observers st →
  observables st !! p = Some (CollectionProperty items obs) →
  p < next st → next st ≤ fuel + p →
  ∃ st' evs, CollectionProperty_add fuel p x st = Ok tt st'
    ∧ property_value st' p = VArr (items ++ [x])
    ∧ trace st' = trace st ++ evs
    ∧ ((λ tag, (tag, VArr (items ++ [x]))) <$> probes obs) `sublist_of` evs.
Proof.
  intros Hwf Hp Hlt Hfuel.
  destruct (CollectionProperty_add_spec fuel p x st items obs Hwf Hp Hlt Hfuel)
    as (st' & H1 & H2 & _ & _ & _ & evs & H3 & H4).
  exists st', evs. split; [done|]. split; [|done].
  unfold property_value. by rewrite H2.
Qed.

(** The collection of [observed_collection_store] holds [1] and is observed
    by the probes 7 and 8: adding [2] calls both with the array [[1, 2]]. *)
Lemma CollectionProperty_add_notifies_witness :
  ∃ st' evs,
    CollectionProperty_add 1 1 (VNum 2) observed_collection_store = Ok tt st'
    ∧ property_value st' 1 = VArr ([VNum 1] ++ [VNum 2])
    ∧ trace st' = trace observed_collection_store ++ evs
    ∧ ((λ tag, (tag, VArr ([VNum 1] ++ [VNum 2])))
         <$> probes [ObsProbe 7; ObsProbe 8]) `sublist_of` evs.
Proof.
  apply (CollectionProperty_add_notifies 1 1 (VNum 2) observed_collection_store
           [VNum 1] [ObsProbe 7; ObsProbe 8]).
  - apply wf_observers_check_sound. reflexivity.
  - reflexivity.
  - vm_compute. lia.
  - vm_compute. lia.
Defined.

(** ** Setting a scalar *)

Lemma for_each_probes (tags : list nat) (set : loc → value → M unit)
    (x : value) (st : store) :
  for_each (ObsProbe <$> tags) (λ ob, call_observer set ob x) st
  = Ok tt (mkStore (constructs st) (observables st) (next st)
             (trace st ++ ((λ tag, (tag, x)) <$> tags))).
Proof.
  revert st. induction tags as [|tag tags IH]; intros st.
  - simpl. rewrite app_nil_r. by destruct st.
  - rewrite fmap_cons, for_each_cons. simpl call_observer.
    rewrite bind_modify, IH. simpl. by rewrite <- app_assoc.
Qed.

(** X17.  [set(x)] on a scalar has no guard: it replaces whatever the
    scalar holds, [undefined] or a value, and then calls the observers with
    [x], each once and in the order they were registered.  For observers
    that record their calls, the record grows by exactly these calls and
    nothing else changes. *)
Theorem ScalarProperty_set_notifies_in_order (fuel : nat) (p : loc)
    (x old : value) (tags : list nat) (st : store) :
  observables st !! p = Some (ScalarProperty old (ObsProbe <$> tags)) →
  ScalarProperty_set (S fuel) p x st
  = Ok tt (mkStore (constructs st)
             (<[p := ScalarProperty x (ObsProbe <$> tags)]> (observables st))
             (next st)
             (trace st ++ ((λ tag, (tag, x)) <$> tags))).
Proof.
  intros Hp. unfold ScalarProperty_set.
  rewrite (bind_eq_Ok _ _ _ _ _ (write_scalar_Ok _ x _ _ _ Hp)).
  rewrite fire_S. erewrite bind_the_observable by apply lookup_insert_eq.
  simpl observers_of. by rewrite for_each_probes.
Qed.

Lemma ScalarProperty_set_notifies_in_order_witness :
  ScalarProperty_set 1 1 (VStr "x") observed_scalar_store
  = Ok tt (mkStore (constructs observed_scalar_store)
             (<[1 := ScalarProperty (VStr "x") (ObsProbe <$> [7; 8])]>
                (observables observed_scalar_store))
             (next observed_scalar_store)
             (trace observed_scalar_store
                ++ ((λ tag, (tag, VStr "x")) <$> [7; 8]))).
Proof.
  exact (ScalarProperty_set_notifies_in_order 0 1 (VStr "x") (VNum 3) [7; 8]
           observed_scalar_store eq_refl).
Defined.

(** ** A derived property of a derived property *)

(** The store the constructor of a derived property leaves. *)
Lemma DerivedProperty_new_eq fuel s f st v0 obs0 :
  observables st !! s = Some (ScalarProperty v0 obs0) →
  s ≠ next st →
  DerivedProperty_new (S fuel) s f st
  = Ok (next st)
      (let d := next st in
       let sr := upd_observable s (ScalarProperty v0 (obs0 ++ [ObsDerived d f]))
                   (bump (upd_observable d (ScalarProperty VUndefined []) st)) in
       if defined v0 then upd_observable d (ScalarProperty (f v0) []) sr else sr).
Proof.
  intros Hs Hne. cbv zeta.
  set (d := next st).
  set (sd := bump (upd_observable d (ScalarProperty VUndefined []) st)).
  set (sr := upd_observable s (ScalarProperty v0 (obs0 ++ [ObsDerived d f])) sd).
  assert (Hsd : observables sd !! s = Some (ScalarProperty v0 obs0)).
  { simpl. by rewrite lookup_insert_ne. }
  assert (Hrs : observables sr !! s
                = Some (ScalarProperty v0 (obs0 ++ [ObsDerived d f])))
    by apply lookup_insert_eq.
  assert (Hrd : observables sr !! d = Some (ScalarProperty VUndefined [])).
  { simpl. rewrite lookup_insert_ne by done. apply lookup_insert_eq. }
  assert (Hreg : bind (ScalarProperty_new VUndefined)
                   (λ this, addObserver (S fuel) s (ObsDerived this f) ;; ret this) st
                 = bind (notify_current (S fuel) s (ObsDerived d f)) (λ _, ret d) sr).
  { unfold bind at 1. unfold ScalarProperty_new, new_observable. fold d. fold sd.
    unfold bind at 1. unfold addObserver. rewrite (bind_the_observable _ _ _ _ Hsd).
    unfold Property_addObserver.
    by rewrite (bind_eq_Ok _ _ _ _ _ (Observable_addObserver_Ok _ _ _ _ Hsd)). }
  unfold DerivedProperty_new. rewrite Hreg.
  unfold bind. rewrite (notify_current_eq _ _ _ _ _ Hrs).
  simpl. destruct (defined v0) eqn:Edef; [|done].
  pose proof (write_scalar_Ok d (f v0) sr _ _ Hrd) as Hw.
  set (s1 := upd_observable d (ScalarProperty (f v0) []) sr) in *.
  assert (Hfire : fire (S fuel) d (f v0) s1 = Ok tt s1).
  { rewrite fire_S. erewrite bind_the_observable; [|apply lookup_insert_eq]. done. }
  unfold ScalarProperty_set. by rewrite (bind_eq_Ok _ _ _ _ _ Hw), Hfire.
Qed.

(** X18.  Derived properties compose.  With [d1] derived from a scalar [s]
    by [f] and [d2] derived from [d1] by [g], every [s.set(v)] returns with
    [d1] holding [f v] and [d2] holding [g (f v)]: the set of [d1] by the
    closure fires in turn, inside the call. *)
Theorem Derived_of_derived (fuel : nat) (s : loc) (f g : value → value)
    (st : store) (v0 : value) (obs0 : list observer) :
  wf_observers st →
  observables st !! s = Some (ScalarProperty v0 obs0) →
  s < next st →
  next st + 2 ≤ fuel + s →
  ∃ d1 d2 st1 st2,
    DerivedProperty_new fuel s f st = Ok d1 st1
    ∧ DerivedProperty_new fuel d1 g st1 = Ok d2 st2
    ∧ ∀ v, ∃ st3,
        ScalarProperty_set fuel s v st2 = Ok tt st3
        ∧ scalar_value st3 d1 = Some (f v)
        ∧ scalar_value st3 d2 = Some (g (f v)).
Proof.
  intros Hwf Hs Hlt Hfuel.
  destruct fuel as [|fuel]; [lia|].
  set (d1 := next st). set (d2 := S d1).
  set (w1 := if defined v0 then f v0 else VUndefined).
  (* the first constructor *)
  destruct (DerivedProperty_new_spec (S fuel) s f st v0 obs0)
    as (st1 & Hnew1 & Hnext1 & _ & Hdf1); [done..|lia|].
  pose proof (DerivedProperty_new_eq fuel s f st v0 obs0 Hs) as Heq1.
  rewrite Hnew1 in Heq1. specialize (Heq1 ltac:(lia)).
  injection Heq1 as Hst1. cbv zeta in Hst1. fold d1 in Hst1.
  assert (Hwf1 : wf_observers st1) by apply Hdf1.
  assert (Hs1 : observables st1 !! s
                = Some (ScalarProperty v0 (obs0 ++ [ObsDerived d1 f]))).
  { rewrite Hst1. destruct (defined v0); simpl.
    - rewrite lookup_insert_ne by (unfold d1; lia). apply lookup_insert_eq.
    - apply lookup_insert_eq. }
  assert (Hd1 : observables st1 !! d1 = Some (ScalarProperty w1 [])).
  { rewrite Hst1. unfold w1. destruct (defined v0); simpl.
    - apply lookup_insert_eq.
    - rewrite lookup_insert_ne by (unfold d1; lia). apply lookup_insert_eq. }
  (* the second constructor *)
  destruct (DerivedProperty_new_spec (S fuel) d1 g st1 w1 [])
    as (st2 & Hnew2 & Hnext2 & _ & Hdf2); [done|done|lia|lia|].
  rewrite Hnext1 in Hnew2. fold d1 d2 in Hnew2.
  pose proof (DerivedProperty_new_eq fuel d1 g st1 w1 [] Hd1) as Heq2.
  rewrite Hnext1 in Heq2. fold d1 d2 in Heq2. rewrite Hnew2 in Heq2.
  specialize (Heq2 ltac:(lia)).
  injection Heq2 as Hst2. cbv zeta in Hst2.
  rewrite Hnext1 in Hdf2. fold d1 d2 in Hdf2.
  assert (Hn2 : next st2 = S d2) by (rewrite Hnext2, Hnext1; done).
  assert (Hs2 : observables st2 !! s
                = Some (ScalarProperty v0 (obs0 ++ [ObsDerived d1 f]))).
  { rewrite Hst2. destruct (defined w1); simpl;
      rewrite !lookup_insert_ne by (unfold d2, d1; lia); done. }
  exists d1, d2, st1, st2. split; [done|]. split; [done|]. intros v.
  (* the set of the source *)
  assert (Hwf2 : wf_observers st2) by apply Hdf2.
  pose proof (write_scalar_Ok s v _ _ _ Hs2) as Hw.
  set (sw := upd_observable s (ScalarProperty v (obs0 ++ [ObsDerived d1 f])) st2)
    in *.
  assert (Hevw : evolves st2 sw) by (by eapply evolves_write_scalar).
  assert (Hwfw : wf_observers sw) by (by eapply evolves_wf).
  destruct (fire_returns (S fuel) s v sw) as [st3 Hfire];
    [done| |simpl; lia|simpl; lia|].
  { simpl. rewrite lookup_insert_eq. eauto. }
  exists st3. unfold ScalarProperty_set. rewrite (bind_eq_Ok _ _ _ _ _ Hw).
  split; [done|].
  rewrite fire_S in Hfire.
  erewrite bind_the_observable in Hfire by apply lookup_insert_eq.
  simpl observers_of in Hfire. rewrite for_each_app in Hfire.
  apply bind_Ok in Hfire as ([] & sa & Hpre & Hrest).
  rewrite for_each_cons in Hrest.
  apply bind_Ok in Hrest as ([] & sb & Hset & Hpost).
  simpl in Hpost. injection Hpost as <-. simpl in Hset.
  assert (Heva : evolves sw sa).
  { eapply (for_each_preserves evolves); [|exact Hpre].
    intros ob s0 s0' _. apply evolves_call_observer. }
  assert (Hev2a : evolves st2 sa) by (by etransitivity).
  assert (Hdfa : derived_from sa d1 d2 g) by (by eapply derived_from_evolves).
  assert (Hna : next sa = S d2) by (by rewrite (ev_next _ _ Hev2a)).
  destruct (set_recomputes fuel d1 d2 g (f v) sa Hdfa)
    as (sb' & Hset' & Hv2 & _ & _); [lia|lia|].
  rewrite Hset in Hset'. injection Hset' as <-.
  split; [|done].
  destruct Hdfa as [Hwfa (va & pre & post & Ha & _) _ _].
  destruct (ScalarProperty_set_value fuel d1 (f v) sa _ _ Hwfa Ha)
    as (sb' & Hset' & Hv1 & _); [lia|lia|].
  rewrite Hset in Hset'. injection Hset' as <-.
  unfold scalar_value. by rewrite Hv1.
Qed.

Lemma Derived_of_derived_witness :
  ∃ d1 d2 st1 st2,
    DerivedProperty_new 3 1 double scalar_store = Ok d1 st1
    ∧ DerivedProperty_new 3 d1 double st1 = Ok d2 st2
    ∧ ∀ v, ∃ st3,
        ScalarProperty_set 3 1 v st2 = Ok tt st3
        ∧ scalar_value st3 d1 = Some (double v)
        ∧ scalar_value st3 d2 = Some (double (double v)).
Proof.
  apply (Derived_of_derived 3 1 double double scalar_store (VNum 3) []).
  - apply wf_observers_check_sound. reflexivity.
  - reflexivity.
  - vm_compute. lia.
  - vm_compute. lia.
Defined.

(** ** A property derived from a link *)

(** X19.  A property derived from a link relationship that nothing else
    observes.  Built on a link that holds a node, the derived property holds
    the transform of that node at once (the test 'Derived from Link'); built
    on a link that holds nothing, it holds nothing until the link is set,
    and then the transform of the node the link was set to. *)
Theorem Derived_from_link (fuel : nat) (l : loc) (f : value → value)
    (targets : list string) (v : option loc) (st : store) :
  observables st !! l = Some (LinkRelationship targets v []) →
  l ≠ next st →
  ∃ st1,
    DerivedProperty_new (S fuel) l f st = Ok (next st) st1
    ∧ scalar_value st1 (next st)
      = Some (match v with
              | Some x => f (VConstruct x)
              | None => VUndefined
              end)
    ∧ (v = None →
       ∀ x, ∃ st2,
         LinkRelationship_set (S (S fuel)) l x st1 = Ok tt st2
         ∧ value_of_link st2 l = Some x
         ∧ scalar_value st2 (next st) = Some (f (VConstruct x))).
Proof.
  intros Hl Hne.
  set (d := next st).
  set (sd := bump (upd_observable d (ScalarProperty VUndefined []) st)).
  set (sr := upd_observable l (LinkRelationship targets v [ObsDerived d f]) sd).
  assert (Hsd : observables sd !! l = Some (LinkRelationship targets v [])).
  { simpl. by rewrite lookup_insert_ne. }
  assert (Hrl : observables sr !! l
                = Some (LinkRelationship targets v [ObsDerived d f]))
    by apply lookup_insert_eq.
  assert (Hrd : observables sr !! d = Some (ScalarProperty VUndefined [])).
  { simpl. rewrite lookup_insert_ne by done. apply lookup_insert_eq. }
  assert (Hreg : DerivedProperty_new (S fuel) l f st
                 = bind (notify_current (S fuel) l (ObsDerived d f))
                     (λ _, ret d) sr).
  { unfold DerivedProperty_new. unfold bind at 1.
    unfold ScalarProperty_new, new_observable. fold d. fold sd.
    unfold bind at 1. unfold addObserver. rewrite (bind_the_observable _ _ _ _ Hsd).
    unfold LinkRelationship_addObserver.
    by rewrite (bind_eq_Ok _ _ _ _ _ (Observable_addObserver_Ok _ _ _ _ Hsd)). }
  rewrite Hreg. unfold bind at 1. rewrite (notify_current_eq _ _ _ _ _ Hrl).
  destruct v as [x|]; simpl.
  - pose proof (write_scalar_Ok d (f (VConstruct x)) sr _ _ Hrd) as Hw.
    set (s1 := upd_observable d (ScalarProperty (f (VConstruct x)) []) sr) in *.
    assert (Hfire : fire (S fuel) d (f (VConstruct x)) s1 = Ok tt s1).
    { rewrite fire_S. erewrite bind_the_observable; [|apply lookup_insert_eq]. done. }
    exists s1. unfold ScalarProperty_set.
    rewrite (bind_eq_Ok _ _ _ _ _ Hw), Hfire.
    split; [done|]. split; [|done].
    unfold scalar_value. simpl. by rewrite lookup_insert_eq.
  - exists sr. split; [done|]. split.
    { unfold scalar_value. by rewrite Hrd. }
    intros _ x.
    set (sl := upd_observable l
                 (LinkRelationship targets (Some x) [ObsDerived d f]) sr).
    assert (Hld : observables sl !! d = Some (ScalarProperty VUndefined [])).
    { simpl. rewrite lookup_insert_ne by done.
      rewrite lookup_insert_ne by done. apply lookup_insert_eq. }
    pose proof (write_scalar_Ok d (f (VConstruct x)) sl _ _ Hld) as Hw.
    set (s2 := upd_observable d (ScalarProperty (f (VConstruct x)) []) sl) in *.
    assert (Hfire : fire (S fuel) d (f (VConstruct x)) s2 = Ok tt s2).
    { rewrite fire_S. erewrite bind_the_observable; [|apply lookup_insert_eq]. done. }
    exists s2. split.
    + unfold LinkRelationship_set.
      rewrite (bind_the_observable _ _ _ _ Hrl), bind_modify. fold sl.
      rewrite fire_S. erewrite bind_the_observable by apply lookup_insert_eq.
      simpl observers_of. rewrite for_each_cons. simpl call_observer.
      unfold ScalarProperty_set.
      rewrite bind_assoc, (bind_eq_Ok _ _ _ _ _ Hw).
      rewrite (bind_eq_Ok _ _ _ _ _ Hfire). done.
    + split.
      * unfold value_of_link. simpl. rewrite lookup_insert_ne by done.
        by rewrite lookup_insert_eq.
      * unfold scalar_value. simpl. by rewrite lookup_insert_eq.
Qed.

Lemma Derived_from_link_witness :
  ∃ st1,
    DerivedProperty_new 1 3 (λ x, VArr [x]) initial_link_store
    = Ok (next initial_link_store) st1
    ∧ scalar_value st1 (next initial_link_store) = Some (VArr [VConstruct 2])
    ∧ (Some 2 = None →
       ∀ x, ∃ st2,
         LinkRelationship_set 2 3 x st1 = Ok tt st2
         ∧ value_of_link st2 3 = Some x
         ∧ scalar_value st2 (next initial_link_store)
           = Some (VArr [VConstruct x])).
Proof.
  apply (Derived_from_link 0 3 (λ x, VArr [x]) [] (Some 2) initial_link_store).
  - reflexivity.
  - vm_compute. lia.
Defined.

(** ** The links of a resource *)

(** A first [set] of a link, when the fuel covers what it fires. *)
Lemma LinkRelationship_set_spec fuel l x st targets obs :
  wf_observers st →
  observables st !! l = Some (LinkRelationship targets None obs) →
  l < next st → next st ≤ fuel + l →
  ∃ st', LinkRelationship_set fuel l x st = Ok tt st'
    ∧ observables st' !! l = Some (LinkRelationship targets (Some x) obs)
    ∧ constructs st' = constructs st
    ∧ next st' = next st
    ∧ wf_observers st'
    ∧ ∀ l' t' v' obs', l' ≠ l →
        observables st !! l' = Some (LinkRelationship t' v' obs') →
        observables st' !! l' = Some (LinkRelationship t' v' obs').
Proof.
  intros Hwf Hl Hlt Hfuel.
  set (o' := LinkRelationship targets (Some x) obs).
  set (st1 := upd_observable l o' st).
  assert (Hwf1 : wf_observers st1).
  { eapply wf_observers_upd; [done..|]. intros v obs'. done. }
  assert (Hl1 : observables st1 !! l = Some o') by apply lookup_insert_eq.
  destruct (fire_returns fuel l (VConstruct x) st1) as [st' Hfire];
    [done|by eexists|done..|].
  assert (Hev : evolves st1 st') by (by eapply evolves_fire).
  exists st'. split.
  { unfold LinkRelationship_set.
    by rewrite (bind_the_observable _ _ _ _ Hl), bind_modify. }
  split; [by eapply evolves_link|].
  split; [by rewrite (ev_constructs _ _ Hev)|].
  split; [by rewrite (ev_next _ _ Hev)|].
  split; [by eapply evolves_wf|].
  intros l' t' v' obs' Hne Hl'. eapply evolves_link; [done|].
  simpl. by rewrite lookup_insert_ne.
Qed.

(** [linkTo], as a loop over the links. *)
Lemma Resource_linkTo_eq fuel this target c ty props links st :
  constructs st !! this = Some c →
  fields c = ResourceFields ty props links →
  Resource_linkTo fuel this target st
  = for_each links (λ lnk,
      o ← the_observable lnk;
      match o with
      | LinkRelationship targets _ _ =>
          t ← the_construct target;
          if existsb (includes (linkableTargets t)) targets
          then LinkRelationship_set fuel lnk target
          else ret tt
      | _ => throw BadReference
      end) st.
Proof.
  intros Hc Hf. unfold Resource_linkTo.
  by rewrite (bind_eq_Ok _ _ _ _ _ (the_resource_eq _ _ _ _ _ _ Hc Hf)).
Qed.

(** The links of [links] that [tags] match. *)
Lemma linkTo_loop fuel target tc (links : list loc) : ∀ st,
  constructs st !! target = Some tc →
  wf_observers st →
  NoDup links →
  (∀ l, l ∈ links →
     l < next st
     ∧ ∃ tg obs, observables st !! l = Some (LinkRelationship tg None obs)) →
  next st ≤ fuel →
  ∃ st', for_each links (λ lnk,
           o ← the_observable lnk;
           match o with
           | LinkRelationship targets _ _ =>
               t ← the_construct target;
               if existsb (includes (linkableTargets t)) targets
               then LinkRelationship_set fuel lnk target
               else ret tt
           | _ => throw BadReference
           end) st = Ok tt st'
    ∧ constructs st' = constructs st
    ∧ (∀ l tg v obs, l ∉ links →
         observables st !! l = Some (LinkRelationship tg v obs) →
         observables st' !! l = Some (LinkRelationship tg v obs))
    ∧ ∀ l tg obs, l ∈ links →
        observables st !! l = Some (LinkRelationship tg None obs) →
        observables st' !! l
        = Some (LinkRelationship tg
                  (if existsb (includes (linkableTargets tc)) tg
                   then Some target else None) obs).
Proof.
  induction links as [|l links IH]; intros st Htc Hwf Hnd Hall Hfuel.
  { exists st. split; [done|]. split; [done|]. split; [done|].
    intros l tg obs Hin. by apply elem_of_nil in Hin. }
  apply NoDup_cons in Hnd as [Hnotin Hnd].
  destruct (Hall l) as (Hlt & tg & obs & Hl); [left|].
  rewrite for_each_cons.
  assert (∃ s1, (o ← the_observable l;
                 match o with
                 | LinkRelationship targets _ _ =>
                     t ← the_construct target;
                     if existsb (includes (linkableTargets t)) targets
                     then LinkRelationship_set fuel l target
                     else ret tt
                 | _ => throw BadReference
                 end) st = Ok tt s1
            ∧ observables s1 !! l
              = Some (LinkRelationship tg
                        (if existsb (includes (linkableTargets tc)) tg
                         then Some target else None) obs)
            ∧ constructs s1 = constructs st
            ∧ next s1 = next st
            ∧ wf_observers s1
            ∧ ∀ l' t' v' obs', l' ≠ l →
                observables st !! l' = Some (LinkRelationship t' v' obs') →
                observables s1 !! l' = Some (LinkRelationship t' v' obs'))
    as (s1 & Hstep & Hl1 & Hc1 & Hn1 & Hwf1 & Hframe1).
  { rewrite (bind_the_observable _ _ _ _ Hl), (bind_the_construct _ _ _ _ Htc).
    destruct (existsb (includes (linkableTargets tc)) tg).
    - by apply LinkRelationship_set_spec; [done|done|done|lia].
    - exists st. rewrite bind_ret_l || idtac.
      split; [done|]. split; [done|]. split; [done|]. split; [done|].
      split; [done|]. by intros. }
  rewrite (bind_eq_Ok _ _ _ _ _ Hstep).
  destruct (IH s1) as (st' & Hrest & Hc' & Hout & Hin'); try done.
  - by rewrite Hc1.
  - intros l' Hl'. destruct (Hall l') as (Hlt' & tg' & obs' & Hl'0); [by right|].
    split; [by rewrite Hn1|]. exists tg', obs'.
    apply Hframe1; [|done]. intros ->. done.
  - by rewrite Hn1.
  - exists st'. split; [done|]. split; [by rewrite Hc', Hc1|]. split.
    + intros l' tg' v' obs' Hnin Hl'. apply not_elem_of_cons in Hnin as [Hne Hnin].
      apply Hout; [done|]. by apply Hframe1.
    + intros l' tg' obs' Hin Hl'. apply elem_of_cons in Hin as [->|Hin].
      * rewrite Hl in Hl'. injection Hl' as <- <-. by apply Hout.
      * apply Hin'; [done|]. apply Hframe1; [|done]. intros ->. done.
Qed.

(** X20.  [linkTo(target)] on a resource whose links are all unset and
    pairwise distinct ([addLink] does not check that a link is added once):
    it returns, every link whose targets meet the tags [target] advertises
    holds [target], and every other link is still unset.  Linking the
    target a second time then throws [AlreadyLinkedError], when at least one
    link matched. *)
Theorem Resource_linkTo_sets_matching_links (fuel : nat) (this target : loc)
    (c tc : Construct) (ty : string) (props : obj loc) (links : list loc)
    (st : store) :
  constructs st !! this = Some c →
  fields c = ResourceFields ty props links →
  constructs st !! target = Some tc →
  wf_observers st →
  NoDup links →
  (∀ l, l ∈ links →
     l < next st
     ∧ ∃ tg obs, observables st !! l = Some (LinkRelationship tg None obs)) →
  next st ≤ fuel →
  ∃ st', Resource_linkTo fuel this target st = Ok tt st'
    ∧ (∀ l tg obs, l ∈ links →
         observables st !! l = Some (LinkRelationship tg None obs) →
         observables st' !! l
         = Some (LinkRelationship tg
                   (if existsb (includes (linkableTargets tc)) tg
                    then Some target else None) obs))
    ∧ ∀ fuel' l tg obs, l ∈ links →
        observables st !! l = Some (LinkRelationship tg None obs) →
        existsb (includes (linkableTargets tc)) tg = true →
        ∃ st'', Resource_linkTo fuel' this target st'
                = Throw AlreadyLinkedError st''.
Proof.
  intros Hc Hf Htc Hwf Hnd Hall Hfuel.
  destruct (linkTo_loop fuel target tc links st Htc Hwf Hnd Hall Hfuel)
    as (st' & Hloop & Hc' & _ & Hin).
  exists st'. rewrite (Resource_linkTo_eq _ _ _ _ _ _ _ _ Hc Hf).
  split; [done|]. split; [done|].
  intros fuel' l tg obs Hl Hobs Hm.
  assert (Hc2 : constructs st' !! this = Some c) by (by rewrite Hc').
  assert (Htc2 : constructs st' !! target = Some tc) by (by rewrite Hc').
  rewrite (Resource_linkTo_eq _ _ _ _ _ _ _ _ Hc2 Hf).
  clear Hloop Hnd Hfuel Hf Hc Hc2.
  induction links as [|l0 links IH]; [by apply elem_of_nil in Hl|].
  destruct (Hall l0) as (_ & tg0 & obs0 & Hl0); [left|].
  pose proof (Hin l0 tg0 obs0 ltac:(left) Hl0) as Hl0'.
  rewrite for_each_cons.
  rewrite bind_assoc, (bind_the_observable _ _ _ _ Hl0').
  rewrite bind_assoc, (bind_the_construct _ _ _ _ Htc2).
  destruct (existsb (includes (linkableTargets tc)) tg0) eqn:Hm0.
  - exists st'.
    assert (Hthrow : LinkRelationship_set fuel' l0 target st'
                     = Throw AlreadyLinkedError st').
    { unfold LinkRelationship_set. by rewrite (bind_the_observable _ _ _ _ Hl0'). }
    unfold bind at 1. by rewrite Hthrow.
  - rewrite bind_ret_l.
    apply elem_of_cons in Hl as [->|Hl].
    { rewrite Hl0 in Hobs. injection Hobs as -> ->. congruence. }
    apply IH; [| |done].
    + intros l' Hl'. apply Hall. by right.
    + intros l' tg' obs' Hl' Ho'. apply Hin; [by right|done].
Qed.

Lemma Resource_linkTo_sets_matching_links_witness :
  ∃ st', Resource_linkTo 5 2 4 link_resource_store = Ok tt st'
    ∧ (∀ l tg obs, l ∈ [3] →
         observables link_resource_store !! l
         = Some (LinkRelationship tg None obs) →
         observables st' !! l
         = Some (LinkRelationship tg
                   (if existsb (includes ["B"]) tg then Some 4 else None) obs))
    ∧ ∀ fuel' l tg obs, l ∈ [3] →
        observables link_resource_store !! l
        = Some (LinkRelationship tg None obs) →
        existsb (includes ["B"]) tg = true →
        ∃ st'', Resource_linkTo fuel' 2 4 st' = Throw AlreadyLinkedError st''.
Proof.
  eapply (Resource_linkTo_sets_matching_links 5 2 4 _
            (mkConstruct (Just 1) (Just "Buck") ["B"] [] PlainConstruct)
            "T" [] [3] link_resource_store).
  - reflexivity.
  - reflexivity.
  - reflexivity.
  - apply wf_observers_check_sound. reflexivity.
  - apply NoDup_singleton.
  - intros l ->%list_elem_of_singleton. split; [vm_compute; lia|].
    by eexists _, _.
  - vm_compute. lia.
Defined.

(** ** Building a bucket *)

(** The constructor of [Bucket] ends where [makeLinkableAs] is called, if
    not before. *)
Lemma Bucket_new_eq (fuel : nat) (scope : loc) (i : string)
    (props : Bucket.BucketProps) (linkables : list (option linkable))
    (st : store) :
  Bucket.new fuel scope i props linkables st
  = match Resource_new scope i "AWS::S3::Bucket" st with
    | Ok _ st' => Throw JsTypeError st'
    | Throw e st' => Throw e st'
    | Diverge => Diverge
    end.
Proof.
  unfold Bucket.new. unfold bind at 1.
  by destruct (Resource_new scope i "AWS::S3::Bucket" st).
Qed.

(** X21.  As the sources stand, [new Bucket(scope, id, props, linkables)]
    never returns: [construct.ts] names its method [makeLinkable], so
    [this.makeLinkableAs(...)] is a [TypeError], thrown after the
    constructor of [Resource] has run.  Where that constructor accepts the
    scope and the id, the resource stays behind half built: it is the last
    child of [scope], it has no property and advertises nothing, and no
    property was created.  The id is then taken, so a second
    [new Bucket(scope, id, ...)] throws [DuplicateIdError]. *)
Theorem Bucket_new_throws (fuel : nat) (scope : loc) (i : string)
    (props : Bucket.BucketProps) (linkables : list (option linkable))
    (st : store) :
  (∀ l st', Bucket.new fuel scope i props linkables st ≠ Ok l st')
  ∧ ∀ pc,
      constructs st !! scope = Some pc →
      scope < next st →
      truthy_string i = true →
      has (children pc) i || inherited i = false →
      ∃ st', Bucket.new fuel scope i props linkables st = Throw JsTypeError st'
        ∧ children_of st' scope = children pc ++ [(i, next st)]
        ∧ constructs st' !! next st
          = Some (mkConstruct (Just scope) (Just i) [] []
                    (ResourceFields "AWS::S3::Bucket" [] []))
        ∧ observables st' = observables st
        ∧ ∀ fuel' props' linkables',
            ∃ st'', Bucket.new fuel' scope i props' linkables' st'
                    = Throw DuplicateIdError st''.
Proof.
  split.
  { intros l st'. rewrite Bucket_new_eq.
    by destruct (Resource_new scope i "AWS::S3::Bucket" st). }
  intros pc Hp Hlt Hk Hh.
  assert (Hne : scope ≠ next st) by lia.
  rewrite Bucket_new_eq. unfold Resource_new. rewrite Construct_new_eq.
  simpl. rewrite Hk, lookup_insert_ne, Hp, Hh by done.
  apply orb_false_iff in Hh as [Hh _]. apply has_false_get in Hh.
  rewrite (set_fresh _ _ _ Hh).
  eexists. split; [reflexivity|]. unfold children_of. simpl.
  rewrite lookup_insert_eq. simpl.
  split; [done|]. split; [by rewrite lookup_insert_ne, lookup_insert_eq|].
  split; [done|].
  intros fuel' props' linkables'.
  rewrite Bucket_new_eq. unfold Resource_new. rewrite Construct_new_eq.
  simpl. rewrite Hk, lookup_insert_ne, lookup_insert_eq by lia. simpl.
  assert (has (children pc ++ [(i, next st)]) i = true) as ->.
  { apply has_get. rewrite get_app, Hh. simpl. rewrite String.eqb_refl. eauto. }
  simpl. eauto.
Qed.

(** A bucket ["B"] under the root of [root_store]. *)
Lemma Bucket_new_throws_witness :
  ∃ st', Bucket.new 5 1 "B" Bucket.no_props [] root_store = Throw JsTypeError st'
    ∧ children_of st' 1 = [] ++ [("B", next root_store)]
    ∧ constructs st' !! next root_store
      = Some (mkConstruct (Just 1) (Just "B") [] []
                (ResourceFields "AWS::S3::Bucket" [] []))
    ∧ observables st' = observables root_store
    ∧ ∀ fuel' props' linkables',
        ∃ st'', Bucket.new fuel' 1 "B" props' linkables' st'
                = Throw DuplicateIdError st''.
Proof.
  apply (proj2 (Bucket_new_throws 5 1 "B" Bucket.no_props [] root_store)
           (mkConstruct Undefined Undefined [] [] PlainConstruct)).
  - reflexivity.
  - vm_compute. lia.
  - reflexivity.
  - reflexivity.
Defined.

(** ** Tokens *)

Lemma list_ascii_of_string_app (a b : string) :
  Stdlib.Strings.String.list_ascii_of_string (a +:+ b)
  = Stdlib.Strings.String.list_ascii_of_string a ++ Stdlib.Strings.String.list_ascii_of_string b.
Proof.
  induction a as [|x a IH]; [done|].
  change (x :: Stdlib.Strings.String.list_ascii_of_string (a +:+ b)
          = x :: (Stdlib.Strings.String.list_ascii_of_string a ++ Stdlib.Strings.String.list_ascii_of_string b)).
  by rewrite IH.
Qed.

Lemma string_app_inj_r (a b c : string) : a +:+ c = b +:+ c → a = b.
Proof.
  intros H. apply (f_equal Stdlib.Strings.String.list_ascii_of_string) in H.
  rewrite !list_ascii_of_string_app in H. apply app_inv_tail in H.
  apply (f_equal Stdlib.Strings.String.string_of_list_ascii) in H.
  by rewrite !Stdlib.Strings.String.string_of_list_ascii_of_string in H.
Qed.

Lemma decimal_inj (n m : N) : Tokens.decimal n = Tokens.decimal m → n = m.
Proof.
  unfold Tokens.decimal. intros H.
  assert (Hnn : ∀ k, N.to_uint k ≠ Decimal.Nil).
  { intros [|p]; [done|]. apply DecimalPos.Unsigned.to_uint_nonnil. }
  apply (f_equal DecimalString.NilZero.uint_of_string) in H.
  rewrite !DecimalString.NilZero.usu in H by apply Hnn.
  injection H as H. by apply DecimalN.Unsigned.to_uint_inj.
Qed.

Lemma token_inj (n m : N) : Tokens.token n = Tokens.token m → n = m.
Proof.
  unfold Tokens.token. intros H.
  apply (inj (String.app "${Token")) in H.
  apply string_app_inj_r in H. by apply decimal_inj.
Qed.

(** X24.  Tokens and back.  A string is its own token, and asking for it
    registers nothing.  Every other value is registered under a new token,
    and [fromString] of that token gives the value back, with one
    exception: the token of [undefined] resolves to the token itself, so
    the value [undefined] does not come back. *)
Theorem tokenToString_then_fromString (x : Tokens.data) (st : Tokens.state) :
  match x with
  | Tokens.DStr s => Tokens.tokenToString x st = (s, st)
  | Tokens.DUndefined =>
      ∃ st', Tokens.tokenToString x st = (Tokens.token (Tokens.ctr st), st')
             ∧ Tokens.fromString st' (Tokens.token (Tokens.ctr st))
               = Tokens.DStr (Tokens.token (Tokens.ctr st))
  | _ =>
      ∃ st', Tokens.tokenToString x st = (Tokens.token (Tokens.ctr st), st')
             ∧ Tokens.fromString st' (Tokens.token (Tokens.ctr st)) = x
  end.
Proof.
  destruct x; simpl; try done;
    (eexists; split; [reflexivity|]);
    unfold Tokens.fromString; simpl; by rewrite lookup_insert_eq.
Qed.

(** X25.  Tokens do not collide.  In a state whose tokens were all issued
    by [tokenToString], and as long as the counter is below [2^53], the
    token of a new value is not registered yet, and the state after it still
    resolves every token issued before to the same value. *)
Theorem tokenToString_keeps_tokens (x : Tokens.data) (st : Tokens.state) :
  Tokens.issued st →
  (Tokens.ctr st < 2 ^ 53)%N →
  (∀ s, x ≠ Tokens.DStr s) →
  ∃ st', Tokens.tokenToString x st = (Tokens.token (Tokens.ctr st), st')
    ∧ Tokens.TOKENS st !! Tokens.token (Tokens.ctr st) = None
    ∧ Tokens.issued st'
    ∧ ∀ k, is_Some (Tokens.TOKENS st !! k) →
        Tokens.fromString st' k = Tokens.fromString st k.
Proof.
  intros Hiss Hctr Hns.
  assert (Hfresh : Tokens.TOKENS st !! Tokens.token (Tokens.ctr st) = None).
  { destruct (Tokens.TOKENS st !! Tokens.token (Tokens.ctr st)) eqn:E; [|done].
    destruct (Hiss (Tokens.token (Tokens.ctr st))) as (n & Hlt & Heq);
      [by rewrite E|].
    apply token_inj in Heq. lia. }
  set (st' := Tokens.mkState
                (<[Tokens.token (Tokens.ctr st) := x]> (Tokens.TOKENS st))
                (Tokens.incr (Tokens.ctr st))).
  assert (Hincr : Tokens.incr (Tokens.ctr st) = (Tokens.ctr st + 1)%N).
  { unfold Tokens.incr. by apply N.ltb_lt in Hctr as ->. }
  exists st'. split; [|split; [done|split]].
  - destruct x; try done. by destruct (Hns s).
  - intros k Hk. simpl in *. rewrite Hincr.
    rewrite lookup_insert in Hk. case_decide.
    + subst k. exists (Tokens.ctr st). split; [lia|done].
    + destruct (Hiss k Hk) as (n & Hlt & Heq). exists n. split; [lia|done].
  - intros k Hk. unfold Tokens.fromString. simpl.
    rewrite lookup_insert_ne; [done|].
    intros <-. rewrite Hfresh in Hk. by destruct Hk.
Qed.

Lemma issued_initial : Tokens.issued Tokens.initial.
Proof. intros k [v Hv]. simpl in Hv. by rewrite lookup_empty in Hv. Qed.

Lemma tokenToString_keeps_tokens_witness :
  ∃ st', Tokens.tokenToString (Tokens.DNum 7) Tokens.initial
         = (Tokens.token 1, st')
    ∧ Tokens.TOKENS Tokens.initial !! Tokens.token 1 = None
    ∧ Tokens.issued st'
    ∧ ∀ k, is_Some (Tokens.TOKENS Tokens.initial !! k) →
        Tokens.fromString st' k = Tokens.fromString Tokens.initial k.
Proof.
  apply (tokenToString_keeps_tokens (Tokens.DNum 7) Tokens.initial).
  - apply issued_initial.
  - reflexivity.
  - done.
Defined.

(** *** Resolving a document *)

Lemma data_ind' (P : Tokens.data → Prop) :
  P Tokens.DUndefined →
  P Tokens.DNull →
  (∀ b, P (Tokens.DBool b)) →
  (∀ n, P (Tokens.DNum n)) →
  (∀ s, P (Tokens.DStr s)) →
  (∀ items, Forall P items → P (Tokens.DArr items)) →
  (∀ fs, Forall (λ e, P (snd e)) fs → P (Tokens.DObj fs)) →
  ∀ x, P x.
Proof.
  intros Hu Hn Hb Hnum Hs Harr Hobj. fix IH 1.
  intros [| |b|n|s|items|fs]; [done..| |].
  - apply Harr.
    refine ((fix all (xs : list Tokens.data) : Forall P xs :=
               match xs with
               | [] => Forall_nil_2 P
               | y :: xs' => Forall_cons_2 P y xs' (IH y) (all xs')
               end) items).
  - apply Hobj.
    refine ((fix all (fs : list (string * Tokens.data))
               : Forall (λ e, P (snd e)) fs :=
               match fs with
               | [] => Forall_nil_2 _
               | e :: fs' => Forall_cons_2 _ e fs' (IH (snd e)) (all fs')
               end) fs).
Qed.

Lemma entries_map {V W} (g : V → W) (o : obj V) :
  entries (map (λ e, (fst e, g (snd e))) o)
  = map (λ e, (fst e, g (snd e))) (entries o).
Proof.
  unfold entries. rewrite map_app. f_equal.
  - assert (Hi : index_entries (map (λ e, (fst e, g (snd e))) o)
                 = map (λ ne, (fst ne, (fst (snd ne), g (snd (snd ne)))))
                     (index_entries o)).
    { unfold index_entries. induction o as [|[k v] o IH]; [done|].
      cbn [map omap list_omap fst snd]. rewrite IH.
      by destruct (array_index k). }
    rewrite Hi.
    rewrite (stable_sort_map (λ a b, (fst a <=? fst b)%N)
               (λ a b, (fst a <=? fst b)%N)
               (λ ne, (fst ne, (fst (snd ne), g (snd (snd ne))))))
      by done.
    rewrite !map_map. done.
  - unfold named_entries. induction o as [|[k v] o IH]; [done|].
    cbn [map]. rewrite !filter_cons. cbn [fst snd].
    destruct (decide (array_index k = None)); cbn [map fst snd]; by rewrite IH.
Qed.

Lemma get_None_keys {V} (o : obj V) (k : string) :
  k ∉ map fst o → get o k = None.
Proof.
  induction o as [|[k' v] o IH]; [done|]. simpl. intros Hk.
  apply not_elem_of_cons in Hk as [Hne Hk].
  destruct (String.eqb_spec k' k); [congruence|]. by apply IH.
Qed.

Lemma foldl_set_fresh {V} (es : list (string * V)) : ∀ acc : obj V,
  NoDup (map fst (acc ++ es)) →
  foldl (λ o e, set o (fst e) (snd e)) acc es = acc ++ es.
Proof.
  induction es as [|[k v] es IH]; intros acc Hnd; simpl.
  - by rewrite app_nil_r.
  - rewrite set_fresh.
    + rewrite IH; [by rewrite <- app_assoc|]. by rewrite <- app_assoc.
    + apply get_None_keys. rewrite map_app in Hnd.
      apply NoDup_app in Hnd as (_ & Hdisj & _). intros Hin.
      apply (Hdisj k Hin). simpl. left.
Qed.

Lemma fromEntries_NoDup {V} (es : list (string * V)) :
  NoDup (map fst es) → fromEntries es = es.
Proof. intros Hnd. unfold fromEntries. by rewrite (foldl_set_fresh es []). Qed.

(** [deepResolve] on an object, as the source has it. *)
Lemma deepResolve_object (st : Tokens.state) (fs : list (string * Tokens.data)) :
  Tokens.deepResolve st (Tokens.DObj fs)
  = Tokens.DObj
      (fromEntries
         (map (λ e, (fst e, Tokens.deepResolve st (snd e))) (entries fs))).
Proof.
  cbn [Tokens.deepResolve]. do 2 f_equal.
  rewrite <- entries_map. f_equal.
  induction fs as [|[k v] fs IH]; [done|]. cbn [map fst snd]. by rewrite IH.
Qed.

Lemma canonical_object (fs : list (string * Tokens.data)) :
  Tokens.canonical (Tokens.DObj fs)
  ↔ NoDup (map fst fs) ∧ entries fs = fs
    ∧ Forall (λ e, Tokens.canonical (snd e)) fs.
Proof.
  cbn [Tokens.canonical].
  assert (H : ∀ l : list (string * Tokens.data),
            (fix all (fs : list (string * Tokens.data)) :=
               match fs with
               | [] => True
               | (_, v) :: fs' => Tokens.canonical v ∧ all fs'
               end) l
            ↔ Forall (λ e, Tokens.canonical (snd e)) l).
  { induction l as [|[k v] l IH]; [by split; [constructor|]|].
    rewrite Forall_cons, IH. done. }
  by rewrite H.
Qed.

Lemma canonical_array (items : list Tokens.data) :
  Tokens.canonical (Tokens.DArr items) ↔ Forall Tokens.canonical items.
Proof.
  cbn [Tokens.canonical].
  induction items as [|y ys IH]; [by split; [constructor|]|].
  rewrite Forall_cons, IH. done.
Qed.

Lemma token_free_object (st : Tokens.state) (fs : list (string * Tokens.data)) :
  Tokens.token_free st (Tokens.DObj fs)
  ↔ Forall (λ e, Tokens.token_free st (snd e)) fs.
Proof.
  cbn [Tokens.token_free].
  induction fs as [|[k v] l IH]; [by split; [constructor|]|].
  rewrite Forall_cons, IH. done.
Qed.

Lemma token_free_array (st : Tokens.state) (items : list Tokens.data) :
  Tokens.token_free st (Tokens.DArr items)
  ↔ Forall (Tokens.token_free st) items.
Proof.
  cbn [Tokens.token_free].
  induction items as [|y ys IH]; [by split; [constructor|]|].
  rewrite Forall_cons, IH. done.
Qed.

(** X26.  Resolving a document that holds no registered token gives the
    document back: every string, number, boolean, [null] and [undefined]
    stays where it is, at any depth of arrays and objects, and every object
    keeps its keys in their order. *)
Theorem deepResolve_token_free (st : Tokens.state) (x : Tokens.data) :
  Tokens.canonical x →
  Tokens.token_free st x →
  Tokens.deepResolve st x = x.
Proof.
  induction x as [| |b|n|s|items IH|fs IH] using data_ind'; try done.
  - intros _ Hs. simpl in *. unfold Tokens.fromString. by rewrite Hs.
  - intros Hc%canonical_array Hf%token_free_array.
    cbn [Tokens.deepResolve]. f_equal.
    induction IH as [|y ys Hy _ IHl]; [done|].
    apply Forall_cons in Hc as [Hcy Hc]. apply Forall_cons in Hf as [Hfy Hf].
    cbn [map]. rewrite Hy by done. by rewrite IHl.
  - intros (Hnd & He & Hc)%canonical_object Hf%token_free_object.
    rewrite deepResolve_object, He. f_equal.
    assert (Hmap : map (λ e, (fst e, Tokens.deepResolve st (snd e))) fs = fs).
    { clear Hnd He. induction IH as [|[k v] l Hy _ IHl]; [done|].
      apply Forall_cons in Hc as [Hcy Hc]. apply Forall_cons in Hf as [Hfy Hf].
      cbn [map fst snd] in *. rewrite Hy by done. by rewrite IHl. }
    rewrite Hmap. by apply fromEntries_NoDup.
Qed.

Lemma deepResolve_token_free_witness :
  Tokens.deepResolve Tokens.initial
    (Tokens.DObj [("Tags", Tokens.DArr [Tokens.DStr "a"; Tokens.DNum 1])])
  = Tokens.DObj [("Tags", Tokens.DArr [Tokens.DStr "a"; Tokens.DNum 1])].
Proof.
  apply (deepResolve_token_free Tokens.initial).
  - simpl. split; [|done]. apply NoDup_singleton.
  - simpl. done.
Defined.

(** ** Lenses *)

(** Applying operations at an object: the loop ends, and of the objects
    that were there only the one it starts at can have changed. *)
Lemma Lens_run_at_object (ops : list Lens.op) :
  ∀ (r : loc) (k0 : option string) (o : obj Lens.lval) (w : Lens.world),
  Lens.objects w !! r = Some o →
  r < Lens.next w →
  ∃ w', Lens.run ops (Lens.mkContext (Lens.LRef r) k0) w = Lens.Done tt w'
    ∧ Lens.lenses w' = Lens.lenses w
    ∧ Lens.next w ≤ Lens.next w'
    ∧ ∀ l, l < Lens.next w → l ≠ r →
        Lens.objects w' !! l = Lens.objects w !! l.
Proof.
  induction ops as [|[k v|k] ops IH]; intros r k0 o w Hr Hlt.
  - exists w. by repeat split.
  - cbn [Lens.run Lens.op_apply Lens.value]. rewrite Hr.
    set (w1 := Lens.mkWorld _ _ _).
    destruct (IH r k0 (set o k v) w1) as (w' & Hrun & Hl & Hn & Hfr).
    { apply lookup_insert_eq. }
    { done. }
    exists w'. split; [done|]. split; [done|]. split; [done|].
    intros l H1 H2. rewrite (Hfr l H1 H2). simpl. by rewrite lookup_insert_ne.
  - cbn [Lens.run Lens.op_apply Lens.value]. rewrite Hr. cbv zeta.
    set (w1 := Lens.mkWorld _ _ _).
    destruct (IH (Lens.next w) (Some k) [] w1) as (w' & Hrun & Hl & Hn & Hfr).
    { apply lookup_insert_eq. }
    { simpl. lia. }
    exists w'. split; [done|]. split; [done|]. split; [simpl in Hn; lia|].
    intros l H1 H2. rewrite (Hfr l); [|simpl; lia|lia].
    simpl. rewrite !lookup_insert_ne by lia. done.
Qed.

(** X27.  Applying a lens whose operations have keys other than
    [__proto__].  To a plain object, every such lens applies without an
    error, whatever its operations; it changes no other object that was
    there (what it builds below the object is new).  To what is no object
    ([undefined], [null], a number, a string, a boolean), a lens with no
    operation applies and does nothing, and any other lens throws at its
    first operation, having changed nothing: [descend] throws its own
    error, [set] the [TypeError] of the runtime. *)
Theorem Lens_apply_outcomes (this : loc) (ops : list Lens.op) (x : Lens.lval)
    (w : Lens.world) :
  Lens.lenses w !! this = Some ops →
  Forall (λ o, Lens.op_key o ≠ "__proto__") ops →
  (∀ r o, x = Lens.LRef r → Lens.objects w !! r = Some o → r < Lens.next w →
     ∃ w', Lens.apply this x w = Lens.Done tt w'
       ∧ ∀ l, l < Lens.next w → l ≠ r →
           Lens.objects w' !! l = Lens.objects w !! l)
  ∧ (Lens.is_object x = false →
     Lens.apply this x w
     = match ops with
       | [] => Lens.Done tt w
       | o :: _ => Lens.Thrown (Lens.refusal o) w
       end).
Proof.
  intros Hops _. unfold Lens.apply. rewrite Hops. split.
  - intros r o -> Hr Hlt.
    destruct (Lens_run_at_object ops r None o w Hr Hlt)
      as (w' & Hrun & _ & _ & Hfr).
    eauto.
  - intros Hx. destruct ops as [|[k v|k] ops]; [done| |];
      cbn [Lens.run Lens.op_apply Lens.value Lens.refusal];
      by destruct x.
Qed.

(** The lens of [lens_world], applied to the object [{a: 'old'}] and to
    [null]. *)
Lemma Lens_apply_outcomes_witness :
  (∃ w', Lens.apply 1 (Lens.LRef 0) lens_world = Lens.Done tt w'
     ∧ ∀ l, l < Lens.next lens_world → l ≠ 0 →
         Lens.objects w' !! l = Lens.objects lens_world !! l)
  ∧ Lens.apply 1 Lens.LNull lens_world
    = Lens.Thrown Lens.ExpectedObjectError lens_world.
Proof.
  assert (Hkeys : Forall (λ o, Lens.op_key o ≠ "__proto__")
                    [Lens.OpDescend "a"; Lens.OpSet "b" (Lens.LNum 1)]).
  { by repeat constructor. }
  split.
  - destruct (Lens_apply_outcomes 1
                [Lens.OpDescend "a"; Lens.OpSet "b" (Lens.LNum 1)]
                (Lens.LRef 0) lens_world eq_refl Hkeys) as [H _].
    apply (H 0 [("a", Lens.LStr "old")]); [reflexivity|reflexivity|].
    simpl. lia.
  - destruct (Lens_apply_outcomes 1
                [Lens.OpDescend "a"; Lens.OpSet "b" (Lens.LNum 1)]
                Lens.LNull lens_world eq_refl Hkeys) as [_ H].
    exact (H eq_refl).
Defined.

(** The calls on a lens add up. *)
Lemma Lens_chain_spec (calls : list Lens.op) :
  ∀ (this : loc) (ops : list Lens.op) (w : Lens.world),
  Lens.lenses w !! this = Some ops →
  ∃ w', Lens.chain this calls w = Lens.Done this w'
    ∧ Lens.lenses w' !! this = Some (ops ++ calls)
    ∧ Lens.objects w' = Lens.objects w
    ∧ Lens.next w' = Lens.next w.
Proof.
  induction calls as [|c calls IH]; intros this ops w Hops.
  - exists w. rewrite app_nil_r. by repeat split.
  - cbn [Lens.chain]. unfold Lens.push. rewrite Hops.
    set (w1 := Lens.mkWorld _ _ _).
    destruct (IH this (ops ++ [c]) w1) as (w' & Hch & Hl & Ho & Hn).
    { apply lookup_insert_eq. }
    exists w'. split; [done|]. split; [by rewrite Hl, <- app_assoc|]. done.
Qed.

(** Descending along a path and setting a key there. *)
Lemma Lens_run_path (path : list string) (k : string) (v : Lens.lval) :
  ∀ (r : loc) (k0 : option string) (o : obj Lens.lval) (w : Lens.world),
  Lens.objects w !! r = Some o →
  r < Lens.next w →
  ∃ w', Lens.run (map Lens.OpDescend path ++ [Lens.OpSet k v])
          (Lens.mkContext (Lens.LRef r) k0) w = Lens.Done tt w'
    ∧ Lens.read w' (Lens.LRef r) (path ++ [k]) = Some v
    ∧ (∀ l, l < Lens.next w → l ≠ r →
         Lens.objects w' !! l = Lens.objects w !! l)
    ∧ match path with
      | [] => Lens.objects w' !! r = Some (set o k v)
      | k1 :: _ =>
          Lens.objects w' !! r = Some (set o k1 (Lens.LRef (Lens.next w)))
      end.
Proof.
  induction path as [|k1 path IH]; intros r k0 o w Hr Hlt.
  - cbn [map app Lens.run Lens.op_apply Lens.value]. rewrite Hr.
    eexists. split; [reflexivity|]. cbn [Lens.read Lens.objects].
    rewrite lookup_insert_eq, get_set_eq.
    split; [done|]. split; [|done].
    intros l H1 H2. by rewrite lookup_insert_ne.
  - cbn [map app Lens.run Lens.op_apply Lens.value]. rewrite Hr. cbv zeta.
    set (n := Lens.next w).
    set (w1 := Lens.mkWorld _ _ _).
    destruct (IH n (Some k1) [] w1) as (w' & Hrun & Hread & Hfr & _).
    { apply lookup_insert_eq. }
    { simpl. lia. }
    assert (Hr' : Lens.objects w' !! r = Some (set o k1 (Lens.LRef n))).
    { rewrite (Hfr r); [|simpl; lia|unfold n; lia].
      simpl. rewrite lookup_insert_ne by (unfold n; lia).
      apply lookup_insert_eq. }
    exists w'. split; [done|]. split; [|split; [|done]].
    + cbn [app Lens.read]. rewrite Hr', get_set_eq. done.
    + intros l H1 H2. rewrite (Hfr l); [|simpl; lia|unfold n; lia].
      simpl. rewrite !lookup_insert_ne by (unfold n; lia). done.
Qed.

(** X28.  A lens that descends and sets, under keys other than
    [__proto__].  The lens built by
    [new Lens().descend(k1)...descend(kn).set(k, v)], applied to a plain
    object, leaves [v] at [object[k1]...[kn][k]].  Each [descend] puts a new
    empty object under its key, so what the object held under [k1] before is
    replaced, not extended; no other object that was there is changed. *)
Theorem Lens_descend_then_set (path : list string) (k : string)
    (v : Lens.lval) (r : loc) (o : obj Lens.lval) (w : Lens.world) :
  Forall (λ k', k' ≠ "__proto__") (path ++ [k]) →
  Lens.objects w !! r = Some o →
  r < Lens.next w →
  ∃ this w0 w1 w2,
    Lens.new w = Lens.Done this w0
    ∧ Lens.chain this (map Lens.OpDescend path ++ [Lens.OpSet k v]) w0
      = Lens.Done this w1
    ∧ Lens.apply this (Lens.LRef r) w1 = Lens.Done tt w2
    ∧ Lens.read w2 (Lens.LRef r) (path ++ [k]) = Some v
    ∧ (∀ l, l < Lens.next w → l ≠ r →
         Lens.objects w2 !! l = Lens.objects w !! l)
    ∧ match path with
      | [] => Lens.objects w2 !! r = Some (set o k v)
      | k1 :: _ =>
          Lens.objects w2 !! r = Some (set o k1 (Lens.LRef (S (Lens.next w))))
      end.
Proof.
  intros _ Hr Hlt.
  set (this := Lens.next w).
  set (w0 := Lens.mkWorld (<[this := []]> (Lens.lenses w)) (Lens.objects w)
               (S this)).
  destruct (Lens_chain_spec (map Lens.OpDescend path ++ [Lens.OpSet k v])
              this [] w0) as (w1 & Hch & Hl1 & Ho1 & Hn1).
  { apply lookup_insert_eq. }
  destruct (Lens_run_path path k v r None o w1) as (w2 & Hrun & Hread & Hfr & Hroot).
  { by rewrite Ho1. }
  { rewrite Hn1. simpl. unfold this. lia. }
  exists this, w0, w1, w2. split; [done|]. split; [done|]. split.
  { unfold Lens.apply. by rewrite Hl1. }
  split; [done|]. split.
  - intros l H1 H2. rewrite (Hfr l); [by rewrite Ho1|rewrite Hn1; simpl; lia|done].
  - by rewrite Hn1 in Hroot.
Qed.

Lemma Lens_descend_then_set_witness :
  ∃ this w0 w1 w2,
    Lens.new lens_world = Lens.Done this w0
    ∧ Lens.chain this (map Lens.OpDescend ["a"; "c"]
                       ++ [Lens.OpSet "b" (Lens.LNum 1)]) w0
      = Lens.Done this w1
    ∧ Lens.apply this (Lens.LRef 0) w1 = Lens.Done tt w2
    ∧ Lens.read w2 (Lens.LRef 0) (["a"; "c"] ++ ["b"]) = Some (Lens.LNum 1)
    ∧ (∀ l, l < Lens.next lens_world → l ≠ 0 →
         Lens.objects w2 !! l = Lens.objects lens_world !! l)
    ∧ Lens.objects w2 !! 0
      = Some (set [("a", Lens.LStr "old")] "a"
                (Lens.LRef (S (Lens.next lens_world)))).
Proof.
  apply (Lens_descend_then_set ["a"; "c"] "b" (Lens.LNum 1) 0
           [("a", Lens.LStr "old")] lens_world).
  - by repeat constructor.
  - reflexivity.
  - simpl. lia.
Defined.

(** ** Link handlers *)

(** The keys that [Object.keys] lists are the keys that hold something. *)
Lemma get_keys_entries {V} (o : obj V) (k : string) :
  k ∈ map fst (entries o) ↔ get o k ≠ None.
Proof.
  rewrite (entries_perm o).
  induction o as [|[k' v] o IH]; simpl.
  - split; [by intros ?%elem_of_nil | done].
  - rewrite elem_of_cons, IH. destruct (String.eqb_spec k' k) as [->|Hne].
    + split; [done | by left].
    + split; [by intros [->|?] | by right].
Qed.

Lemma add_handler_eq cb (hs : obj (list nat)) (target : string) :
  LinkHandlers.add_handler cb hs target
  = match get hs target with
    | Some fns => Some (set hs target (fns ++ [cb]))
    | None => if inherited target then None else Some (set hs target [cb])
    end.
Proof.
  unfold LinkHandlers.add_handler.
  destruct (get hs target) as [fns|] eqn:E; simpl.
  - by rewrite E.
  - destruct (inherited target); simpl.
    + by rewrite E.
    + rewrite get_set_eq. f_equal. simpl.
      clear E. induction hs as [|[k v] hs IH]; simpl.
      * by rewrite String.eqb_refl.
      * destruct (String.eqb k target) eqn:Ek; simpl; rewrite Ek; [done|].
        by rewrite IH.
Qed.

Lemma get_add_handler cb (hs hs' : obj (list nat)) (target k : string) :
  LinkHandlers.add_handler cb hs target = Some hs' →
  get hs' k
  = if String.eqb target k then Some (default [] (get hs target) ++ [cb])
    else get hs k.
Proof.
  rewrite add_handler_eq.
  destruct (get hs target) as [fns|] eqn:E.
  - intros [= <-]. by rewrite get_set.
  - destruct (inherited target); [done|]. intros [= <-]. by rewrite get_set.
Qed.

(** A round of the loop ends well under a name that is not inherited. *)
Lemma add_handler_returns cb (hs : obj (list nat)) (target : string) :
  inherited target = false →
  ∃ hs', LinkHandlers.add_handler cb hs target = Some hs'.
Proof.
  intros Hi. rewrite add_handler_eq, Hi. destruct (get hs target); eauto.
Qed.

(** A handler stays registered through later rounds of [makeLinkableTo]. *)
Lemma add_handlers_keeps cb (targets : list string) :
  ∀ (hs : obj (list nat)) (k : string) fns,
  get hs k = Some fns → cb ∈ fns →
  ∃ fns', get (LinkHandlers.add_handlers cb hs targets).1 k = Some fns'
          ∧ cb ∈ fns'.
Proof.
  induction targets as [|t targets IH]; intros hs k fns Hk Hcb; simpl.
  - by exists fns.
  - destruct (LinkHandlers.add_handler cb hs t) as [hs'|] eqn:E;
      [|by exists fns].
    pose proof (get_add_handler _ _ _ _ k E) as Hget.
    destruct (String.eqb_spec t k) as [->|Hne].
    + apply (IH _ k (fns ++ [cb])).
      * by rewrite Hget, Hk.
      * apply elem_of_app. by left.
    + apply (IH _ k fns); [|done]. by rewrite Hget.
Qed.

(** With no inherited name among the targets the loop ends, and the
    handler is registered under every target. *)
Lemma add_handlers_returns cb (targets : list string) :
  ∀ (hs : obj (list nat)),
  Forall (λ k, inherited k = false) targets →
  (LinkHandlers.add_handlers cb hs targets).2 = true
  ∧ ∀ k, k ∈ targets →
      ∃ fns, get (LinkHandlers.add_handlers cb hs targets).1 k = Some fns
             ∧ cb ∈ fns.
Proof.
  induction targets as [|t targets IH]; intros hs Hall; simpl.
  - split; [done|]. intros k Hk. by apply elem_of_nil in Hk.
  - apply Forall_cons in Hall as [Ht Hall].
    destruct (add_handler_returns cb hs t Ht) as [hs' E]. rewrite E.
    destruct (IH hs' Hall) as [Hend Hreg]. split; [done|].
    intros k Hk. destruct (String.eqb_spec t k) as [->|Hne].
    + apply (add_handlers_keeps cb targets hs' k
               (default [] (get hs k) ++ [cb])).
      * by rewrite (get_add_handler _ _ _ _ k E), String.eqb_refl.
      * apply elem_of_app. right. by apply list_elem_of_singleton.
    + apply Hreg. by apply elem_of_cons in Hk as [->|?].
Qed.

(** With an inherited name among the targets, under which the construct has
    no handlers, the loop throws. *)
Lemma add_handlers_throws cb (k : string) (targets : list string) :
  ∀ (hs : obj (list nat)),
  k ∈ targets → inherited k = true → get hs k = None →
  (LinkHandlers.add_handlers cb hs targets).2 = false.
Proof.
  induction targets as [|t targets IH]; intros hs Hk Hi Hn; simpl.
  - by apply elem_of_nil in Hk.
  - destruct (LinkHandlers.add_handler cb hs t) as [hs'|] eqn:E; [|done].
    pose proof (get_add_handler _ _ _ _ k E) as Hget.
    destruct (String.eqb_spec t k) as [->|Hne].
    + rewrite add_handler_eq, Hn, Hi in E. done.
    + apply IH; [|done|by rewrite Hget].
      by apply elem_of_cons in Hk as [->|?].
Qed.

Lemma elem_of_handler_calls this target c t fn tg h :
  (fn, tg, h) ∈ LinkHandlers.handler_calls this target c t
  ↔ tg = target ∧ h = this
    ∧ ∃ type fns, get (LinkHandlers.linkHandlers c) type = Some fns
                  ∧ fn ∈ fns
                  ∧ get (LinkHandlers.linkHandlers t) type ≠ None.
Proof.
  unfold LinkHandlers.handler_calls, LinkHandlers.linksTo.
  rewrite list_elem_of_In, in_flat_map. split.
  - intros (type & Ht & Hin). apply list_elem_of_In in Ht, Hin.
    apply list_elem_of_fmap in Hin as (fn' & [= -> -> ->] & Hfn).
    split; [done|]. split; [done|].
    destruct (get (LinkHandlers.linkHandlers c) type) as [fns|] eqn:E;
      [|by apply elem_of_nil in Hfn].
    exists type, fns. split; [done|]. split; [done|].
    by apply get_keys_entries.
  - intros (-> & -> & type & fns & Hc & Hfn & Ht).
    exists type. split.
    + apply list_elem_of_In. by apply get_keys_entries.
    + apply list_elem_of_In, list_elem_of_fmap. exists fn. split; [done|].
      by rewrite Hc.
Qed.

(** X29. [Linkable.tryLink(here, target)] with the [Construct] of tokens.ts
    only adds calls of handlers to the record, and it calls a handler [fn]
    with [(target, here)] exactly when a type that [here] links to is among
    the types [target] links as, and [fn] is registered with [here] under a
    type under which [target] has handlers registered too: [linkTo] goes
    through [target.linksTo], the keys of the handlers of the target, not
    through the types the target links as. *)
Theorem tryLink_calls_need_handlers_of_target (here target : loc)
    (c t : LinkHandlers.Construct) (st : LinkHandlers.state) :
  LinkHandlers.constructs st !! here = Some c →
  LinkHandlers.constructs st !! target = Some t →
  ∃ new,
    LinkHandlers.tryLink here target st
    = Some (LinkHandlers.mkState (LinkHandlers.constructs st)
                                 (LinkHandlers.calls st ++ new))
    ∧ ∀ fn tg h,
        (fn, tg, h) ∈ new
        ↔ tg = target ∧ h = here
          ∧ (∃ type, type ∈ LinkHandlers.linksTo c
                     ∧ type ∈ LinkHandlers.linksAs t)
          ∧ ∃ type fns,
              get (LinkHandlers.linkHandlers c) type = Some fns
              ∧ fn ∈ fns
              ∧ get (LinkHandlers.linkHandlers t) type ≠ None.
Proof.
  intros Hc Ht. unfold LinkHandlers.tryLink, LinkHandlers.linkTo.
  rewrite Hc, Ht.
  destruct (existsb (includes (LinkHandlers.linksAs t)) (LinkHandlers.linksTo c))
    eqn:E.
  - exists (LinkHandlers.handler_calls here target c t). split; [done|].
    intros fn tg h. rewrite elem_of_handler_calls.
    apply existsb_exists in E as (type & Hin & Hinc).
    apply list_elem_of_In in Hin. apply includes_elem_of in Hinc.
    split.
    + intros (-> & -> & Hex). repeat (split; [done|]). split; [|done].
      by exists type.
    + intros (-> & -> & _ & Hex). done.
  - exists []. split.
    + rewrite app_nil_r. by destruct st.
    + intros fn tg h. split; [by intros ?%elem_of_nil|].
      intros (_ & _ & (type & Hin & Has) & _). exfalso.
      assert (existsb (includes (LinkHandlers.linksAs t))
                (LinkHandlers.linksTo c) = true) as E'; [|congruence].
      apply existsb_exists. exists type. split.
      * by apply list_elem_of_In.
      * by apply includes_elem_of.
Qed.

Lemma tryLink_calls_need_handlers_of_target_witness :
  ∃ new,
    LinkHandlers.tryLink 1 2 handlers_registered
    = Some (LinkHandlers.mkState
              (LinkHandlers.constructs handlers_registered)
              (LinkHandlers.calls handlers_registered ++ new))
    ∧ ∀ fn tg h,
        (fn, tg, h) ∈ new
        ↔ tg = 2 ∧ h = 1
          ∧ (∃ type, type ∈ LinkHandlers.linksTo handler_here
                     ∧ type ∈ LinkHandlers.linksAs handler_target)
          ∧ ∃ type fns,
              get (LinkHandlers.linkHandlers handler_here) type = Some fns
              ∧ fn ∈ fns
              ∧ get (LinkHandlers.linkHandlers handler_target) type ≠ None.
Proof.
  apply (tryLink_calls_need_handlers_of_target 1 2 handler_here handler_target
           handlers_registered).
  - reflexivity.
  - reflexivity.
Defined.

(** X30.  After [here.makeLinkableTo(targets, cb)] with [T] among the
    targets and [target.makeLinkableAs(T)] on another construct,
    [Linkable.tryLink(here, target)] calls [cb] with [(target, here)] if
    [target] has handlers of its own under [T]; if [target] has no handlers
    at all, it calls nothing, although the types match.  This is so when no
    target names a member that every object inherits: with such a name
    among the targets (['constructor'], ...), under which [here] has no
    handlers yet, [makeLinkableTo] itself throws a [TypeError]. *)
Theorem makeLinkableTo_then_tryLink (here target : loc)
    (c t : LinkHandlers.Construct) (targets : list string) (T : string)
    (cb : nat) (st : LinkHandlers.state) :
  LinkHandlers.constructs st !! here = Some c →
  LinkHandlers.constructs st !! target = Some t →
  here ≠ target →
  T ∈ targets →
  (Forall (λ k, inherited k = false) targets →
   ∃ st1 st2 new,
     LinkHandlers.makeLinkableTo here targets cb st
     = Some (LinkHandlers.Returned st1)
     ∧ LinkHandlers.makeLinkableAs target [T] st1 = Some st2
     ∧ LinkHandlers.tryLink here target st2
       = Some (LinkHandlers.mkState (LinkHandlers.constructs st2)
                                    (LinkHandlers.calls st ++ new))
     ∧ (get (LinkHandlers.linkHandlers t) T ≠ None → (cb, target, here) ∈ new)
     ∧ (LinkHandlers.linkHandlers t = [] → new = []))
  ∧ (∀ k, k ∈ targets → inherited k = true →
       get (LinkHandlers.linkHandlers c) k = None →
       ∃ st1, LinkHandlers.makeLinkableTo here targets cb st
              = Some (LinkHandlers.TypeError st1)).
Proof.
  intros Hc Ht Hne HT.
  unfold LinkHandlers.makeLinkableTo. rewrite Hc.
  destruct (LinkHandlers.add_handlers cb (LinkHandlers.linkHandlers c) targets)
    as [hs ended] eqn:E.
  split.
  - intros Hall.
    destruct (add_handlers_returns cb targets (LinkHandlers.linkHandlers c) Hall)
      as [Hend Hreg].
    destruct (Hreg T HT) as (fns & Hfns & Hcb).
    rewrite E in Hend, Hfns. simpl in Hend, Hfns. subst ended.
    set (c' := LinkHandlers.mkConstruct (LinkHandlers.linksAs c) hs).
    set (t' := LinkHandlers.mkConstruct (LinkHandlers.linksAs t ++ [T])
                 (LinkHandlers.linkHandlers t)).
    exists (LinkHandlers.mkState (<[here := c']> (LinkHandlers.constructs st))
              (LinkHandlers.calls st)),
           (LinkHandlers.mkState
              (<[target := t']> (<[here := c']> (LinkHandlers.constructs st)))
              (LinkHandlers.calls st)),
           (LinkHandlers.handler_calls here target c' t').
    split; [done|]. split; [|split; [|split]].
    + unfold LinkHandlers.makeLinkableAs. simpl.
      by rewrite lookup_insert_ne, Ht.
    + unfold LinkHandlers.tryLink, LinkHandlers.linkTo. simpl.
      rewrite lookup_insert_ne, lookup_insert_eq by done.
      rewrite lookup_insert_eq.
      assert (existsb (includes (LinkHandlers.linksAs t'))
                (LinkHandlers.linksTo c') = true) as ->; [|done].
      apply existsb_exists. exists T. split.
      * apply list_elem_of_In. unfold LinkHandlers.linksTo. simpl.
        apply get_keys_entries. by rewrite Hfns.
      * apply includes_elem_of, elem_of_app. right.
        by apply list_elem_of_singleton.
    + intros HtT. apply elem_of_handler_calls. split; [done|]. split; [done|].
      by exists T, fns.
    + intros Hnil. unfold LinkHandlers.handler_calls, LinkHandlers.linksTo.
      simpl. by rewrite Hnil.
  - intros k Hk Hi Hn.
    pose proof (add_handlers_throws cb k targets _ Hk Hi Hn) as Hthrow.
    rewrite E in Hthrow. simpl in Hthrow. subst ended. eauto.
Qed.

(** A target with a handler of its own under ["T"], a target without
    handlers, and the name ['constructor'] among the targets. *)
Lemma makeLinkableTo_then_tryLink_witness :
  (∃ st1 st2 new,
     LinkHandlers.makeLinkableTo 1 ["T"] 7 handlers_mutual
     = Some (LinkHandlers.Returned st1)
     ∧ LinkHandlers.makeLinkableAs 2 ["T"] st1 = Some st2
     ∧ LinkHandlers.tryLink 1 2 st2
       = Some (LinkHandlers.mkState (LinkHandlers.constructs st2)
                                    (LinkHandlers.calls handlers_mutual ++ new))
     ∧ (7, 2, 1) ∈ new)
  ∧ (∃ st1 st2,
       LinkHandlers.makeLinkableTo 1 ["T"] 7 handlers_state
       = Some (LinkHandlers.Returned st1)
       ∧ LinkHandlers.makeLinkableAs 2 ["T"] st1 = Some st2
       ∧ LinkHandlers.tryLink 1 2 st2
         = Some (LinkHandlers.mkState (LinkHandlers.constructs st2)
                                      (LinkHandlers.calls handlers_state ++ [])))
  ∧ (∃ st1, LinkHandlers.makeLinkableTo 1 ["T"; "constructor"] 7 handlers_state
            = Some (LinkHandlers.TypeError st1)).
Proof.
  split; [|split].
  - destruct (makeLinkableTo_then_tryLink 1 2 (LinkHandlers.mkConstruct [] [])
                (LinkHandlers.mkConstruct [] [("T", [9])]) ["T"] "T" 7
                handlers_mutual eq_refl eq_refl ltac:(lia)
                ltac:(apply list_elem_of_singleton; reflexivity))
      as [H _].
    destruct H as (st1 & st2 & new & H1 & H2 & H3 & H4 & _).
    { by repeat constructor. }
    exists st1, st2, new. split; [exact H1|]. split; [exact H2|].
    split; [exact H3|]. apply H4. discriminate.
  - destruct (makeLinkableTo_then_tryLink 1 2 (LinkHandlers.mkConstruct [] [])
                (LinkHandlers.mkConstruct [] []) ["T"] "T" 7
                handlers_state eq_refl eq_refl ltac:(lia)
                ltac:(apply list_elem_of_singleton; reflexivity))
      as [H _].
    destruct H as (st1 & st2 & new & H1 & H2 & H3 & _ & H5).
    { by repeat constructor. }
    exists st1, st2. split; [exact H1|]. split; [exact H2|].
    rewrite <- (H5 eq_refl). exact H3.
  - destruct (makeLinkableTo_then_tryLink 1 2 (LinkHandlers.mkConstruct [] [])
                (LinkHandlers.mkConstruct [] []) ["T"; "constructor"] "T" 7
                handlers_state eq_refl eq_refl ltac:(lia)
                ltac:(apply elem_of_cons; by left))
      as [_ H].
    apply (H "constructor"); [|reflexivity|reflexivity].
    apply elem_of_cons. right. by apply list_elem_of_singleton.
Defined.
